(** * Solana CEX tracker: block ingestion and outflow detection

    A shallow embedding of the TypeScript services
    [services/ranges.ts], [services/blockParser.ts],
    [services/transactionMonitorListener.ts] and
    [services/blockMonitorListener.ts], and of the entry point that starts
    them, followed by the properties proved about them.

    Conventions of the embedding.
    - A JavaScript [number] that carries an amount is an IEEE-754 binary64
      value, modelled with the Standard Library's [spec_float] and its
      correctly rounded operations (precision 53, [emax] 1024).
    - A slot is a JavaScript [number] holding an integer far below 2^53,
      where [+ 1] and the comparisons are exact; slots are modelled as [Z].
    - A JavaScript string is modelled as a [string] whose characters are the
      code units 0..255 of the text.
    - [undefined] / [null] fields are [option]s; a thrown exception is an
      explicit outcome of the computation that can throw.
    - Asynchronous code is cut at its [await]s: every piece that runs
      without suspension is one atomic transition of a state machine, and
      the environment chooses which suspended task resumes next. *)

From Stdlib Require Import ZArith String Ascii List Lia Bool.
From Stdlib Require Import Strings.Byte.
From Stdlib Require Import Floats.SpecFloat.
From Stdlib Require Import Sorting.Sorted.
From stdpp Require Import gmap strings list.

Open Scope Z_scope.

(* ================================================================== *)
(** * Part I: the embedding *)
(* ================================================================== *)

(** ** JavaScript strings: the few [String.prototype] methods the code uses *)

Module JSString.

(** [WhiteSpace] and [LineTerminator] code units below 256: TAB, LF, VT, FF,
    CR, SP and NBSP.  These are what [trim] and [Number] strip. *)
Definition isWhiteSpace (c : ascii) : bool :=
  let n := N_of_ascii c in
  ((n =? 9) || (n =? 10) || (n =? 11) || (n =? 12) || (n =? 13)
   || (n =? 32) || (n =? 160))%N.

Fixpoint trimStart (s : string) : string :=
  match s with
  | EmptyString => EmptyString
  | String c s' => if isWhiteSpace c then trimStart s' else s
  end.

Fixpoint trimEnd (s : string) : string :=
  match s with
  | EmptyString => EmptyString
  | String c s' =>
      match trimEnd s' with
      | EmptyString => if isWhiteSpace c then EmptyString else String c EmptyString
      | t => String c t
      end
  end.

(** [s.trim()] *)
Definition trim (s : string) : string := trimEnd (trimStart s).

(** [s.split(sep)] for a one-character separator: never the empty list,
    [''.split(sep)] is [['']]. *)
Fixpoint split (sep : ascii) (s : string) : list string :=
  match s with
  | EmptyString => [EmptyString]
  | String c s' =>
      if Ascii.eqb c sep then EmptyString :: split sep s'
      else match split sep s' with
           | [] => [String c EmptyString]
           | t :: ts => String c t :: ts
           end
  end.

(** Truthiness of a string: [Boolean(s)] is false exactly for ['']. *)
Definition truthy (s : string) : bool :=
  match s with EmptyString => false | _ => true end.

(** [s.includes(pat)] *)
Fixpoint includes (s pat : string) : bool :=
  if String.prefix pat s then true
  else match s with
       | EmptyString => false
       | String _ s' => includes s' pat
       end.

End JSString.

(** ** JavaScript numbers *)

Module JSNumber.

Definition prec : Z := 53.
Definition emax : Z := 1024.

(** A [number] is a binary64 value. *)
Definition number : Type := spec_float.

Definition NaN : number := S754_nan.
Definition Infinity (neg : bool) : number := S754_infinity neg.

(** The number nearest to an integer: [Number(n)] for a BigInt [n], and the
    value of an integer literal. *)
Definition ofZ (z : Z) : number := binary_normalize prec emax z 0 false.

(** [x / y] *)
Definition div (x y : number) : number := SFdiv prec emax x y.

(** The relational operators, following IsLessThan: a comparison with NaN
    is undefined and every operator then answers false. *)
Definition lt (x y : number) : bool := SFltb x y.
Definition gt (x y : number) : bool := SFltb y x.
Definition le (x y : number) : bool :=
  match SFcompare y x with
  | Some Lt | None => false
  | Some _ => true
  end.
Definition ge (x y : number) : bool :=
  match SFcompare x y with
  | Some Lt | None => false
  | Some _ => true
  end.

(** A well-formed binary64 value: a zero, an infinity, NaN, or a mantissa
    and exponent in canonical form. *)
Definition valid (x : number) : bool := valid_binary prec emax x.

(** The exact value of a zero or finite number, counted in units of
    [2^-1074], the smallest positive binary64 value. *)
Definition units (x : number) : option Z :=
  match x with
  | S754_zero _ => Some 0
  | S754_finite s m e =>
      Some ((if s then -1 else 1) * (Zpos m * 2 ^ (e + 1074)))
  | _ => None
  end.

(** The values of the numbers other than NaN: the two infinities and the
    finite values, the latter in units of [2^-1074]. *)
Inductive Value : Type :=
| MinusInfinity
| Finite (u : Z)
| PlusInfinity.

Definition value (x : number) : option Value :=
  match x with
  | S754_infinity s => Some (if s then MinusInfinity else PlusInfinity)
  | _ => option_map Finite (units x)
  end.

(** The order of the extended line. *)
Definition compareValue (a b : Value) : comparison :=
  match a, b with
  | MinusInfinity, MinusInfinity => Eq
  | MinusInfinity, _ => Lt
  | _, MinusInfinity => Gt
  | PlusInfinity, PlusInfinity => Eq
  | PlusInfinity, _ => Gt
  | _, PlusInfinity => Lt
  | Finite u, Finite v => Z.compare u v
  end.

Definition leValue (a b : Value) : Prop := compareValue a b <> Gt.

(** [Number.isNaN(x)] *)
Definition isNaN (x : number) : bool :=
  match x with S754_nan => true | _ => false end.

(** *** [Number(text)]: the StringToNumber conversion *)

Definition digitValue (base : Z) (c : ascii) : option Z :=
  let n := Z.of_N (N_of_ascii c) in
  let v := if (48 <=? n) && (n <=? 57) then Some (n - 48)
           else if (97 <=? n) && (n <=? 122) then Some (n - 87)
           else if (65 <=? n) && (n <=? 90) then Some (n - 55)
           else None in
  match v with
  | Some d => if d <? base then Some d else None
  | None => None
  end.

(** The longest prefix of digits in [base], most significant first, and the
    rest of the text. *)
Fixpoint spanDigits (base : Z) (s : string) : list Z * string :=
  match s with
  | EmptyString => ([], EmptyString)
  | String c s' =>
      match digitValue base c with
      | Some d => let '(ds, rest) := spanDigits base s' in (d :: ds, rest)
      | None => ([], s)
      end
  end.

Definition digitsValue (base : Z) (ds : list Z) : Z :=
  fold_left (fun acc d => acc * base + d) ds 0.

(** The binary64 value nearest to [m * 10^e] (ties to even), with the sign
    [neg].  A negative exponent is a correctly rounded division. *)
Definition ofDecimal (neg : bool) (m e : Z) : number :=
  match m with
  | Z0 => S754_zero neg
  | Zpos p =>
      if 0 <=? e then
        match Zpos p * 10 ^ e with
        | Zpos q => binary_round prec emax neg q 0
        | _ => NaN
        end
      else
        let '(q, e', l) := SFdiv_core_binary prec emax (Zpos p) 0 (10 ^ (- e)) 0 in
        binary_round_aux prec emax neg q e' l
  | Zneg _ => NaN
  end.

(** [0x..], [0o..], [0b..]: a non-decimal integer literal carries no sign. *)
Definition parseNonDecimal (s : string) : option number :=
  match s with
  | String "0" (String c rest) =>
      let base := if Ascii.eqb c "x" || Ascii.eqb c "X" then Some 16
                  else if Ascii.eqb c "o" || Ascii.eqb c "O" then Some 8
                  else if Ascii.eqb c "b" || Ascii.eqb c "B" then Some 2
                  else None in
      match base with
      | Some b =>
          match spanDigits b rest with
          | (d :: ds, EmptyString) => Some (ofZ (digitsValue b (d :: ds)))
          | _ => None
          end
      | None => None
      end
  | _ => None
  end.

(** The exponent part after the mantissa: nothing, or [e]/[E], an optional
    sign and at least one digit, up to the end of the text. *)
Definition parseExponent (s : string) : option Z :=
  match s with
  | EmptyString => Some 0
  | String c rest =>
      if Ascii.eqb c "e" || Ascii.eqb c "E" then
        let '(neg, rest') :=
          match rest with
          | String "+" r => (false, r)
          | String "-" r => (true, r)
          | _ => (false, rest)
          end in
        match spanDigits 10 rest' with
        | (d :: ds, EmptyString) =>
            let v := digitsValue 10 (d :: ds) in
            Some (if neg then - v else v)
        | _ => None
        end
      else None
  end.

(** StrDecimalLiteral: an optional sign, then [Infinity] or decimal digits
    with an optional fraction and exponent. *)
Definition parseDecimal (s : string) : option number :=
  let '(neg, body) :=
    match s with
    | String "+" r => (false, r)
    | String "-" r => (true, r)
    | _ => (false, s)
    end in
  if String.eqb body "Infinity" then Some (Infinity neg)
  else
    let '(intDigits, afterInt) := spanDigits 10 body in
    let '(fracDigits, afterFrac) :=
      match afterInt with
      | String "." r => spanDigits 10 r
      | _ => ([], afterInt)
      end in
    match intDigits ++ fracDigits with
    | [] => None
    | ds =>
        match parseExponent afterFrac with
        | Some ex =>
            Some (ofDecimal neg (digitsValue 10 ds) (ex - Z.of_nat (length fracDigits)))
        | None => None
        end
    end.

(** [Number(text)]: surrounding white space is ignored, the empty text is
    [+0], and a text that is not a numeric literal is NaN. *)
Definition ofString (text : string) : number :=
  let t := JSString.trim text in
  match t with
  | EmptyString => S754_zero false
  | _ =>
      match parseNonDecimal t with
      | Some v => v
      | None =>
          match parseDecimal t with
          | Some v => v
          | None => NaN
          end
      end
  end.

(** [Number(v)] for a value that may be [undefined]: [Number(undefined)] is
    NaN. *)
Definition ofOptString (v : option string) : number :=
  match v with
  | Some s => ofString s
  | None => NaN
  end.

(** [x - y] *)
Definition sub (x y : number) : number := SFsub prec emax x y.

(** The sign bit of a number. *)
Definition signbit (x : number) : bool :=
  match x with
  | S754_zero s | S754_infinity s | S754_finite s _ _ => s
  | S754_nan => false
  end.

End JSNumber.

(** ** [services/ranges.ts] *)

Module Ranges.

Record Range : Type := { min : JSNumber.number; max : JSNumber.number }.

(** The callback of the second [map] in [parseRanges]: [None] is [null]. *)
Definition parseToken (token : string) : option Range :=
  let parts := map JSString.trim (JSString.split "-" token) in
  let a := parts !! 0%nat in
  let b := parts !! 1%nat in
  let min := JSNumber.ofOptString a in
  let max := match b with
             | Some b' => JSNumber.ofString b'
             | None => JSNumber.ofOptString a
             end in
  if JSNumber.isNaN min || JSNumber.isNaN max then None
  else Some {| min := min; max := max |}.

(** [.filter(Boolean)] on a list whose entries are objects or [null]. *)
Definition filterNonNull {A : Type} (l : list (option A)) : list A :=
  omap id l.

Definition parseRanges (rangeStr : option string) : list Range :=
  match rangeStr with
  | None => []
  | Some EmptyString => []
  | Some s =>
      filterNonNull
        (map parseToken
           (filter (fun t => Is_true (JSString.truthy t))
              (map JSString.trim (JSString.split "," s))))
  end.

Fixpoint amountMatchesRanges (amount : JSNumber.number) (ranges : list Range) : bool :=
  match ranges with
  | [] => false
  | r :: rest =>
      if JSNumber.ge amount (min r) && JSNumber.le amount (max r) then true
      else amountMatchesRanges amount rest
  end.

(** A well-formed number other than NaN: it has a value. *)
Definition exact (x : JSNumber.number) : Prop :=
  JSNumber.valid x = true /\ is_Some (JSNumber.value x).

(** The value of [amount] lies between the values of the bounds of [r],
    bounds included. *)
Definition within (amount : JSNumber.number) (r : Range) : Prop :=
  match JSNumber.value (min r), JSNumber.value amount, JSNumber.value (max r) with
  | Some lo, Some u, Some hi => JSNumber.leValue lo u /\ JSNumber.leValue u hi
  | _, _, _ => False
  end.

End Ranges.

(** ** Thrown exceptions *)

Module Js.

Inductive Exn : Type := Error (message : string).

(** The completion of a call that may throw. *)
Inductive Result (A : Type) : Type :=
| Ok (value : A)
| Throw (e : Exn).
Arguments Ok {A} value.
Arguments Throw {A} e.

(** The completion of one run of a loop body that may push one element to
    the result list: it pushes and falls through, it leaves the iteration
    without pushing ([continue], or the end of the body), or it throws. *)
Inductive Body (A : Type) : Type :=
| Push (a : A)
| Continue
| Raise (e : Exn).
Arguments Push {A} a.
Arguments Continue {A}.
Arguments Raise {A} e.

(** [try { body } catch (e) { continue; }] *)
Definition tryCatchContinue {A : Type} (body : Body A) : Body A :=
  match body with
  | Raise _ => Continue
  | b => b
  end.

End Js.

(** ** Base58 text, as the [bs58] package decodes it

    [bs58] is an external dependency of the parser.  The parser below takes
    the decoder as a parameter; this module is the usual Bitcoin-alphabet
    decoder, used to run the parser on concrete instruction data. *)

Module Base58.

Definition ALPHABET : string :=
  "123456789ABCDEFGHJKLMNPQRSTUVWXYZabcdefghijkmnopqrstuvwxyz".

Fixpoint indexOf (c : ascii) (alphabet : string) : option Z :=
  match alphabet with
  | EmptyString => None
  | String a rest =>
      if Ascii.eqb a c then Some 0
      else match indexOf c rest with
           | Some i => Some (i + 1)
           | None => None
           end
  end.

(** The digits of the text; [None] at the first character outside the
    alphabet. *)
Fixpoint digits (s : string) : option (list Z) :=
  match s with
  | EmptyString => Some []
  | String c rest =>
      match indexOf c ALPHABET, digits rest with
      | Some d, Some ds => Some (d :: ds)
      | _, _ => None
      end
  end.

Definition byteOfZ (z : Z) : byte :=
  match Byte.of_N (Z.to_N (z mod 256)) with
  | Some b => b
  | None => x00
  end.

(** Big-endian bytes of a number, without leading zero bytes; [fuel] bounds
    the number of bytes. *)
Fixpoint bytesOfZ (fuel : nat) (z : Z) (acc : list byte) : list byte :=
  match fuel with
  | O => acc
  | S fuel' =>
      if z <=? 0 then acc
      else bytesOfZ fuel' (z / 256) (byteOfZ z :: acc)
  end.

Fixpoint leadingZeroes (ds : list Z) : nat :=
  match ds with
  | d :: rest => if d =? 0 then S (leadingZeroes rest) else O
  | [] => O
  end.

(** Every leading ['1'] is a zero byte; the rest is the number written in
    base 58.  A character outside the alphabet makes [decode] throw. *)
Definition decode (s : string) : Js.Result (list byte) :=
  match digits s with
  | None => Js.Throw (Js.Error "Non-base58 character")
  | Some ds =>
      let value := fold_left (fun acc d => acc * 58 + d) ds 0 in
      Js.Ok (repeat x00 (leadingZeroes ds) ++ bytesOfZ (length ds) value [])
  end.

End Base58.

(** ** [services/blockParser.ts] *)

Module BlockParser.

Import Js.

(** An entry of the account table: a base58 string, a [PublicKey] (an object
    with [toBase58], whose [String()] is the same text), or another object
    without [toBase58] (a parsed-message account record), which [String()]
    renders as ["[object Object]"]. *)
Inductive AccountKey : Type :=
| KeyString (s : string)
| KeyPublicKey (base58 : string)
| KeyObject.

(** [instr.data]: base58 text, a [Uint8Array], or anything else
    (including [undefined]). *)
Inductive InstrData : Type :=
| DataString (s : string)
| DataBytes (bytes : list byte)
| DataOther.

(** [parsed.info] of a structured instruction. *)
Record ParsedInfo : Type := {
  source : option string;
  destination : option string;
  lamports : option JSNumber.number
}.

(** [instr.parsed] *)
Record Parsed : Type := {
  type : string;
  info : option ParsedInfo
}.

(** An instruction object.  The structured encoding fills [parsed] and
    [program]; the raw encoding fills [programIdIndex], [data] and
    [accounts].  The parser inspects the fields one by one, so every one of
    them may be absent. *)
Record Instruction : Type := {
  parsed : option Parsed;
  program : option string;
  programIdIndex : option Z;
  data : InstrData;
  accounts : option (list Z)
}.

Record Message : Type := {
  staticAccountKeys : option (list AccountKey);
  accountKeys : option (list AccountKey);
  instructions : option (list Instruction)
}.

Record TransactionBody : Type := {
  message : Message;
  signatures : option (list string)
}.

(** [tx.meta] is only tested for presence. *)
Inductive TransactionMeta : Type := OpaqueMeta.

Record Transaction : Type := {
  transaction : TransactionBody;
  meta : option TransactionMeta
}.

Record Outflow : Type := {
  amount : JSNumber.number;
  receiver : option string;
  otype : string
}.

(** System Program pubkey *)
Definition SYSTEM_PROGRAM : string := "11111111111111111111111111111111".

(** [1e9] *)
Definition LAMPORTS_PER_SOL : JSNumber.number := JSNumber.ofZ 1000000000.

(** [table[i]] for a number [i]: [undefined] outside the table. *)
Definition at_ {A : Type} (table : list A) (i : Z) : option A :=
  if i <? 0 then None else table !! Z.to_nat i.

(** [typeof k === 'string' ? k : k?.toBase58?.()] *)
Definition addressOf (k : option AccountKey) : option string :=
  match k with
  | Some (KeyString s) => Some s
  | Some (KeyPublicKey b) => Some b
  | Some KeyObject => None
  | None => None
  end.

(** [String(k)] *)
Definition stringOf (k : option AccountKey) : string :=
  match k with
  | Some (KeyString s) => s
  | Some (KeyPublicKey b) => b
  | Some KeyObject => "[object Object]"
  | None => "undefined"
  end.

(** [typeof toAddr === 'string' ? toAddr : toAddr?.toBase58?.() || String(toAddr)] *)
Definition receiverOf (toAddr : option AccountKey) : string :=
  match toAddr with
  | Some (KeyString s) => s
  | _ =>
      match addressOf toAddr with
      | Some t => if JSString.truthy t then t else stringOf toAddr
      | None => stringOf toAddr
      end
  end.

(** [buf[i]] *)
Definition byteAt (buf : list byte) (i : nat) : option N :=
  Byte.to_N <$> buf !! i.

(** [buf.slice(from, to)] for [from <= to] *)
Definition slice (from to : nat) (buf : list byte) : list byte :=
  take (to - from) (drop from buf).

(** [buf.readBigUInt64LE()]: throws on a buffer of fewer than 8 bytes. *)
Definition readBigUInt64LE (buf : list byte) : Result Z :=
  if (length buf <? 8)%nat then Throw (Error "ERR_OUT_OF_RANGE")
  else Ok (fold_right (fun b acc => Z.of_N (Byte.to_N b) + 256 * acc) 0 (take 8 buf)).

Definition isByte (b : option N) (v : N) : bool :=
  match b with
  | Some n => (n =? v)%N
  | None => false
  end.

Section Parser.

(** [bs58.decode] *)
Variable bs58_decode : string -> Result (list byte).

Variable accountKeys_ : list AccountKey.
Variable cexAddress : string.

(** Case 1, the body of the [try] block: a parsed instruction of the
    system program. *)
Definition parsedInstruction (p : Parsed) : Body Outflow :=
  if String.eqb (type p) "transfer" then
    match info p with
    | None => Continue
    | Some info_ =>
        if bool_decide (source info_ = Some cexAddress)
           && match lamports info_ with
              | Some l => JSNumber.gt l (JSNumber.ofZ 0)
              | None => false
              end
        then
          Push {| amount := match lamports info_ with
                            | Some l => JSNumber.div l LAMPORTS_PER_SOL
                            | None => JSNumber.NaN
                            end;
                  receiver := destination info_;
                  otype := "SOL" |}
        else Continue
    end
  else Continue.

(** [instrData]: [Buffer.from(bs58.decode(instr.data))] for a string, a copy
    of a [Uint8Array], [continue] for anything else. *)
Definition decodeData (d : InstrData) : Body (list byte) :=
  match d with
  | DataString s =>
      match bs58_decode s with
      | Ok bytes => Push bytes
      | Throw e => Raise e
      end
  | DataBytes bytes => Push bytes
  | DataOther => Continue
  end.

(** Case 2, the body of the [try] block: a raw instruction. *)
Definition rawInstruction (instr : Instruction) : Body Outflow :=
  match programIdIndex instr with
  | None => Continue
  | Some programIdx =>
      let programId := at_ accountKeys_ programIdx in
      let programAddr := addressOf programId in
      if negb (bool_decide (programAddr = Some SYSTEM_PROGRAM)) then Continue
      else
        match decodeData (data instr) with
        | Raise e => Raise e
        | Continue => Continue
        | Push instrData =>
            if (length instrData <? 12)%nat then Continue
            else if negb (isByte (byteAt instrData 0) 2)
                    || negb (isByte (byteAt instrData 1) 0)
                    || negb (isByte (byteAt instrData 2) 0)
                    || negb (isByte (byteAt instrData 3) 0) then Continue
            else
              let amountBuf := slice 4 12 instrData in
              match readBigUInt64LE amountBuf with
              | Throw e => Raise e
              | Ok big =>
                  let transferAmountLamports := JSNumber.ofZ big in
                  if JSNumber.le transferAmountLamports (JSNumber.ofZ 0) then Continue
                  else
                    let accounts_ := default [] (accounts instr) in
                    if (length accounts_ <? 2)%nat then Continue
                    else
                      match accounts_ !! 0%nat, accounts_ !! 1%nat with
                      | Some fromIdx, Some toIdx =>
                          let fromAddr := at_ accountKeys_ fromIdx in
                          let fromAddrStr := addressOf fromAddr in
                          if negb (bool_decide (fromAddrStr = Some cexAddress)) then Continue
                          else
                            let toAddr := at_ accountKeys_ toIdx in
                            let receiver_ := receiverOf toAddr in
                            if JSString.truthy receiver_ then
                              Push {| amount := JSNumber.div transferAmountLamports LAMPORTS_PER_SOL;
                                      receiver := Some receiver_;
                                      otype := "SOL" |}
                            else Continue
                      | _, _ => Continue
                      end
              end
        end
  end.

(** The body of [for (const instr of instructions)]. *)
Definition loopBody (instr : Instruction) : Body Outflow :=
  match parsed instr with
  | Some p =>
      if bool_decide (program instr = Some "system"%string)
      then tryCatchContinue (parsedInstruction p)
      else tryCatchContinue (rawInstruction instr)
  | None => tryCatchContinue (rawInstruction instr)
  end.

(** The [for] loop: an exception that escapes a body ends the function. *)
Fixpoint forInstructions (instrs : list Instruction) (results : list Outflow)
  : Result (list Outflow) :=
  match instrs with
  | [] => Ok results
  | instr :: rest =>
      match loopBody instr with
      | Push o => forInstructions rest (results ++ [o])
      | Continue => forInstructions rest results
      | Raise e => Throw e
      end
  end.

(** What the scan of one instruction adds to the result. *)
Definition outflowsOf (instr : Instruction) : list Outflow :=
  match loopBody instr with
  | Push o => [o]
  | _ => []
  end.

End Parser.

(** [message.staticAccountKeys || message.accountKeys || []] *)
Definition accountTable (message_ : Message) : list AccountKey :=
  match staticAccountKeys message_ with
  | Some keys => keys
  | None => default [] (accountKeys message_)
  end.

(** [message.instructions || []] *)
Definition instructionsOf (message_ : Message) : list Instruction :=
  default [] (instructions message_).

Definition parseBlockTransactions (bs58_decode : string -> Result (list byte))
  (tx : Transaction) (cexAddress : string) : Result (list Outflow) :=
  match meta tx with
  | None => Ok []
  | Some _ =>
      let message_ := message (transaction tx) in
      forInstructions bs58_decode (accountTable message_) cexAddress
        (instructionsOf message_) []
  end.

(** The account table and the instructions the scan of [tx] works on. *)
Definition tableOf (tx : Transaction) : list AccountKey :=
  accountTable (message (transaction tx)).

Definition instructionsOfTx (tx : Transaction) : list Instruction :=
  instructionsOf (message (transaction tx)).

(** The little-endian 64-bit encoding of [n], and the payload
    [[2,0,0,0] + LE64(n)] of a transfer of [n] base units. *)
Definition LE64 (n : Z) : list byte :=
  map (fun i => Base58.byteOfZ (n / 256 ^ Z.of_nat i)) (seq 0 8).

Definition transferPayload (n : Z) : list byte :=
  [x02; x00; x00; x00] ++ LE64 n.

(** The instruction is scanned by case 2: it is not a parsed instruction of
    the system program. *)
Definition takesRawPath (instr : Instruction) : Prop :=
  parsed instr = None \/ program instr <> Some "system"%string.

End BlockParser.

(** ** [process.env] and the wallet variables *)

Module Env.

(** [process.env]: the variables, in the order in which [Object.keys] lists
    them; every value is a string. *)
Definition Env : Type := list (string * string).

(** [env[key]]; [None] is [undefined]. *)
Fixpoint get (key : string) (env : Env) : option string :=
  match env with
  | [] => None
  | (k, v) :: rest => if String.eqb k key then Some v else get key rest
  end.

(** [Object.keys(env)] *)
Definition keys (env : Env) : list string := map fst env.

(** [\d] *)
Definition isDigit (c : ascii) : bool :=
  let n := N_of_ascii c in ((48 <=? n) && (n <=? 57))%N.

Fixpoint allDigits (s : string) : bool :=
  match s with
  | EmptyString => true
  | String c s' => isDigit c && allDigits s'
  end.

(** The longest prefix of digits of a text, and the rest of the text. *)
Fixpoint spanDecimal (s : string) : string * string :=
  match s with
  | EmptyString => (EmptyString, EmptyString)
  | String c s' =>
      if isDigit c then let '(n, rest) := spanDecimal s' in (String c n, rest)
      else (EmptyString, s)
  end.

(** The rest of [s] after the prefix [p], if [s] starts with [p]. *)
Fixpoint stripPrefix (p s : string) : option string :=
  match p, s with
  | EmptyString, _ => Some s
  | String a p', String b s' => if Ascii.eqb a b then stripPrefix p' s' else None
  | String _ _, EmptyString => None
  end.

(** [k.match(/^CEX_(\d+)_LABEL$/)]: the text of the group, [None] when the
    key does not match. *)
Definition matchLabel (k : string) : option string :=
  match stripPrefix "CEX_" k with
  | Some rest =>
      let '(n, after) := spanDecimal rest in
      if JSString.truthy n && String.eqb after "_LABEL" then Some n else None
  | None => None
  end.

(** [`CEX_${n}_LABEL`], [`CEX_${n}_ADDRESS`], [`CEX_${n}_RANGE`] *)
Definition labelKey (n : string) : string := "CEX_" +:+ n +:+ "_LABEL".
Definition addressKey (n : string) : string := "CEX_" +:+ n +:+ "_ADDRESS".
Definition rangeKey (n : string) : string := "CEX_" +:+ n +:+ "_RANGE".

Record CexConfig : Type := { label : string; address : string; ranges : string }.

End Env.

(** ** Objects used as maps, and [Array.prototype.sort] *)

Module JSObject.

(** An ordinary object with string keys: its properties in the order of
    their creation. *)
Definition Obj (V : Type) : Type := list (string * V).

(** [obj[key] = v]: an existing property keeps its place. *)
Fixpoint setProperty {V : Type} (key : string) (v : V) (obj : Obj V) : Obj V :=
  match obj with
  | [] => [(key, v)]
  | (k, w) :: rest =>
      if String.eqb k key then (k, v) :: rest else (k, w) :: setProperty key v rest
  end.

(** [obj[key]] *)
Fixpoint getProperty {V : Type} (key : string) (obj : Obj V) : option V :=
  match obj with
  | [] => None
  | (k, w) :: rest => if String.eqb k key then Some w else getProperty key rest
  end.

(** The value of a text of decimal digits. *)
Definition decimalValue (s : string) : Z :=
  fold_left (fun acc c => acc * 10 + (Z.of_N (N_of_ascii c) - 48))
    (list_ascii_of_string s) 0.

(** An array index: the canonical decimal text of an integer from 0 to
    [2^32 - 2]. *)
Definition isArrayIndex (key : string) : bool :=
  Env.allDigits key
  && match key with
     | EmptyString => false
     | String "0" EmptyString => true
     | String "0" _ => false
     | _ => true
     end
  && (decimalValue key <? 4294967295).

(** Stable insertion: [a] goes before the first element that does not
    have to come before it. *)
Fixpoint insertBy {A : Type} (after : A -> A -> bool) (a : A) (l : list A) : list A :=
  match l with
  | [] => [a]
  | b :: rest => if after a b then b :: insertBy after a rest else a :: l
  end.

Definition sortBy {A : Type} (after : A -> A -> bool) (l : list A) : list A :=
  fold_right (insertBy after) [] l.

(** [Object.keys(obj)]: the array indices in ascending order, then the
    other keys in the order of their creation. *)
Definition ownKeys {V : Type} (obj : Obj V) : list string :=
  sortBy (fun a b => decimalValue b <? decimalValue a)
    (filter (fun k => Is_true (isArrayIndex k)) (map fst obj))
  ++ filter (fun k => ~ Is_true (isArrayIndex k)) (map fst obj).

(** [array.sort(comparefn)]: the sort is stable, and [a] comes after [b]
    when [comparefn(a, b) > 0]; a result that is NaN counts as zero. *)
Definition sort {A : Type} (comparefn : A -> A -> JSNumber.number) (l : list A) : list A :=
  sortBy (fun a b => JSNumber.gt (comparefn a b) (JSNumber.ofZ 0)) l.

End JSObject.

(** ** [services/transactionMonitorListener.ts]: the recently-seen set *)

Module TransactionMonitor.

(** A JavaScript [Set<string>] iterates in insertion order and holds no
    element twice: it is modelled as the list of its elements, oldest
    first. *)
Definition has (x : string) (set : list string) : bool := bool_decide (x ∈ set).
Definition add (x : string) (set : list string) : list string :=
  if has x set then set else set ++ [x].
Definition delete (x : string) (set : list string) : list string :=
  filter (fun y => y ≠ x) set.
Definition size (set : list string) : Z := Z.of_nat (length set).

Definition processedTxsMaxSize : Z := 10000.

(** The [onLogs] callback up to its first [await]: the new value of
    [processedTxs], and whether the callback goes on to fetch and process
    the transaction ([false] is the early [return]). *)
Definition onLogs (signature : string) (processedTxs : list string) : bool * list string :=
  if has signature processedTxs then (false, processedTxs)
  else
    let processedTxs1 := add signature processedTxs in
    if size processedTxs1 >? processedTxsMaxSize then
      let arr := processedTxs1 in
      (true,
       fold_left (fun set tx => delete tx set)
         (take (Z.to_nat (processedTxsMaxSize / 2)) arr) processedTxs1)
    else (true, processedTxs1).

(** The set after a sequence of log events, starting from the empty set the
    listener creates. *)
Definition afterEvents (signatures : list string) : list string :=
  fold_left (fun set sig => snd (onLogs sig set)) signatures [].

(** *** The rest of the listener: configuration, retries, the last slot *)

Import Env.

(** The signatures the callback has gone on to process, in order: a
    history of the events that were not skipped. *)
Definition accepted (signatures : list string) : list string :=
  snd (fold_left
         (fun st sig =>
            let '(go, set) := onLogs sig (fst st) in
            (set, if go then snd st ++ [sig] else snd st))
         signatures ([], [])).

(** [readCexConfigs] of the transaction monitor: one entry per key
    [CEX_<n>_LABEL], in the order of the keys, when the label and the
    address are non-empty. *)
Definition readCexConfigs (env : Env) : list CexConfig :=
  omap (fun k =>
          match matchLabel k with
          | Some n =>
              let label_ := get (labelKey n) env in
              let address_ := get (addressKey n) env in
              let ranges_ := get (rangeKey n) env in
              match label_, address_ with
              | Some l, Some a =>
                  if JSString.truthy l && JSString.truthy a
                  then Some {| label := l; address := a; ranges := default EmptyString ranges_ |}
                  else None
              | _, _ => None
              end
          | None => None
          end) (keys env).

(** How one call of [conn.getParsedTransaction] settles: with the
    transaction, with [null], or rejected with an error, whose message may
    be missing. *)
Inductive Attempt (T : Type) : Type :=
| Found (tx : T)
| NotAvailable
| Rejected (message : option string).
Arguments Found {T} tx.
Arguments NotAvailable {T}.
Arguments Rejected {T} message.

Record Fetched (T : Type) : Type := {
  fetched : option T;
  calls : nat;
  sleeps : nat;
  lastError : option (option string)
}.
Arguments fetched {T} _.
Arguments calls {T} _.
Arguments sleeps {T} _.
Arguments lastError {T} _.

(** The loop [while (retries > 0)] around [getParsedTransaction]:
    [respond i] is how call number [i] settles. *)
Fixpoint retryLoop {T : Type} (retries : nat) (respond : nat -> Attempt T)
  (calls_ sleeps_ : nat) (lastError_ : option (option string)) : Fetched T :=
  match retries with
  | O => {| fetched := None; calls := calls_; sleeps := sleeps_; lastError := lastError_ |}
  | S retries' =>
      match respond calls_ with
      | Found tx =>
          {| fetched := Some tx; calls := S calls_; sleeps := sleeps_;
             lastError := lastError_ |}
      | NotAvailable =>
          retryLoop retries' respond (S calls_)
            (if (0 <? retries')%nat then S sleeps_ else sleeps_) lastError_
      | Rejected message =>
          retryLoop retries' respond (S calls_)
            (if (0 <? retries')%nat then S sleeps_ else sleeps_) (Some message)
      end
  end.

(** [let tx = null; let retries = 3; let lastError = null; while ...] *)
Definition fetchWithRetry {T : Type} (respond : nat -> Attempt T) : Fetched T :=
  retryLoop 3 respond 0 0 None.

(** [lastError?.message ?? 'Unknown error'] *)
Definition errorMessage (lastError_ : option (option string)) : string :=
  match lastError_ with
  | Some (Some message) => message
  | _ => "Unknown error"
  end.

(** [if (tx.slot) { if (!lastSlots[label] || tx.slot > lastSlots[label])
    { lastSlots[label] = tx.slot; await saveLastSlot(lastSlots) } }]: the
    new map, and whether it is saved. *)
Definition updateLastSlot (label_ : string) (slot : Z) (lastSlots : gmap string Z)
  : gmap string Z * bool :=
  if slot =? 0 then (lastSlots, false)
  else
    match lastSlots !! label_ with
    | Some old =>
        if (old =? 0) || (old <? slot) then (<[label_ := slot]> lastSlots, true)
        else (lastSlots, false)
    | None => (<[label_ := slot]> lastSlots, true)
    end.

End TransactionMonitor.

(** ** [services/blockMonitorListener.ts]: the slot ingestion scheduler *)

Module BlockMonitor.

Import Js.

(** [blockData.transactions] *)
Definition Block : Type := list BlockParser.Transaction.

(** How [conn.getBlock(s)] settles: with no block or a block without
    transactions, with block data, or rejected with a message. *)
Inductive GetBlockResult : Type :=
| BlockMissing
| BlockData (transactions : Block)
| BlockError (msg : string).

(** What runs when [await attemptAdvance()] resumes: the rest of the [try]
    block of [doFetch], the rest of its [catch] block, or the rest of the
    [try] block of [processBlock]. *)
Inductive Cont : Type :=
| KFetchTry (s : Z)
| KFetchCatch (s : Z)
| KProcess (s : Z) (blockData : Block).

(** A suspended piece of the program. *)
Inductive Task : Type :=
| AwaitGetBlock (s : Z)
| AwaitSave (k : Cont)
| AwaitAdvance (k : Cont) (outcome : Result unit)
| Processing (s : Z) (blockData : Block)
| RefetchTimer (s : Z)
| RequeueTimer (s : Z) (blockData : Block).

(** The variables of the closure of [startBlockMonitorListener], the
    suspended tasks, and the calls made so far to the block provider and to
    [saveLastSlot].  [markedProcessed] is a history variable: every slot
    ever passed to [processedSlots.set]. *)
Record State : Type := {
  lastSlots : gmap string Z;
  lastSlot : Z;
  inFlightFetches : gset Z;
  processedSlots : gmap Z bool;
  processQueue : list (Z * Block);
  processWorkers : Z;
  processConcurrency : Z;
  tasks : list Task;
  getBlockCalls : list Z;
  saveLastSlotCalls : list Z;
  markedProcessed : gset Z
}.

(** Assignments to one variable of the state. *)
Definition setLastSlot (v : Z) (st : State) : State :=
  {| lastSlots := lastSlots st; lastSlot := v;
     inFlightFetches := inFlightFetches st; processedSlots := processedSlots st;
     processQueue := processQueue st; processWorkers := processWorkers st;
     processConcurrency := processConcurrency st; tasks := tasks st;
     getBlockCalls := getBlockCalls st; saveLastSlotCalls := saveLastSlotCalls st;
     markedProcessed := markedProcessed st |}.

Definition setInFlightFetches (v : gset Z) (st : State) : State :=
  {| lastSlots := lastSlots st; lastSlot := lastSlot st;
     inFlightFetches := v; processedSlots := processedSlots st;
     processQueue := processQueue st; processWorkers := processWorkers st;
     processConcurrency := processConcurrency st; tasks := tasks st;
     getBlockCalls := getBlockCalls st; saveLastSlotCalls := saveLastSlotCalls st;
     markedProcessed := markedProcessed st |}.

Definition setProcessedSlots (v : gmap Z bool) (st : State) : State :=
  {| lastSlots := lastSlots st; lastSlot := lastSlot st;
     inFlightFetches := inFlightFetches st; processedSlots := v;
     processQueue := processQueue st; processWorkers := processWorkers st;
     processConcurrency := processConcurrency st; tasks := tasks st;
     getBlockCalls := getBlockCalls st; saveLastSlotCalls := saveLastSlotCalls st;
     markedProcessed := markedProcessed st |}.

Definition setProcessQueue (v : list (Z * Block)) (st : State) : State :=
  {| lastSlots := lastSlots st; lastSlot := lastSlot st;
     inFlightFetches := inFlightFetches st; processedSlots := processedSlots st;
     processQueue := v; processWorkers := processWorkers st;
     processConcurrency := processConcurrency st; tasks := tasks st;
     getBlockCalls := getBlockCalls st; saveLastSlotCalls := saveLastSlotCalls st;
     markedProcessed := markedProcessed st |}.

Definition setProcessWorkers (v : Z) (st : State) : State :=
  {| lastSlots := lastSlots st; lastSlot := lastSlot st;
     inFlightFetches := inFlightFetches st; processedSlots := processedSlots st;
     processQueue := processQueue st; processWorkers := v;
     processConcurrency := processConcurrency st; tasks := tasks st;
     getBlockCalls := getBlockCalls st; saveLastSlotCalls := saveLastSlotCalls st;
     markedProcessed := markedProcessed st |}.

Definition setTasks (v : list Task) (st : State) : State :=
  {| lastSlots := lastSlots st; lastSlot := lastSlot st;
     inFlightFetches := inFlightFetches st; processedSlots := processedSlots st;
     processQueue := processQueue st; processWorkers := processWorkers st;
     processConcurrency := processConcurrency st; tasks := v;
     getBlockCalls := getBlockCalls st; saveLastSlotCalls := saveLastSlotCalls st;
     markedProcessed := markedProcessed st |}.

Definition setGetBlockCalls (v : list Z) (st : State) : State :=
  {| lastSlots := lastSlots st; lastSlot := lastSlot st;
     inFlightFetches := inFlightFetches st; processedSlots := processedSlots st;
     processQueue := processQueue st; processWorkers := processWorkers st;
     processConcurrency := processConcurrency st; tasks := tasks st;
     getBlockCalls := v; saveLastSlotCalls := saveLastSlotCalls st;
     markedProcessed := markedProcessed st |}.

Definition setSaveLastSlotCalls (v : list Z) (st : State) : State :=
  {| lastSlots := lastSlots st; lastSlot := lastSlot st;
     inFlightFetches := inFlightFetches st; processedSlots := processedSlots st;
     processQueue := processQueue st; processWorkers := processWorkers st;
     processConcurrency := processConcurrency st; tasks := tasks st;
     getBlockCalls := getBlockCalls st; saveLastSlotCalls := v;
     markedProcessed := markedProcessed st |}.

Definition setMarkedProcessed (v : gset Z) (st : State) : State :=
  {| lastSlots := lastSlots st; lastSlot := lastSlot st;
     inFlightFetches := inFlightFetches st; processedSlots := processedSlots st;
     processQueue := processQueue st; processWorkers := processWorkers st;
     processConcurrency := processConcurrency st; tasks := tasks st;
     getBlockCalls := getBlockCalls st; saveLastSlotCalls := saveLastSlotCalls st;
     markedProcessed := v |}.

Definition setLastSlots (v : gmap string Z) (st : State) : State :=
  {| lastSlots := v; lastSlot := lastSlot st;
     inFlightFetches := inFlightFetches st; processedSlots := processedSlots st;
     processQueue := processQueue st; processWorkers := processWorkers st;
     processConcurrency := processConcurrency st; tasks := tasks st;
     getBlockCalls := getBlockCalls st; saveLastSlotCalls := saveLastSlotCalls st;
     markedProcessed := markedProcessed st |}.

(** A piece of the program suspends: it joins the pool of tasks. *)
Definition suspend (t : Task) (st : State) : State :=
  setTasks (tasks st ++ [t]) st.

(** [processedSlots.set(s, true)] *)
Definition markProcessed (s : Z) (st : State) : State :=
  setMarkedProcessed ({[s]} ∪ markedProcessed st)
    (setProcessedSlots (<[s := true]> (processedSlots st)) st).

(** [inFlightFetches.delete(s)] *)
Definition deleteInFlight (s : Z) (st : State) : State :=
  setInFlightFetches (inFlightFetches st ∖ {[s]}) st.

(** [loadLastSlot]: the parsed file, or [{}] when reading or parsing
    fails. *)
Definition loadLastSlot (file : option (gmap string Z)) : gmap string Z :=
  default ∅ file.

(** The state in which [startBlockMonitorListener] leaves its closure
    before the subscription starts: [file] is the content of
    [lastSlot.json] if it can be read and parsed, [getSlot] is how
    [conn.getSlot('confirmed')] settles. *)
Definition startBlockMonitorListener (file : option (gmap string Z))
  (getSlot : Result Z) (concurrency : Z) : State :=
  {| lastSlots := loadLastSlot file;
     lastSlot := match getSlot with Ok v => v | Throw _ => 0 end;
     inFlightFetches := ∅;
     processedSlots := ∅;
     processQueue := [];
     processWorkers := 0;
     processConcurrency := concurrency;
     tasks := [];
     getBlockCalls := [];
     saveLastSlotCalls := [];
     markedProcessed := ∅ |}.

(** [doFetch(s)] up to [await conn.getBlock(s, ...)]. *)
Definition doFetch (s : Z) (st : State) : State :=
  if s <=? lastSlot st then st
  else if bool_decide (s ∈ inFlightFetches st)
          || bool_decide (is_Some (processedSlots st !! s)) then st
  else
    suspend (AwaitGetBlock s)
      (setGetBlockCalls (getBlockCalls st ++ [s])
         (setInFlightFetches ({[s]} ∪ inFlightFetches st) st)).

(** [processBlock(s, blockData)] up to its first suspension. *)
Definition processBlock (s : Z) (blockData : Block) (st : State) : State :=
  suspend (Processing s blockData) (setProcessWorkers (processWorkers st + 1) st).

(** The [while] loop of [tryStartProcessors], over the queue it shifts. *)
Fixpoint tryStartProcessorsLoop (queue : list (Z * Block)) (st : State) : State :=
  match queue with
  | [] => setProcessQueue [] st
  | item :: rest =>
      if processWorkers st <? processConcurrency st
      then tryStartProcessorsLoop rest (processBlock (fst item) (snd item) st)
      else setProcessQueue queue st
  end.

Definition tryStartProcessors (st : State) : State :=
  tryStartProcessorsLoop (processQueue st) st.

(** The [then] branch of the loop of [attemptAdvance], if it is taken:
    the checkpoint moves to [next], [next] leaves the processed set and
    [saveLastSlot({ lastSlot })] is called.  [None] is the [break]. *)
Definition advanceOnce (st : State) : option State :=
  let next := lastSlot st + 1 in
  if bool_decide (is_Some (processedSlots st !! next)) then
    Some (setSaveLastSlotCalls (saveLastSlotCalls st ++ [next])
            (setProcessedSlots (delete next (processedSlots st))
               (setLastSlot next st)))
  else None.

(** [attemptAdvance] from the head of its loop to its next suspension, for
    the caller [k]: at [await saveLastSlot(...)], or at its return, after
    which the caller's [await attemptAdvance()] is ready to resume. *)
Definition attemptAdvanceFrom (advanced : bool) (k : Cont) (st : State) : State :=
  match advanceOnce st with
  | Some st' => suspend (AwaitSave k) st'
  | None =>
      suspend (AwaitAdvance k (Ok tt))
        (if advanced then tryStartProcessors st else st)
  end.

(** One call of [attemptAdvance] that nothing interleaves with and whose
    writes succeed: the loop, then [if (advanced) tryStartProcessors()].
    Every turn of the loop removes an entry of [processedSlots], so its
    size bounds the number of turns. *)
Fixpoint attemptAdvanceLoop (fuel : nat) (advanced : bool) (st : State)
  : option (bool * State) :=
  match fuel with
  | O => None
  | S fuel' =>
      match advanceOnce st with
      | Some st' => attemptAdvanceLoop fuel' true st'
      | None => Some (advanced, st)
      end
  end.

Definition attemptAdvance (st : State) : option State :=
  match attemptAdvanceLoop (S (size (processedSlots st))) false st with
  | Some (advanced, st') => Some (if advanced then tryStartProcessors st' else st')
  | None => None
  end.

(** [msg.includes('skipped') || msg.includes('missing in long-term storage')] *)
Definition skippedLike (msg : string) : bool :=
  JSString.includes msg "skipped"
  || JSString.includes msg "missing in long-term storage".

(** The [catch (err)] block of [doFetch], then its [finally]. *)
Definition fetchCatch (s : Z) (msg : string) (st : State) : State :=
  if skippedLike msg
  then attemptAdvanceFrom false (KFetchCatch s) (markProcessed s st)
  else deleteInFlight s (suspend (RefetchTimer s) st).

(** [doFetch] resumes from [await conn.getBlock]. *)
Definition getBlockSettled (s : Z) (r : GetBlockResult) (st : State) : State :=
  match r with
  | BlockMissing => attemptAdvanceFrom false (KFetchTry s) (markProcessed s st)
  | BlockData blockData =>
      deleteInFlight s
        (tryStartProcessors (setProcessQueue (processQueue st ++ [(s, blockData)]) st))
  | BlockError msg => fetchCatch s msg st
  end.

(** The caller of [attemptAdvance] resumes. *)
Definition advanceReturned (k : Cont) (outcome : Result unit) (st : State) : State :=
  match k, outcome with
  | KFetchTry s, Ok _ => deleteInFlight s st
  | KFetchTry s, Throw (Error msg) => fetchCatch s msg st
  | KFetchCatch s, _ => deleteInFlight s st
  | KProcess s blockData, Ok _ => setProcessWorkers (processWorkers st - 1) st
  | KProcess s blockData, Throw _ =>
      setProcessWorkers (processWorkers st - 1) (suspend (RequeueTimer s blockData) st)
  end.

(** [processBlock] leaves its loop over the transactions: normally, or by
    an exception. *)
Definition processSettled (s : Z) (blockData : Block) (outcome : Result unit)
  (st : State) : State :=
  match outcome with
  | Ok _ => attemptAdvanceFrom false (KProcess s blockData) (markProcessed s st)
  | Throw _ =>
      setProcessWorkers (processWorkers st - 1) (suspend (RequeueTimer s blockData) st)
  end.

(** What the environment does next: the subscription delivers a slot
    update, or the suspended task at position [i] of the pool resumes. *)
Inductive Event : Type :=
| SlotUpdate (type : string) (slot : Z)
| GetBlockSettled (i : nat) (r : GetBlockResult)
| SaveSettled (i : nat) (outcome : Result unit)
| AdvanceReturned (i : nat)
| ProcessSettled (i : nat) (outcome : Result unit)
| TimerFired (i : nat).

Definition removeTask (i : nat) (st : State) : State :=
  setTasks (take i (tasks st) ++ drop (S i) (tasks st)) st.

(** One atomic transition.  An event that names a task of another kind, or
    no task, changes nothing. *)
Definition step (ev : Event) (st : State) : State :=
  match ev with
  | SlotUpdate type slot =>
      if String.eqb type "root" then doFetch slot st else st
  | GetBlockSettled i r =>
      match tasks st !! i with
      | Some (AwaitGetBlock s) => getBlockSettled s r (removeTask i st)
      | _ => st
      end
  | SaveSettled i outcome =>
      match tasks st !! i with
      | Some (AwaitSave k) =>
          match outcome with
          | Ok _ => attemptAdvanceFrom true k (removeTask i st)
          | Throw e => suspend (AwaitAdvance k (Throw e)) (removeTask i st)
          end
      | _ => st
      end
  | AdvanceReturned i =>
      match tasks st !! i with
      | Some (AwaitAdvance k outcome) => advanceReturned k outcome (removeTask i st)
      | _ => st
      end
  | ProcessSettled i outcome =>
      match tasks st !! i with
      | Some (Processing s blockData) => processSettled s blockData outcome (removeTask i st)
      | _ => st
      end
  | TimerFired i =>
      match tasks st !! i with
      | Some (RefetchTimer s) => doFetch s (deleteInFlight s (removeTask i st))
      | Some (RequeueTimer s blockData) =>
          tryStartProcessors
            (setProcessQueue (processQueue (removeTask i st) ++ [(s, blockData)])
               (removeTask i st))
      | _ => st
      end
  end.

Definition run (evs : list Event) (st : State) : State :=
  fold_left (fun st ev => step ev st) evs st.

(** The number of [getBlock(s)] calls that have not settled yet. *)
Definition isFetchOf (s : Z) (t : Task) : bool :=
  match t with
  | AwaitGetBlock s' => bool_decide (s' = s)
  | _ => false
  end.

Definition fetchesInFlight (s : Z) (st : State) : nat :=
  length (filter (fun t => Is_true (isFetchOf s t)) (tasks st)).

(** The slot whose [doFetch] a task belongs to: its pending [getBlock], or
    the rest of [doFetch] waiting for [attemptAdvance]. *)
Definition fetchOwner (t : Task) : option Z :=
  match t with
  | AwaitGetBlock s => Some s
  | AwaitSave (KFetchTry s) => Some s
  | AwaitSave (KFetchCatch s) => Some s
  | AwaitAdvance (KFetchTry s) _ => Some s
  | AwaitAdvance (KFetchCatch s) _ => Some s
  | _ => None
  end.

Definition fetchOwners (st : State) : list Z := omap fetchOwner (tasks st).

(** A task on the retry path of [doFetch]: the retry timer, or a [try]
    block about to resume with an exception. *)
Definition isRetry (t : Task) : bool :=
  match t with
  | RefetchTimer _ => true
  | AwaitAdvance (KFetchTry _) (Throw _) => true
  | _ => false
  end.

(** An event that cannot send [doFetch] into its retry path: no fetch
    rejected by a transient error, no failed write. *)
Definition noRetry (ev : Event) : Prop :=
  match ev with
  | GetBlockSettled _ (BlockError msg) => skippedLike msg = true
  | SaveSettled _ (Throw _) => False
  | _ => True
  end.

(** Every slot has at most one [doFetch] under way, that slot is in the
    in-flight set, and no task is on the retry path. *)
Definition dedupInvariant (st : State) : Prop :=
  NoDup (fetchOwners st)
  /\ (forall s, s ∈ fetchOwners st -> s ∈ inFlightFetches st)
  /\ Forall (fun t => isRetry t = false) (tasks st).

(** The part of the state the checkpoint depends on: the checkpoint, the
    processed set, the calls to [saveLastSlot], the slots marked so far. *)
Definition View : Type := (Z * gmap Z bool * list Z * gset Z)%type.

Definition view (st : State) : View :=
  (lastSlot st, processedSlots st, saveLastSlotCalls st, markedProcessed st).

(** The effect of [processedSlots.set(s, true)] on the view. *)
Definition viewMark (s : Z) (v : View) : View :=
  let '(c, ps, saves, marked) := v in
  (c, <[s := true]> ps, saves, {[s]} ∪ marked).

(** The effect of one turn of the loop of [attemptAdvance] on the view. *)
Definition viewAdvance (v : View) : View :=
  let '(c, ps, saves, marked) := v in
  if bool_decide (is_Some (ps !! (c + 1)))
  then (c + 1, delete (c + 1) ps, saves ++ [c + 1], marked)
  else v.

(** The checkpoint [c], its processed set, the saves and the marked slots
    are consistent with a start at the checkpoint [c0]: the checkpoint has
    not moved back, every slot it has passed was marked processed, every
    slot of the processed set was marked, and the saves are the slots
    [c0 + 1 .. c] in order. *)
Definition consistentFrom (c0 : Z) (v : View) : Prop :=
  let '(c, ps, saves, marked) := v in
  c0 <= c
  /\ (forall i, c0 < i <= c -> i ∈ marked)
  /\ dom ps ⊆ marked
  /\ saves = seqZ (c0 + 1) (c - c0).

(** How one transition may change the view: not at all, by one turn of the
    advance loop, or by marking a slot and then one turn of the loop. *)
Definition viewStep (v v' : View) : Prop :=
  v' = v \/ v' = viewAdvance v \/ exists s, v' = viewAdvance (viewMark s v).

(** *** The pool of processors *)

(** A task that holds a processing slot: [processBlock] between its
    [processWorkers++] and its [processWorkers--]. *)
Definition isWorker (t : Task) : bool :=
  match t with
  | Processing _ _ => true
  | AwaitSave (KProcess _ _) => true
  | AwaitAdvance (KProcess _ _) _ => true
  | _ => false
  end.

(** The number of calls of [processBlock] that have not finished. *)
Definition workers (pool : list Task) : Z :=
  Z.of_nat (length (filter (fun t => Is_true (isWorker t)) pool)).

(** The counter and the pool, up to a difference [d]: the counter stays at
    most the concurrency, and it exceeds the number of tasks that hold a
    processing slot by [d]. *)
Definition pooled (d c : Z) (st : State) : Prop :=
  processConcurrency st = c
  /\ processWorkers st = workers (tasks st) + d
  /\ processWorkers st <= Z.max 0 c.

(** *** The wallets of the configuration *)

Import JSString Env.

(** [raw ? String(raw).trim() : ''] *)
Definition trimmed (raw : option string) : string :=
  match raw with
  | Some v => if truthy v then trim v else EmptyString
  | None => EmptyString
  end.

(** The entry that the callback of [forEach] stores for the wallet [n], if
    it stores one. *)
Definition configOf (env : Env) (n : string) : option CexConfig :=
  let label_ := trimmed (get (labelKey n) env) in
  let address_ := trimmed (get (addressKey n) env) in
  let ranges_ := trimmed (get (rangeKey n) env) in
  if truthy label_ && truthy address_
  then Some {| label := trim label_; address := trim address_; ranges := trim ranges_ |}
  else None.

(** The object [map] after the [forEach] over the keys of the
    environment. *)
Definition collectConfigs (env : Env) : JSObject.Obj CexConfig :=
  fold_left (fun map k =>
               match matchLabel k with
               | Some n =>
                   match configOf env n with
                   | Some cfg => JSObject.setProperty n cfg map
                   | None => map
                   end
               | None => map
               end) (keys env) [].

(** [Object.keys(map).sort((a, b) => Number(a) - Number(b))] *)
Definition sortedKeys (env : Env) : list string :=
  JSObject.sort (fun a b => JSNumber.sub (JSNumber.ofString a) (JSNumber.ofString b))
    (JSObject.ownKeys (collectConfigs env)).

(** [readCexConfigs] of the block monitor: [...map((k) => map[k])] *)
Definition readCexConfigs (env : Env) : list CexConfig :=
  omap (fun k => JSObject.getProperty k (collectConfigs env)) (sortedKeys env).

End BlockMonitor.

(** ** [services/blockMonitorListener.ts]: the loop of [processBlock] *)

Module ProcessBlock.

Import Js Env BlockParser.

(** What an alert message is built from: the label of the wallet, the
    amount and the receiver of the Outflow, the signature of the
    transaction. *)
Record Alert : Type := {
  alertLabel : string;
  alertAmount : JSNumber.number;
  alertReceiver : string;
  alertSignature : string
}.

(** [tx.transaction.signatures?.[0]] *)
Definition firstSignature (tx : Transaction) : option string :=
  match signatures (transaction tx) with
  | Some (signature :: _) => Some signature
  | _ => None
  end.

Section Loop.

Variable bs58_decode : string -> Result (list byte).
Variable configs : list CexConfig.

(** [sendAlert(message)]: resolves, or rejects. *)
Variable sendAlert : Alert -> Result unit.

(** [for (const outflow of outflows)]: the calls of [sendAlert] made so
    far, and how the loop ends.  The log line reads
    [outflow.receiver.slice(0, 8)], which throws on a missing receiver. *)
Fixpoint forOutflows (cfg : CexConfig) (signature : string) (ranges_ : list Ranges.Range)
  (outflows : list Outflow) (alerts : list Alert) : list Alert * Result unit :=
  match outflows with
  | [] => (alerts, Ok tt)
  | outflow :: rest =>
      match receiver outflow with
      | None =>
          (alerts, Throw (Error "Cannot read properties of undefined (reading 'slice')"))
      | Some receiver_ =>
          if negb (Ranges.amountMatchesRanges (amount outflow) ranges_)
          then forOutflows cfg signature ranges_ rest alerts
          else
            let alert := {| alertLabel := label cfg; alertAmount := amount outflow;
                            alertReceiver := receiver_; alertSignature := signature |} in
            match sendAlert alert with
            | Ok _ => forOutflows cfg signature ranges_ rest (alerts ++ [alert])
            | Throw e => (alerts ++ [alert], Throw e)
            end
      end
  end.

(** [for (const cfg of configs)] *)
Fixpoint forConfigs (tx : Transaction) (signature : string) (cfgs : list CexConfig)
  (alerts : list Alert) : list Alert * Result unit :=
  match cfgs with
  | [] => (alerts, Ok tt)
  | cfg :: rest =>
      let ranges_ := Ranges.parseRanges (Some (ranges cfg)) in
      match parseBlockTransactions bs58_decode tx (address cfg) with
      | Throw e => (alerts, Throw e)
      | Ok outflows =>
          match forOutflows cfg signature ranges_ outflows alerts with
          | (alerts', Ok _) => forConfigs tx signature rest alerts'
          | (alerts', Throw e) => (alerts', Throw e)
          end
      end
  end.

(** [for (const tx of blockData.transactions)] *)
Fixpoint forTransactions (txs : list Transaction) (alerts : list Alert)
  : list Alert * Result unit :=
  match txs with
  | [] => (alerts, Ok tt)
  | tx :: rest =>
      match firstSignature tx with
      | Some signature =>
          if negb (JSString.truthy signature) then forTransactions rest alerts
          else
            match forConfigs tx signature configs alerts with
            | (alerts', Ok _) => forTransactions rest alerts'
            | (alerts', Throw e) => (alerts', Throw e)
            end
      | None => forTransactions rest alerts
      end
  end.

(** The loop of [processBlock] over the transactions of a block. *)
Definition processTransactions (blockData : list Transaction) : list Alert * Result unit :=
  forTransactions blockData [].

(** An alert that is justified by a transaction of the block and a wallet
    of the configuration: the scan of the transaction for the address of
    the wallet reports an Outflow with a receiver whose amount matches the
    ranges of the wallet. *)
Definition justified (blockData : list Transaction) (a : Alert) : Prop :=
  exists tx cfg outs o receiver_,
    tx ∈ blockData /\ cfg ∈ configs
    /\ firstSignature tx = Some (alertSignature a) /\ alertSignature a <> EmptyString
    /\ parseBlockTransactions bs58_decode tx (address cfg) = Ok outs /\ o ∈ outs
    /\ receiver o = Some receiver_
    /\ Ranges.amountMatchesRanges (amount o) (Ranges.parseRanges (Some (ranges cfg))) = true
    /\ a = {| alertLabel := label cfg; alertAmount := amount o;
              alertReceiver := receiver_; alertSignature := alertSignature a |}.

End Loop.

(** How a run that may fail compares with a run of the same loop, from the
    same alerts, that ends normally: either it ends normally with the same
    alerts, all delivered, or it ends at an alert that [sendAlert] rejects,
    and the other run sends all its alerts again. *)
Definition repeated (sendAlert1 : Alert -> Result unit) (alerts1 : list Alert)
  (r1 : Result unit) (alerts2 : list Alert) : Prop :=
  match r1 with
  | Ok _ => alerts1 = alerts2 /\ Forall (fun a => sendAlert1 a = Ok tt) alerts1
  | Throw e =>
      exists delivered failed more,
        alerts1 = delivered ++ [failed]
        /\ Forall (fun a => sendAlert1 a = Ok tt) delivered
        /\ sendAlert1 failed = Throw e
        /\ alerts2 = alerts1 ++ more
  end.

End ProcessBlock.

(** ** [services/transactionMonitorListener.ts]: the [onLogs] callback *)

Module LogHandler.

Import Js Env BlockParser ProcessBlock.

(** What the callback reads of the result of [getParsedTransaction]:
    [tx.transaction] and [tx.meta], which make up [txWrapper], and
    [tx.slot]. *)
Record ParsedTransaction : Type := {
  txWrapper : Transaction;
  slot : Z
}.

(** How one run of the callback ends: at the early [return] for a
    signature of the set, at the [return] after the retries, in the
    [catch] of the callback, or at the end of its body. *)
Inductive Outcome : Type :=
| Skipped
| NotFetched (message : string)
| Caught (e : Exn)
| Completed.

(** The effects of one run: the set and the map it leaves, the calls of
    [sendAlert] and of [getParsedTransaction] it has made, and whether it
    has called [saveLastSlot]. *)
Record Handled : Type := {
  processedTxs : list string;
  lastSlots : gmap string Z;
  alerts : list Alert;
  getParsedTransactionCalls : nat;
  saved : bool;
  outcome : Outcome
}.

Section Callback.

Variable bs58_decode : string -> Result (list byte).

(** [sendAlert(message)] and [saveLastSlot(lastSlots)]: each resolves, or
    rejects. *)
Variable sendAlert : Alert -> Result unit.
Variable saveLastSlot : gmap string Z -> Result unit.

(** The wallet of the subscription. *)
Variable cfg : CexConfig.

(** [if (outflows.length > 0) for (const outflow of outflows) { log(...);
    log(... outflow.receiver.slice(0, 8) ...) }]: the second log line
    throws on a missing receiver. *)
Fixpoint logOutflows (outflows : list Outflow) : Result unit :=
  match outflows with
  | [] => Ok tt
  | outflow :: rest =>
      match receiver outflow with
      | None => Throw (Error "Cannot read properties of undefined (reading 'slice')")
      | Some _ => logOutflows rest
      end
  end.

(** [const message = ...]: the template interpolates [cfg.label],
    [outflow.amount], [outflow.receiver] and [signature]. *)
Definition message (signature : string) (outflow : Outflow) : Alert :=
  {| alertLabel := label cfg; alertAmount := amount outflow;
     alertReceiver := default "undefined"%string (receiver outflow);
     alertSignature := signature |}.

(** [for (const outflow of outflows) { if (!amountMatchesRanges(...))
    continue; ...; await sendAlert(message) }] *)
Fixpoint sendAlerts (signature : string) (ranges_ : list Ranges.Range)
  (outflows : list Outflow) (alerts_ : list Alert) : list Alert * Result unit :=
  match outflows with
  | [] => (alerts_, Ok tt)
  | outflow :: rest =>
      if negb (Ranges.amountMatchesRanges (amount outflow) ranges_)
      then sendAlerts signature ranges_ rest alerts_
      else
        let alert := message signature outflow in
        match sendAlert alert with
        | Ok _ => sendAlerts signature ranges_ rest (alerts_ ++ [alert])
        | Throw e => (alerts_ ++ [alert], Throw e)
        end
  end.

(** One run of the callback for the log event of [signature], on the set
    and the map shared by the callbacks of all wallets; [respond i] is how
    call number [i] of [getParsedTransaction] settles. *)
Definition callback (signature : string)
  (respond : nat -> TransactionMonitor.Attempt ParsedTransaction)
  (processedTxs_ : list string) (lastSlots_ : gmap string Z) : Handled :=
  let '(go, processedTxs1) := TransactionMonitor.onLogs signature processedTxs_ in
  if negb go
  then {| processedTxs := processedTxs1; lastSlots := lastSlots_; alerts := [];
          getParsedTransactionCalls := 0; saved := false; outcome := Skipped |}
  else
    let r := TransactionMonitor.fetchWithRetry respond in
    let ends (lastSlots1 : gmap string Z) (alerts_ : list Alert) (saved_ : bool)
             (outcome_ : Outcome) :=
      {| processedTxs := processedTxs1; lastSlots := lastSlots1; alerts := alerts_;
         getParsedTransactionCalls := TransactionMonitor.calls r; saved := saved_;
         outcome := outcome_ |} in
    match TransactionMonitor.fetched r with
    | None =>
        ends lastSlots_ [] false
          (NotFetched (TransactionMonitor.errorMessage (TransactionMonitor.lastError r)))
    | Some tx =>
        let ranges_ := Ranges.parseRanges (Some (ranges cfg)) in
        match parseBlockTransactions bs58_decode (txWrapper tx) (address cfg) with
        | Throw e => ends lastSlots_ [] false (Caught e)
        | Ok outflows =>
            match logOutflows outflows with
            | Throw e => ends lastSlots_ [] false (Caught e)
            | Ok _ =>
                match sendAlerts signature ranges_ outflows [] with
                | (alerts_, Throw e) => ends lastSlots_ alerts_ false (Caught e)
                | (alerts_, Ok _) =>
                    let '(lastSlots1, save) :=
                      TransactionMonitor.updateLastSlot (label cfg) (slot tx) lastSlots_ in
                    if save
                    then match saveLastSlot lastSlots1 with
                         | Ok _ => ends lastSlots1 alerts_ true Completed
                         | Throw e => ends lastSlots1 alerts_ true (Caught e)
                         end
                    else ends lastSlots1 alerts_ false Completed
                end
            end
        end
    end.

End Callback.

End LogHandler.

(** ** The subscription loop of both listeners *)

Module Subscription.

(** [while (!shuttingDown) { try { ...; backoffMs = 500; return }
    catch { await sleep(backoffMs); backoffMs = Math.min(backoffMs * 2,
    60000) } }]: [attempt i] tells whether round [i] establishes the
    subscription; the result is the list of the waits, the value of
    [backoffMs] and whether the loop has returned within [rounds] rounds. *)
Fixpoint ensureSubscription (rounds : nat) (attempt : nat -> bool) (round : nat)
  (backoffMs : Z) : list Z * Z * bool :=
  match rounds with
  | O => ([], backoffMs, false)
  | S rounds' =>
      if attempt round then ([], 500, true)
      else
        let '(waits, b, ok) :=
          ensureSubscription rounds' attempt (S round) (Z.min (backoffMs * 2) 60000) in
        (backoffMs :: waits, b, ok)
  end.

(** A round of the transaction monitor: [setupSubscriptions] keeps the
    wallets whose subscription is established, and the round fails when
    none is. *)
Definition setupSubscriptions {C : Type} (subscribe : C -> bool) (configs : list C)
  : list C :=
  filter (fun cfg => Is_true (subscribe cfg)) configs.

Definition ensureSubscriptions {C : Type} (rounds : nat)
  (subscribe : nat -> C -> bool) (configs : list C) : list Z * Z * bool :=
  ensureSubscription rounds
    (fun round => negb (length (setupSubscriptions (subscribe round) configs) =? 0)%nat)
    0 500.

End Subscription.

(** ** The entry point *)

Module Index.

Import Env.

(** How the entry point leaves its top level: [process.exit(code)], or
    the listener started on an [RpcManager] for the two endpoints. *)
Inductive Startup : Type :=
| Exit (code : Z)
| Start (primary : string) (secondary : option string).

(** [(process.env.NAME || '').trim()] *)
Definition setting (name : string) (env : Env) : string :=
  JSString.trim
    (match get name env with
     | Some v => if JSString.truthy v then v else EmptyString
     | None => EmptyString
     end).

Definition main (env : Env) : Startup :=
  let RPC_PRIMARY := setting "RPC_PRIMARY" env in
  let RPC_SECONDARY := setting "RPC_SECONDARY" env in
  if negb (JSString.truthy RPC_PRIMARY) then Exit 1
  else Start RPC_PRIMARY (if JSString.truthy RPC_SECONDARY then Some RPC_SECONDARY else None).

End Index.

(** ** Concrete inputs *)

Module Examples.

Import BlockParser.

Definition watched : string := "WatchedCexAddress".
Definition receiverAddress : string := "ReceiverAddress".

(** The account table: index 0 the watched address, index 1 a receiver,
    index 2 the system program. *)
Definition table : list AccountKey :=
  [KeyString watched; KeyPublicKey receiverAddress; KeyString SYSTEM_PROGRAM].

Definition rawInstr (d : InstrData) (accs : list Z) : Instruction :=
  {| parsed := None; program := None; programIdIndex := Some 2;
     data := d; accounts := Some accs |}.

(** [3Bxs4126ZQrQJFM9] is the base58 text of [[2,0,0,0] + LE64(2_500_000_000)]. *)
Definition transfer25 : Instruction := rawInstr (DataString "3Bxs4126ZQrQJFM9") [0; 1].
(** [[2,0,0,0,1,2,3]]: seven bytes. *)
Definition shortPayload : Instruction := rawInstr (DataString "5PxjxfAwc") [0; 1].
(** [[3,0,0,0] + LE64(5)] *)
Definition wrongDiscriminator : Instruction := rawInstr (DataString "4HSo5WczjnNyp8bR") [0; 1].
(** [[2,0,0,0] + LE64(0)] *)
Definition zeroAmount : Instruction := rawInstr (DataString "3Bxs3zrfFUZbEPqZ") [0; 1].
(** [0], [O], [I] and [l] are not base58 characters. *)
Definition notBase58 : Instruction := rawInstr (DataString "0OIl") [0; 1].
(** A transfer of one base unit whose second index, 7, is outside the table. *)
Definition unresolvedReceiver : Instruction :=
  rawInstr (DataBytes (transferPayload 1)) [0; 7].

Definition parsedTransfer (src dst : option string) (amount_ : option JSNumber.number)
  : Instruction :=
  {| parsed := Some {| type := "transfer";
                       info := Some {| source := src; destination := dst;
                                       lamports := amount_ |} |};
     program := Some "system"%string; programIdIndex := None;
     data := DataOther; accounts := None |}.

Definition txOf (m : option TransactionMeta) (instrs : list Instruction) : Transaction :=
  {| transaction :=
       {| message := {| staticAccountKeys := None; accountKeys := Some table;
                        instructions := Some instrs |};
          signatures := Some ["5VERv8NMvzbJMEkV8xnrLkEaWRtSz9CosKDYjCJjBRnb"%string] |};
     meta := m |}.

(** Four instructions that match nothing, then a transfer. *)
Definition mixedTx : Transaction :=
  txOf (Some OpaqueMeta)
    [shortPayload; wrongDiscriminator; zeroAmount; notBase58; transfer25].

(** A checkpoint file written by an earlier run that had advanced to slot
    100. *)
Definition checkpointFile : option (gmap string Z) :=
  Some {[ "lastSlot"%string := 100 ]}.

(** The scheduler started at the tip 4 with the default concurrency. *)
Definition startedAt4 : BlockMonitor.State :=
  BlockMonitor.startBlockMonitorListener None (Js.Ok 4) 8.

(** Slot 7 is observed, its fetch is rejected by a rate limit, slot 7 is
    observed again before the retry timer fires, then the timer fires. *)
Definition retryRace : list BlockMonitor.Event :=
  [BlockMonitor.SlotUpdate "root" 7;
   BlockMonitor.GetBlockSettled 0 (BlockMonitor.BlockError "429 Too Many Requests");
   BlockMonitor.SlotUpdate "root" 7;
   BlockMonitor.TimerFired 0].

(** The transaction with five raw instructions, confirmed at slot 42. *)
Definition confirmedAt42 : LogHandler.ParsedTransaction :=
  {| LogHandler.txWrapper := mixedTx; LogHandler.slot := 42 |}.

(** The first call of [getLogHandler.ParsedTransaction] resolves with [null], the
    second with the transaction. *)
Definition secondCall (tx : LogHandler.ParsedTransaction) (i : nat)
  : TransactionMonitor.Attempt LogHandler.ParsedTransaction :=
  match i with
  | 1%nat => TransactionMonitor.Found tx
  | _ => TransactionMonitor.NotAvailable
  end.

Definition binance : Env.CexConfig :=
  {| Env.label := "Binance"; Env.address := watched; Env.ranges := "1-5" |}.

Definition transferSignature : string := "5VERv8NMvzbJMEkV8xnrLkEaWRtSz9CosKDYjCJjBRnb".

Definition transferAlert : ProcessBlock.Alert :=
  {| ProcessBlock.alertLabel := "Binance";
     ProcessBlock.alertAmount := JSNumber.ofString "2.5";
     ProcessBlock.alertReceiver := receiverAddress;
     ProcessBlock.alertSignature := transferSignature |}.

(** A structured transfer from the watched address without destination,
    then the raw transfer of 2.5. *)
Definition noDestinationTx : Transaction :=
  txOf (Some OpaqueMeta)
    [parsedTransfer (Some watched) None
       (Some (JSNumber.ofZ 2500000000));
     transfer25].

End Examples.

(* ================================================================== *)
(** * Part II: properties *)
(* ================================================================== *)

(** ** Range matcher *)

Section RangeFacts.

Import JSString JSNumber Ranges.

(** [parseRanges] on a present text is the pipeline split, trim, drop the
    empty tokens, convert, drop the rejected tokens; the empty text needs no
    special case. *)
Lemma parseRanges_pipeline (s : string) :
  parseRanges (Some s) =
  omap parseToken (filter (fun t => t ≠ EmptyString) (map trim (split "," s))).
Proof.
  assert (Hmap : forall l : list string,
             filterNonNull (map parseToken l) = omap parseToken l).
  { induction l as [|t l IH]; [reflexivity|].
    unfold filterNonNull in *. cbn. rewrite IH. destruct (parseToken t); reflexivity. }
  assert (Hfilter : forall l : list string,
             filter (fun t => Is_true (truthy t)) l = filter (fun t => t ≠ EmptyString) l).
  { induction l as [|t l IH]; [reflexivity|].
    rewrite !filter_cons, IH.
    destruct t as [|c t].
    - destruct (decide (Is_true (truthy EmptyString))) as [[]|_].
      destruct (decide (EmptyString ≠ EmptyString)) as [Hne|_]; [congruence|reflexivity].
    - destruct (decide (Is_true (truthy (String c t)))) as [_|Hn]; [|exfalso; apply Hn; exact I].
      destruct (decide (String c t ≠ EmptyString)) as [_|Hn]; [reflexivity|].
      exfalso; apply Hn; discriminate. }
  destruct s as [|c s].
  - reflexivity.
  - unfold parseRanges. rewrite Hmap, Hfilter. reflexivity.
Qed.

(** [trim] is idempotent, hence [Number] of a trimmed text is [Number] of
    the text. *)
Lemma trimEnd_idempotent (s : string) : trimEnd (trimEnd s) = trimEnd s.
Proof.
  induction s as [|c s IH]; [reflexivity|].
  cbn [trimEnd]. destruct (trimEnd s) as [|d t] eqn:Hs.
  - destruct (isWhiteSpace c) eqn:Hc; [reflexivity|].
    cbn [trimEnd]. rewrite Hc. reflexivity.
  - cbn [trimEnd] in *. rewrite IH. reflexivity.
Qed.

Lemma trimEnd_head (c : ascii) (s : string) :
  isWhiteSpace c = false -> exists t, trimEnd (String c s) = String c t.
Proof.
  intros Hc. cbn [trimEnd]. destruct (trimEnd s) as [|d t].
  - rewrite Hc. eexists; reflexivity.
  - eexists; reflexivity.
Qed.

Lemma trimStart_head (s : string) :
  trimStart s = EmptyString \/
  exists c t, trimStart s = String c t /\ isWhiteSpace c = false.
Proof.
  induction s as [|c s IH]; [left; reflexivity|].
  cbn [trimStart]. destruct (isWhiteSpace c) eqn:Hc; [exact IH|].
  right. exists c, s. split; [reflexivity|exact Hc].
Qed.

Lemma trim_idempotent (s : string) : trim (trim s) = trim s.
Proof.
  unfold trim. destruct (trimStart_head s) as [->|(c & t & -> & Hc)]; [reflexivity|].
  destruct (trimEnd_head c t Hc) as [u Hu].
  rewrite Hu. cbn [trimStart]. rewrite Hc, <- Hu. apply trimEnd_idempotent.
Qed.

Lemma ofString_trim (s : string) : ofString (trim s) = ofString s.
Proof. unfold ofString. rewrite trim_idempotent. reflexivity. Qed.

(** A token without a dash is a single part. *)
Lemma split_no_separator (sep : ascii) (t : string) :
  (forall c, c ∈ list_ascii_of_string t -> c ≠ sep) ->
  split sep t = [t].
Proof.
  induction t as [|c t IH]; intros Hno; [reflexivity|].
  cbn. destruct (Ascii.eqb_spec c sep) as [->|Hne].
  - exfalso. apply (Hno sep); [|reflexivity]. cbn. left.
  - rewrite IH; [reflexivity|].
    intros c' Hc'. apply Hno. cbn. right. exact Hc'.
Qed.

(** The token of a single number [N] becomes the interval [[N, N]], and a
    token that is no number is rejected. *)
Lemma parseToken_single (token : string) :
  (forall c, c ∈ list_ascii_of_string token -> c ≠ "-"%char) ->
  parseToken token =
  if isNaN (ofString token) then None
  else Some {| min := ofString token; max := ofString token |}.
Proof.
  intros Hno. unfold parseToken. rewrite (split_no_separator _ _ Hno). cbn.
  rewrite ofString_trim. destruct (isNaN (ofString token)); reflexivity.
Qed.

(** A token [A-B] becomes [[A, B]] when both sides are numbers, whatever
    their order, and is rejected when a side is no number. *)
Lemma parseToken_pair (a b : string) :
  (forall c, c ∈ list_ascii_of_string a -> c ≠ "-"%char) ->
  (forall c, c ∈ list_ascii_of_string b -> c ≠ "-"%char) ->
  parseToken (a +:+ String "-" b) =
  if isNaN (ofString a) || isNaN (ofString b) then None
  else Some {| min := ofString a; max := ofString b |}.
Proof.
  intros Ha Hb. unfold parseToken.
  assert (Hsplit : split "-" (a +:+ String "-" b) = [a; b]).
  { induction a as [|c a IH].
    - change (split "-" (String "-" b) = [EmptyString; b]).
      change (EmptyString :: split "-" b = [EmptyString; b]).
      rewrite (split_no_separator _ _ Hb). reflexivity.
    - change (split "-" (String c (a +:+ String "-" b)) = [String c a; b]).
      cbn [split]. destruct (Ascii.eqb_spec c "-") as [->|Hne].
      + exfalso. apply (Ha "-"%char); [|reflexivity]. cbn. left.
      + rewrite IH; [reflexivity|].
        intros c' Hc'. apply Ha. cbn. right. exact Hc'. }
  rewrite Hsplit. cbn. rewrite !ofString_trim. reflexivity.
Qed.

(** A token that ends in a dash has the empty text as its second part, and
    [Number('')] is [+0], not NaN: the token is kept, with [max = 0]. *)
Lemma parseToken_dangling_dash (a : string) :
  (forall c, c ∈ list_ascii_of_string a -> c ≠ "-"%char) ->
  isNaN (ofString a) = false ->
  parseToken (a +:+ "-") = Some {| min := ofString a; max := S754_zero false |}.
Proof.
  intros Ha Hnum. rewrite parseToken_pair.
  - rewrite Hnum. reflexivity.
  - exact Ha.
  - intros c Hc. cbn in Hc. inversion Hc.
Qed.

(** The examples of the specification that the code meets. *)
Lemma parseRanges_examples :
  parseRanges (Some "5-10, 20") =
    [ {| min := ofZ 5; max := ofZ 10 |}; {| min := ofZ 20; max := ofZ 20 |} ]
  /\ parseRanges (Some "") = []
  /\ parseRanges None = []
  /\ parseRanges (Some "10-5") = [ {| min := ofZ 10; max := ofZ 5 |} ].
Proof. repeat split; vm_compute; reflexivity. Qed.

(** C3, at the input ["abc,3-"]: the token [abc] is dropped, but the token
    [3-] is kept as the interval from 3 to 0, so the result is not the empty
    list of "only parseable tokens".  The same happens on the other side of
    the dash: [-5] is kept as the interval from 0 to 5. *)
Theorem parseRanges_abc_dangling_dash :
  parseRanges (Some "abc,3-") = [ {| min := ofZ 3; max := S754_zero false |} ]
  /\ parseRanges (Some "abc,3-") <> []
  /\ parseRanges (Some "-5") = [ {| min := S754_zero false; max := ofZ 5 |} ].
Proof.
  split; [vm_compute; reflexivity|].
  split; [vm_compute; discriminate|vm_compute; reflexivity].
Qed.

(** *** The comparisons order the exact values *)

Lemma digits2_pos_bounds (m : positive) :
  2 ^ (Zpos (digits2_pos m) - 1) <= Zpos m < 2 ^ Zpos (digits2_pos m).
Proof.
  induction m as [m IH|m IH|]; cbn [digits2_pos].
  - rewrite Pos2Z.inj_succ.
    replace (Z.succ (Zpos (digits2_pos m)) - 1) with (Z.succ (Zpos (digits2_pos m) - 1)) by lia.
    rewrite !Z.pow_succ_r by lia. lia.
  - rewrite Pos2Z.inj_succ.
    replace (Z.succ (Zpos (digits2_pos m)) - 1) with (Z.succ (Zpos (digits2_pos m) - 1)) by lia.
    rewrite !Z.pow_succ_r by lia. lia.
  - cbn. lia.
Qed.

(** A canonical mantissa is below [2^53], its exponent is at least -1074,
    and above that exponent the mantissa is at least [2^52]. *)
Lemma valid_finite (s : bool) (m : positive) (e : Z) :
  valid (S754_finite s m e) = true ->
  -1074 <= e /\ Zpos m < 2 ^ 53 /\ (-1074 < e -> 2 ^ 52 <= Zpos m).
Proof.
  unfold valid, valid_binary, bounded, canonical_mantissa, fexp, emin, prec, emax.
  intros Hv. apply andb_prop in Hv as [Hc _]. apply Z.eqb_eq in Hc.
  pose proof (digits2_pos_bounds m) as [Hlo Hhi].
  set (d := Zpos (digits2_pos m)) in *.
  assert (Hd : 0 < d) by (unfold d; lia).
  assert (Hcases : (d = 53 /\ -1074 <= e) \/ (d < 53 /\ e = -1074)) by lia.
  destruct Hcases as [[Hd53 He]|[Hdlt He]].
  - rewrite Hd53 in *. split; [lia|]. split; [exact Hhi|]. intros _. exact Hlo.
  - split; [lia|]. split; [|lia].
    apply (Z.lt_le_trans _ (2 ^ d)); [exact Hhi|].
    apply Z.pow_le_mono_r; lia.
Qed.

Lemma scaled_lt (m1 m2 a b : Z) :
  m1 < 9007199254740992 -> 4503599627370496 <= m2 -> 0 < a -> 0 < b ->
  m1 * a < m2 * (a * 2 * b).
Proof.
  intros H1 H2 Ha Hb.
  assert (S1 : m1 * a < 9007199254740992 * a) by (apply Z.mul_lt_mono_pos_r; lia).
  assert (S2 : 9007199254740992 * a <= (2 * m2) * a) by (apply Z.mul_le_mono_nonneg_r; lia).
  assert (S3 : (2 * m2) * a * 1 <= (2 * m2) * a * b).
  { apply Z.mul_le_mono_nonneg_l; [|lia]. apply Z.mul_nonneg_nonneg; lia. }
  replace (m2 * (a * 2 * b)) with ((2 * m2) * a * b) by ring. lia.
Qed.

(** The order of two canonical positive values is the order of their
    exponents, then of their mantissas. *)
Lemma compare_positive_units (m1 m2 : positive) (e1 e2 : Z) :
  valid (S754_finite false m1 e1) = true ->
  valid (S754_finite false m2 e2) = true ->
  match Z.compare e1 e2 with
  | Lt => Lt
  | Gt => Gt
  | Eq => Pos.compare_cont Eq m1 m2
  end = Z.compare (Zpos m1 * 2 ^ (e1 + 1074)) (Zpos m2 * 2 ^ (e2 + 1074)).
Proof.
  intros H1 H2.
  apply valid_finite in H1 as (He1 & Hm1 & Hn1).
  apply valid_finite in H2 as (He2 & Hm2 & Hn2).
  change (2 ^ 53) with 9007199254740992 in *.
  change (2 ^ 52) with 4503599627370496 in *.
  destruct (Z.compare_spec e1 e2) as [Heq|Hlt|Hgt].
  - subst e2. change (Pos.compare_cont Eq m1 m2) with (Zpos m1 ?= Zpos m2).
    assert (Hp : 0 < 2 ^ (e1 + 1074)) by (apply Z.pow_pos_nonneg; lia).
    destruct (Z.compare_spec (Zpos m1) (Zpos m2)) as [Hm|Hm|Hm]; symmetry.
    + rewrite Hm. apply Z.compare_refl.
    + apply Z.compare_lt_iff. nia.
    + apply Z.compare_gt_iff. nia.
  - symmetry. apply Z.compare_lt_iff.
    replace (e2 + 1074) with ((e1 + 1074) + 1 + (e2 - e1 - 1)) by lia.
    rewrite (Z.pow_add_r 2 (e1 + 1074 + 1) (e2 - e1 - 1)) by lia.
    rewrite (Z.pow_add_r 2 (e1 + 1074) 1) by lia. change (2 ^ 1) with 2.
    assert (Ha : 0 < 2 ^ (e1 + 1074)) by (apply Z.pow_pos_nonneg; lia).
    assert (Hb : 0 < 2 ^ (e2 - e1 - 1)) by (apply Z.pow_pos_nonneg; lia).
    specialize (Hn2 ltac:(lia)).
    apply (scaled_lt (Zpos m1) (Zpos m2) _ _ Hm1 Hn2 Ha Hb).
  - symmetry. apply Z.compare_gt_iff.
    replace (e1 + 1074) with ((e2 + 1074) + 1 + (e1 - e2 - 1)) by lia.
    rewrite (Z.pow_add_r 2 (e2 + 1074 + 1) (e1 - e2 - 1)) by lia.
    rewrite (Z.pow_add_r 2 (e2 + 1074) 1) by lia. change (2 ^ 1) with 2.
    assert (Ha : 0 < 2 ^ (e2 + 1074)) by (apply Z.pow_pos_nonneg; lia).
    assert (Hb : 0 < 2 ^ (e1 - e2 - 1)) by (apply Z.pow_pos_nonneg; lia).
    specialize (Hn1 ltac:(lia)).
    apply (scaled_lt (Zpos m2) (Zpos m1) _ _ Hm2 Hn1 Ha Hb).
Qed.

(** On well-formed zero or finite numbers, [SFcompare] is the comparison of
    the exact values. *)
Lemma compare_units (x y : number) (ux uy : Z) :
  valid x = true -> valid y = true ->
  units x = Some ux -> units y = Some uy ->
  SFcompare x y = Some (Z.compare ux uy).
Proof.
  intros Hx Hy.
  destruct x as [sx| | |sx mx ex]; try discriminate;
    destruct y as [sy| | |sy my ey]; try discriminate;
    cbn [units]; intros [= <-] [= <-].
  - reflexivity.
  - cbn [SFcompare]. apply valid_finite in Hy as (He & _ & _).
    assert (Hp : 0 < 2 ^ (ey + 1074)) by (apply Z.pow_pos_nonneg; lia).
    f_equal. symmetry. destruct sy.
    + apply Z.compare_gt_iff. nia.
    + apply Z.compare_lt_iff. nia.
  - cbn [SFcompare]. apply valid_finite in Hx as (He & _ & _).
    assert (Hp : 0 < 2 ^ (ex + 1074)) by (apply Z.pow_pos_nonneg; lia).
    f_equal. symmetry. destruct sx.
    + apply Z.compare_lt_iff. nia.
    + apply Z.compare_gt_iff. nia.
  - cbn [SFcompare]. f_equal.
    assert (Hx' : valid (S754_finite false mx ex) = true) by exact Hx.
    assert (Hy' : valid (S754_finite false my ey) = true) by exact Hy.
    pose proof (compare_positive_units mx my ex ey Hx' Hy') as Hcmp.
    pose proof (valid_finite _ _ _ Hx) as (Hex & _ & _).
    pose proof (valid_finite _ _ _ Hy) as (Hey & _ & _).
    assert (Hpx : 0 < Zpos mx * 2 ^ (ex + 1074)).
    { apply Z.mul_pos_pos; [lia|apply Z.pow_pos_nonneg; lia]. }
    assert (Hpy : 0 < Zpos my * 2 ^ (ey + 1074)).
    { apply Z.mul_pos_pos; [lia|apply Z.pow_pos_nonneg; lia]. }
    destruct sx, sy.
    + replace (-1 * (Zpos mx * 2 ^ (ex + 1074))) with (- (Zpos mx * 2 ^ (ex + 1074))) by lia.
      replace (-1 * (Zpos my * 2 ^ (ey + 1074))) with (- (Zpos my * 2 ^ (ey + 1074))) by lia.
      rewrite Z.compare_opp, (Z.compare_antisym (Zpos mx * 2 ^ (ex + 1074))), <- Hcmp.
      destruct (ex ?= ey); reflexivity.
    + symmetry. apply Z.compare_lt_iff. lia.
    + symmetry. apply Z.compare_gt_iff. lia.
    + rewrite !Z.mul_1_l. exact Hcmp.
Qed.

(** On well-formed numbers other than NaN, [SFcompare] is the order of the
    extended line. *)
Lemma compare_value (x y : number) (vx vy : Value) :
  valid x = true -> valid y = true ->
  value x = Some vx -> value y = Some vy ->
  SFcompare x y = Some (compareValue vx vy).
Proof.
  intros Hx Hy Hvx Hvy.
  destruct x as [sx|sx| |sx mx ex] eqn:Ex; try discriminate;
    destruct y as [sy|sy| |sy my ey] eqn:Ey; try discriminate;
    try (injection Hvx as <-; injection Hvy as <-;
         try destruct sx; try destruct sy; reflexivity);
    cbn [value option_map] in Hvx, Hvy;
    injection Hvx as <-; injection Hvy as <-;
    refine (compare_units _ _ _ _ Hx Hy _ _); reflexivity.
Qed.

Lemma compareValue_antisym (a b : Value) :
  compareValue b a = CompOpp (compareValue a b).
Proof. destruct a, b; try reflexivity. apply Z.compare_antisym. Qed.

(** [<=] on well-formed numbers other than NaN is [<=] on the values. *)
Lemma le_value (x y : number) (vx vy : Value) :
  valid x = true -> valid y = true ->
  value x = Some vx -> value y = Some vy ->
  le x y = true <-> leValue vx vy.
Proof.
  intros Hx Hy Hvx Hvy. unfold le, leValue.
  rewrite (compare_value y x vy vx Hy Hx Hvy Hvx), compareValue_antisym.
  destruct (compareValue vx vy); cbn; split; intros; congruence.
Qed.

(** A comparison with NaN is false. *)
Lemma le_NaN (x : number) : le NaN x = false /\ le x NaN = false.
Proof. unfold le, NaN. destruct x; split; reflexivity. Qed.

(** [x >= m] and [m <= x] are the same test. *)
Lemma ge_le (x m : number) : ge x m = le m x.
Proof. reflexivity. Qed.

(** On numbers with a value the test of one range is [within]. *)
Lemma inRange_within (x : number) (r : Range) :
  exact x -> exact (min r) -> exact (max r) ->
  le (min r) x && le x (max r) = true <-> within x r.
Proof.
  intros [Hvx [ux Hux]] [Hvlo [lo Hlo]] [Hvhi [hi Hhi]].
  unfold within. rewrite Hux, Hlo, Hhi.
  rewrite andb_true_iff.
  rewrite (le_value _ _ _ _ Hvlo Hvx Hlo Hux), (le_value _ _ _ _ Hvx Hvhi Hux Hhi).
  reflexivity.
Qed.

(** The matcher answers true exactly when some range of the list passes
    both comparisons. *)
Lemma amountMatchesRanges_le (x : number) (rs : list Range) :
  amountMatchesRanges x rs = true <->
  exists r, r ∈ rs /\ le (min r) x = true /\ le x (max r) = true.
Proof.
  induction rs as [|r rs IH].
  - split; [discriminate|]. intros (r & Hr & _). inversion Hr.
  - cbn [amountMatchesRanges]. rewrite ge_le.
    destruct (le (min r) x && le x (max r)) eqn:Hin.
    + split; [intros _|reflexivity].
      apply andb_prop in Hin as [H1 H2].
      exists r. split; [left|split; assumption].
    + rewrite IH. split.
      * intros (r' & Hr' & H1 & H2). exists r'. split; [right; exact Hr'|split; assumption].
      * intros (r' & Hr' & H1 & H2). inversion Hr'; subst.
        -- rewrite H1, H2 in Hin. discriminate.
        -- exists r'. split; [assumption|split; assumption].
Qed.

(** On numbers with a value, the matcher answers true exactly when the
    value of the amount lies within some range of the list. *)
Lemma amountMatchesRanges_within (x : number) (rs : list Range) :
  exact x ->
  Forall (fun r => exact (min r) /\ exact (max r)) rs ->
  amountMatchesRanges x rs = true <-> exists r, r ∈ rs /\ within x r.
Proof.
  intros Hx Hrs. rewrite amountMatchesRanges_le. rewrite Forall_forall in Hrs.
  split; intros (r & Hr & Hin); exists r; (split; [exact Hr|]);
    destruct (Hrs r Hr) as [Hlo Hhi].
  - apply (inRange_within x r Hx Hlo Hhi). apply andb_true_iff. exact Hin.
  - apply andb_true_iff. apply (inRange_within x r Hx Hlo Hhi). exact Hin.
Qed.

(** C8: the matcher answers true exactly when the amount lies in
    [[min, max]], bounds included, for some range of the list, both under
    the comparisons of the language and, for well-formed numbers other
    than NaN, as an inequality between their values; 7 matches [[5, 10]],
    11 does not, and the empty list matches nothing. *)
Theorem amountMatchesRanges_iff :
  (forall (x : number) (rs : list Range),
      amountMatchesRanges x rs = true <->
      exists r, r ∈ rs /\ le (min r) x = true /\ le x (max r) = true)
  /\ (forall (x : number) (rs : list Range),
        exact x ->
        Forall (fun r => exact (min r) /\ exact (max r)) rs ->
        (amountMatchesRanges x rs = true <-> exists r, r ∈ rs /\ within x r))
  /\ amountMatchesRanges (ofZ 7) [ {| min := ofZ 5; max := ofZ 10 |} ] = true
  /\ amountMatchesRanges (ofZ 11) [ {| min := ofZ 5; max := ofZ 10 |} ] = false
  /\ (forall x : number, amountMatchesRanges x [] = false).
Proof.
  split; [exact amountMatchesRanges_le|].
  split; [exact amountMatchesRanges_within|].
  repeat split; vm_compute; reflexivity.
Qed.

(** [amountMatchesRanges_iff] at the amount 7 and the range from 5 to 10:
    the exact values, in units of [2^-1074], satisfy [5 <= 7 <= 10]. *)
Lemma amountMatchesRanges_iff_witness :
  amountMatchesRanges (ofZ 7) [ {| min := ofZ 5; max := ofZ 10 |} ] = true.
Proof.
  apply (proj1 (proj2 amountMatchesRanges_iff) (ofZ 7) [ {| min := ofZ 5; max := ofZ 10 |} ]).
  - split; [vm_compute; reflexivity|eexists; vm_compute; reflexivity].
  - apply Forall_cons. split; [|apply Forall_nil; exact I].
    split; (split; [vm_compute; reflexivity|eexists; vm_compute; reflexivity]).
  - exists {| min := ofZ 5; max := ofZ 10 |}. split; [left|].
    unfold within. vm_compute. split; discriminate.
Defined.

(** *** The numbers the program produces are well formed *)

(** The number of binary digits of a non-negative integer. *)
Lemma Zdigits2_bounds (m : Z) :
  0 < m -> 0 < Zdigits2 m /\ 2 ^ (Zdigits2 m - 1) <= m < 2 ^ Zdigits2 m.
Proof.
  destruct m as [|p|p]; try lia. intros _. cbn [Zdigits2].
  split; [lia|apply digits2_pos_bounds].
Qed.

Lemma Zdigits2_nonneg (m : Z) : 0 <= Zdigits2 m.
Proof. destruct m; cbn; lia. Qed.

Lemma Zdigits2_unique (m d : Z) :
  2 ^ (d - 1) <= m < 2 ^ d -> 0 < d -> Zdigits2 m = d.
Proof.
  intros [Hlo Hhi] Hd.
  assert (Hm : 0 < m).
  { apply (Z.lt_le_trans _ (2 ^ (d - 1))); [apply Z.pow_pos_nonneg; lia|exact Hlo]. }
  destruct (Zdigits2_bounds m Hm) as (Hpos & Hlo' & Hhi').
  set (d' := Zdigits2 m) in *.
  destruct (Z.lt_trichotomy d d') as [Hlt|[Heq|Hgt]]; [|congruence|].
  - exfalso. assert (2 ^ d <= 2 ^ (d' - 1)) by (apply Z.pow_le_mono_r; lia). lia.
  - exfalso. assert (2 ^ d' <= 2 ^ (d - 1)) by (apply Z.pow_le_mono_r; lia). lia.
Qed.

(** A lower bound on the digits. *)
Lemma Zdigits2_ge (m k : Z) : 2 ^ (k - 1) <= m -> 0 < k -> k <= Zdigits2 m.
Proof.
  intros Hlo Hk.
  assert (Hm : 0 < m).
  { apply (Z.lt_le_trans _ (2 ^ (k - 1))); [apply Z.pow_pos_nonneg; lia|exact Hlo]. }
  destruct (Zdigits2_bounds m Hm) as (Hpos & _ & Hhi).
  destruct (Z.le_gt_cases k (Zdigits2 m)) as [H|H]; [exact H|exfalso].
  assert (2 ^ Zdigits2 m <= 2 ^ (k - 1)) by (apply Z.pow_le_mono_r; lia). lia.
Qed.

(** Digits after a right shift. *)
Lemma Zdigits2_shiftr (m n : Z) :
  0 < m -> 0 <= n -> n < Zdigits2 m ->
  0 < m / 2 ^ n /\ Zdigits2 (m / 2 ^ n) = Zdigits2 m - n.
Proof.
  intros Hm Hn Hlt.
  destruct (Zdigits2_bounds m Hm) as (Hpos & Hlo & Hhi).
  set (d := Zdigits2 m) in *.
  assert (Hp : 0 < 2 ^ n) by (apply Z.pow_pos_nonneg; lia).
  assert (Hlo' : 2 ^ (d - n - 1) <= m / 2 ^ n).
  { apply Z.div_le_lower_bound; [exact Hp|].
    rewrite <- Z.pow_add_r by lia. replace (n + (d - n - 1)) with (d - 1) by lia. exact Hlo. }
  assert (Hhi' : m / 2 ^ n < 2 ^ (d - n)).
  { apply Z.div_lt_upper_bound; [exact Hp|].
    rewrite <- Z.pow_add_r by lia. replace (n + (d - n)) with d by lia. exact Hhi. }
  split.
  - apply (Z.lt_le_trans _ (2 ^ (d - n - 1))); [apply Z.pow_pos_nonneg; lia|exact Hlo'].
  - apply Zdigits2_unique; [|lia]. split; [|exact Hhi'].
    replace (d - n - 1) with (d - n - 1) by lia. exact Hlo'.
Qed.

Lemma shiftr_zero (m n : Z) :
  0 <= m -> 0 <= n -> Zdigits2 m <= n -> m / 2 ^ n = 0.
Proof.
  intros Hm Hn Hle. destruct (Z.eq_dec m 0) as [->|Hne]; [apply Z.div_0_l; 
    apply Z.pow_nonzero; lia|].
  destruct (Zdigits2_bounds m ltac:(lia)) as (Hpos & _ & Hhi).
  apply Z.div_small. split; [lia|].
  apply (Z.lt_le_trans _ _ _ Hhi). apply Z.pow_le_mono_r; lia.
Qed.

(** One shift of the rounding record halves the mantissa. *)
Lemma shr_1_m (mrs : shr_record) :
  0 <= shr_m mrs -> shr_m (shr_1 mrs) = shr_m mrs / 2.
Proof.
  destruct mrs as [m r s]. cbn [shr_m shr_1]. intros Hm.
  destruct m as [|[p|p|]|p]; cbn [shr_m]; try lia.
  - reflexivity.
  - rewrite Pos2Z.inj_xI. apply (Z.div_unique _ 2 _ 1); lia.
  - rewrite Pos2Z.inj_xO. apply (Z.div_unique _ 2 _ 0); lia.
  - reflexivity.
Qed.

Lemma iter_shr_1_m (p : positive) (mrs : shr_record) :
  0 <= shr_m mrs -> shr_m (SpecFloat.iter_pos shr_1 p mrs) = shr_m mrs / 2 ^ Zpos p.
Proof.
  revert mrs. induction p as [p IH|p IH|]; intros mrs Hm; cbn [SpecFloat.iter_pos].
  - assert (H1 : 0 <= shr_m (shr_1 mrs)).
    { rewrite shr_1_m by exact Hm. apply Z.div_pos; lia. }
    assert (H2 : 0 <= shr_m (SpecFloat.iter_pos shr_1 p (shr_1 mrs))).
    { rewrite IH by exact H1. apply Z.div_pos; [exact H1|apply Z.pow_pos_nonneg; lia]. }
    rewrite IH by exact H2. rewrite IH by exact H1. rewrite shr_1_m by exact Hm.
    assert (Hpow : 2 ^ Zpos p~1 = 2 * (2 ^ Zpos p * 2 ^ Zpos p)).
    { rewrite <- Z.pow_add_r, <- Z.pow_succ_r by lia. f_equal. lia. }
    assert (Hp : 0 < 2 ^ Zpos p) by (apply Z.pow_pos_nonneg; lia).
    rewrite !Z.div_div by lia. rewrite Hpow. reflexivity.
  - assert (H2 : 0 <= shr_m (SpecFloat.iter_pos shr_1 p mrs)).
    { rewrite IH by exact Hm. apply Z.div_pos; [exact Hm|apply Z.pow_pos_nonneg; lia]. }
    rewrite IH by exact H2. rewrite IH by exact Hm.
    assert (Hpow : 2 ^ Zpos p~0 = 2 ^ Zpos p * 2 ^ Zpos p).
    { rewrite <- Z.pow_add_r by lia. f_equal. lia. }
    assert (Hp : 0 < 2 ^ Zpos p) by (apply Z.pow_pos_nonneg; lia).
    rewrite !Z.div_div by lia. rewrite Hpow. reflexivity.
  - rewrite shr_1_m by exact Hm. reflexivity.
Qed.

(** [shr_fexp] moves the exponent to [fexp] and divides the mantissa. *)
Lemma shr_fexp_m (m e : Z) (l : location) :
  0 <= m -> e <= fexp prec emax (Zdigits2 m + e) ->
  snd (shr_fexp prec emax m e l) = fexp prec emax (Zdigits2 m + e)
  /\ shr_m (fst (shr_fexp prec emax m e l)) =
     m / 2 ^ (fexp prec emax (Zdigits2 m + e) - e).
Proof.
  intros Hm Hle. unfold shr_fexp, shr.
  set (n := fexp prec emax (Zdigits2 m + e) - e).
  assert (Hrec : shr_m (shr_record_of_loc m l) = m).
  { destruct l as [|[| |]]; reflexivity. }
  destruct n as [|p|p] eqn:Hn; cbn [fst snd].
  - split; [lia|]. rewrite Hrec. cbn. rewrite Z.div_1_r. reflexivity.
  - split; [lia|]. rewrite iter_shr_1_m by (rewrite Hrec; exact Hm).
    rewrite Hrec. reflexivity.
  - lia.
Qed.

Lemma round_nearest_even_cases (m : Z) (l : location) :
  round_nearest_even m l = m \/ round_nearest_even m l = m + 1.
Proof.
  destruct l as [|[| |]]; cbn; try (left; reflexivity); try (right; reflexivity).
  destruct (Z.even m); [left|right]; reflexivity.
Qed.

Lemma fexp_mono (a b : Z) : a <= b -> fexp prec emax a <= fexp prec emax b.
Proof. unfold fexp, emin, prec, emax. lia. Qed.

(** The rounding step yields a well-formed number. *)
Lemma binary_round_aux_valid (sx : bool) (mx ex : Z) (lx : location) :
  0 <= mx -> ex <= fexp prec emax (Zdigits2 mx + ex) ->
  valid_binary prec emax (binary_round_aux prec emax sx mx ex lx) = true
  /\ binary_round_aux prec emax sx mx ex lx <> S754_nan.
Proof.
  intros Hmx Hex. unfold binary_round_aux.
  destruct (shr_fexp_m mx ex lx Hmx Hex) as [He1 Hm1].
  destruct (shr_fexp prec emax mx ex lx) as [mrs1 e1]. cbn [fst snd] in He1, Hm1.
  set (r := round_nearest_even (shr_m mrs1) (loc_of_shr_record mrs1)).
  assert (Hm1pos : 0 <= shr_m mrs1).
  { rewrite Hm1. apply Z.div_pos; [exact Hmx|apply Z.pow_pos_nonneg; lia]. }
  assert (Hr : 0 <= r /\ shr_m mrs1 <= r).
  { unfold r. destruct (round_nearest_even_cases (shr_m mrs1) (loc_of_shr_record mrs1))
      as [->| ->]; lia. }
  assert (Hpre : e1 <= fexp prec emax (Zdigits2 r + e1)).
  { assert (Hemin : -1074 <= fexp prec emax (Zdigits2 r + e1))
      by (unfold fexp, emin, prec, emax; lia).
    destruct (Z.eq_dec e1 (-1074)) as [->|Hne]; [exact Hemin|].
    (* above the least exponent, the shifted mantissa has 53 digits *)
    assert (He1' : e1 = Zdigits2 mx + ex - 53).
    { clear - He1 Hne. unfold fexp, emin, prec, emax in He1. lia. }
    assert (Hmxpos : 0 < mx).
    { destruct (Z.eq_dec mx 0) as [Hz|]; [|lia]. exfalso.
      rewrite Hz in He1', Hex, He1. cbn [Zdigits2] in He1', Hex, He1. lia. }
    assert (Hsh : fexp prec emax (Zdigits2 mx + ex) - ex = Zdigits2 mx - 53).
    { rewrite <- He1. lia. }
    rewrite Hsh in Hm1.
    assert (Hd53 : 53 <= Zdigits2 mx) by lia.
    destruct (Zdigits2_shiftr mx (Zdigits2 mx - 53) Hmxpos ltac:(lia) ltac:(lia))
      as [Hq Hdq].
    rewrite <- Hm1 in Hq, Hdq.
    destruct (Zdigits2_bounds _ Hq) as (_ & Hlo & _). rewrite Hdq in Hlo.
    replace (Zdigits2 mx - (Zdigits2 mx - 53) - 1) with 52 in Hlo by lia.
    assert (Hdr : 53 <= Zdigits2 r) by (apply Zdigits2_ge; lia).
    unfold fexp, emin, prec, emax. lia. }
  destruct (shr_fexp_m r e1 loc_Exact (proj1 Hr) Hpre) as [He2 Hm2].
  destruct (shr_fexp prec emax r e1 loc_Exact) as [mrs2 e2]. cbn [fst snd] in He2, Hm2.
  assert (Hm2pos : 0 <= shr_m mrs2).
  { rewrite Hm2. apply Z.div_pos; [lia|apply Z.pow_pos_nonneg; lia]. }
  destruct (shr_m mrs2) as [|m2|m2] eqn:Hm; [split; [reflexivity|discriminate]| |lia].
  destruct (Z.leb_spec e2 (emax - prec)) as [Hb|Hb]; [|split; [reflexivity|discriminate]].
  split; [|discriminate].
  cbn [valid_binary]. unfold bounded, canonical_mantissa.
  apply andb_true_intro. split; [|apply Z.leb_le; exact Hb].
  apply Z.eqb_eq.
  (* the digits of the shifted mantissa *)
  set (sh := fexp prec emax (Zdigits2 r + e1) - e1) in *.
  assert (Hsh : 0 <= sh) by (unfold sh; lia).
  assert (Hrpos : 0 < r).
  { destruct (Z.eq_dec r 0) as [Hz|]; [|lia]. rewrite Hz in Hm2.
    rewrite Z.div_0_l in Hm2 by (apply Z.pow_nonzero; lia). lia. }
  assert (Hlt : sh < Zdigits2 r).
  { destruct (Z.lt_ge_cases sh (Zdigits2 r)) as [H|H]; [exact H|exfalso].
    rewrite (shiftr_zero r sh) in Hm2 by lia. lia. }
  destruct (Zdigits2_shiftr r sh Hrpos Hsh Hlt) as [_ Hd].
  rewrite <- Hm2 in Hd. cbn [Zdigits2] in Hd. rewrite Hd.
  replace (Zdigits2 r - sh + e2) with (Zdigits2 r + e1) by (unfold sh; lia).
  lia.
Qed.

Lemma digits2_pos_iter_xO (m d : positive) :
  Zpos (digits2_pos (Pos.iter xO m d)) = Zpos (digits2_pos m) + Zpos d.
Proof.
  induction d as [|d IH] using Pos.peano_ind.
  - cbn [Pos.iter digits2_pos]. lia.
  - rewrite Pos.iter_succ. cbn [digits2_pos]. rewrite Pos2Z.inj_succ, IH. lia.
Qed.

Lemma binary_round_valid (sx : bool) (mx : positive) (ex : Z) :
  valid_binary prec emax (binary_round prec emax sx mx ex) = true
  /\ binary_round prec emax sx mx ex <> S754_nan.
Proof.
  unfold binary_round, shl_align.
  destruct (fexp prec emax (Zpos (digits2_pos mx) + ex) - ex) as [|d|d] eqn:Hd.
  - apply binary_round_aux_valid; [lia|]. cbn [Zdigits2]. lia.
  - apply binary_round_aux_valid; [lia|]. cbn [Zdigits2]. lia.
  - apply binary_round_aux_valid; [lia|]. cbn [Zdigits2].
    rewrite digits2_pos_iter_xO.
    replace (Zpos (digits2_pos mx) + Zpos d + fexp prec emax (Zpos (digits2_pos mx) + ex))
      with (Zpos (digits2_pos mx) + ex) by lia.
    lia.
Qed.

Lemma binary_normalize_valid (m e : Z) (szero : bool) :
  valid_binary prec emax (binary_normalize prec emax m e szero) = true
  /\ binary_normalize prec emax m e szero <> S754_nan.
Proof.
  destruct m; [split; [reflexivity|discriminate]|apply binary_round_valid..].
Qed.

(** The quotient computed by the division has enough digits. *)
Lemma SFdiv_core_binary_pre (m1 m2 : positive) (e1 e2 : Z) :
  let '(q, e', l) := SFdiv_core_binary prec emax (Zpos m1) e1 (Zpos m2) e2 in
  0 <= q /\ e' <= fexp prec emax (Zdigits2 q + e').
Proof.
  unfold SFdiv_core_binary.
  set (d1 := Zdigits2 (Zpos m1)). set (d2 := Zdigits2 (Zpos m2)).
  set (X := d1 + e1 - (d2 + e2)).
  set (e' := Z.min (fexp prec emax X) (e1 - e2)).
  set (s := e1 - e2 - e').
  assert (Hs : 0 <= s) by (unfold s, e'; lia).
  set (m' := match s with Zpos _ => Z.shiftl (Zpos m1) s | Z0 => Zpos m1 | Zneg _ => 0 end).
  assert (Hm' : m' = Zpos m1 * 2 ^ s).
  { unfold m'. destruct s as [|p|p] eqn:Hsp; [cbn; lia| |lia].
    rewrite Z.shiftl_mul_pow2 by lia. reflexivity. }
  destruct (Z.div_eucl m' (Zpos m2)) as [q r] eqn:Hdiv.
  assert (Hq : q = m' / Zpos m2).
  { unfold Z.div. rewrite Hdiv. reflexivity. }
  destruct (Zdigits2_bounds (Zpos m1) ltac:(lia)) as (Hd1 & Hlo1 & _).
  destruct (Zdigits2_bounds (Zpos m2) ltac:(lia)) as (Hd2 & _ & Hhi2).
  fold d1 in Hd1, Hlo1. fold d2 in Hd2, Hhi2.
  assert (Hps : 0 < 2 ^ s) by (apply Z.pow_pos_nonneg; lia).
  assert (Hqpos : 0 <= q).
  { rewrite Hq, Hm'. apply Z.div_pos; [|lia]. apply Z.mul_nonneg_nonneg; lia. }
  split; [exact Hqpos|].
  apply (Z.le_trans _ (fexp prec emax X)); [unfold e'; lia|].
  apply fexp_mono.
  (* digits q >= d1 - d2 + s *)
  destruct (Z.le_gt_cases (d1 - d2 + s) 0) as [Hsmall|Hbig].
  { pose proof (Zdigits2_nonneg q). unfold X, s in *. lia. }
  assert (Hdq : d1 - d2 + s <= Zdigits2 q).
  { apply Zdigits2_ge; [|lia].
    rewrite Hq, Hm'. apply Z.div_le_lower_bound; [lia|].
    apply (Z.le_trans _ (2 ^ d2 * 2 ^ (d1 - d2 + s - 1))).
    - apply Z.mul_le_mono_nonneg_r; [apply Z.pow_nonneg; lia|lia].
    - rewrite <- Z.pow_add_r by lia.
      replace (d2 + (d1 - d2 + s - 1)) with ((d1 - 1) + s) by lia.
      rewrite Z.pow_add_r by lia.
      apply Z.mul_le_mono_nonneg_r; [lia|exact Hlo1]. }
  unfold X, s in *. lia.
Qed.

Lemma SFdiv_valid (x y : spec_float) :
  valid_binary prec emax (SFdiv prec emax x y) = true.
Proof.
  destruct x as [sx|sx| |sx mx ex]; destruct y as [sy|sy| |sy my ey]; try reflexivity.
  cbn [SFdiv].
  pose proof (SFdiv_core_binary_pre mx my ex ey) as Hpre.
  destruct (SFdiv_core_binary prec emax (Zpos mx) ex (Zpos my) ey) as [[q e'] l].
  destruct Hpre as [Hq He]. apply binary_round_aux_valid; assumption.
Qed.

(** A number divided by a finite, non-zero number is NaN only if it is
    NaN. *)
Lemma SFdiv_finite_not_nan (x : spec_float) (sy : bool) (my : positive) (ey : Z) :
  x <> S754_nan -> SFdiv prec emax x (S754_finite sy my ey) <> S754_nan.
Proof.
  destruct x as [sx|sx| |sx mx ex]; try discriminate; [congruence|].
  intros _. cbn [SFdiv].
  pose proof (SFdiv_core_binary_pre mx my ex ey) as Hpre.
  destruct (SFdiv_core_binary prec emax (Zpos mx) ex (Zpos my) ey) as [[q e'] l].
  destruct Hpre as [Hq He]. apply binary_round_aux_valid; assumption.
Qed.

(** A number other than NaN has a value. *)
Lemma value_is_Some (x : number) : x <> NaN -> is_Some (value x).
Proof.
  unfold NaN. destruct x; try (eexists; reflexivity).
  intros H. exfalso. apply H. reflexivity.
Qed.

Lemma isNaN_false (x : number) : isNaN x = false <-> x <> NaN.
Proof.
  unfold NaN. destruct x; cbn; split; intros H; try discriminate; try reflexivity.
  exfalso. apply H. reflexivity.
Qed.

(** [Number(n)] of an integer is well formed and is not NaN. *)
Lemma ofZ_exact (z : Z) : exact (ofZ z).
Proof.
  destruct (binary_normalize_valid z 0 false) as [Hv Hn].
  split; [exact Hv|apply value_is_Some; exact Hn].
Qed.

(** A quotient is well formed. *)
Lemma div_valid (x y : number) : valid (div x y) = true.
Proof. apply SFdiv_valid. Qed.

(** The value of a decimal literal is well formed. *)
Lemma ofDecimal_valid (neg : bool) (m e : Z) : valid (ofDecimal neg m e) = true.
Proof.
  unfold ofDecimal. destruct m as [|p|p]; try reflexivity.
  destruct (Z.leb_spec 0 e) as [He|He].
  - destruct (Zpos p * 10 ^ e) as [|q|q]; try reflexivity.
    apply binary_round_valid.
  - assert (Hpos : 0 < 10 ^ (- e)) by (apply Z.pow_pos_nonneg; lia).
    destruct (10 ^ (- e)) as [|d|d] eqn:Hd; try lia.
    pose proof (SFdiv_core_binary_pre p d 0 0) as Hpre.
    destruct (SFdiv_core_binary prec emax (Zpos p) 0 (Zpos d) 0) as [[q e'] l].
    destruct Hpre as [Hq Hle]. apply binary_round_aux_valid; assumption.
Qed.

Lemma parseNonDecimal_valid (s : string) (x : number) :
  parseNonDecimal s = Some x -> valid x = true.
Proof.
  unfold parseNonDecimal. intros H.
  repeat match type of H with
         | context [match ?t with _ => _ end] => destruct t; try discriminate
         end;
    injection H as <-; apply binary_normalize_valid.
Qed.

Lemma parseDecimal_valid (s : string) (x : number) :
  parseDecimal s = Some x -> valid x = true.
Proof.
  unfold parseDecimal. intros H.
  destruct (match s with
            | String "+" r => (false, r)
            | String "-" r => (true, r)
            | _ => (false, s)
            end) as [neg body].
  destruct (String.eqb body "Infinity"); [injection H as <-; reflexivity|].
  destruct (spanDigits 10 body) as [intDigits afterInt].
  destruct (match afterInt with
            | String "." r => spanDigits 10 r
            | _ => ([], afterInt)
            end) as [fracDigits afterFrac].
  destruct (intDigits ++ fracDigits); [discriminate|].
  destruct (parseExponent afterFrac); [|discriminate].
  injection H as <-. apply ofDecimal_valid.
Qed.

(** [Number(text)] is well formed, whatever the text. *)
Lemma ofString_valid (text : string) : valid (ofString text) = true.
Proof.
  unfold ofString. destruct (trim text) as [|c t]; [reflexivity|].
  destruct (parseNonDecimal (String c t)) as [x|] eqn:Hn;
    [exact (parseNonDecimal_valid _ _ Hn)|].
  destruct (parseDecimal (String c t)) as [x|] eqn:Hd;
    [exact (parseDecimal_valid _ _ Hd)|reflexivity].
Qed.

Lemma ofOptString_valid (v : option string) : valid (ofOptString v) = true.
Proof. destruct v; [apply ofString_valid|reflexivity]. Qed.

(** The bounds of a range that [parseRanges] keeps are well formed and are
    not NaN: each has a value. *)
Lemma parseToken_exact (token : string) (r : Range) :
  parseToken token = Some r -> exact (min r) /\ exact (max r).
Proof.
  unfold parseToken. cbv zeta.
  set (parts := map trim (split "-" token)).
  set (lo := ofOptString (parts !! 0%nat)).
  set (hi := match parts !! 1%nat with
             | Some b' => ofString b'
             | None => lo
             end).
  destruct (isNaN lo || isNaN hi) eqn:Hnan; [discriminate|].
  intros [= <-]. cbn [min max].
  apply orb_false_elim in Hnan as [Hlo Hhi].
  split; (split; [|apply value_is_Some, isNaN_false; assumption]).
  - apply ofOptString_valid.
  - unfold hi. destruct (parts !! 1%nat); [apply ofString_valid|apply ofOptString_valid].
Qed.

Lemma parseRanges_exact (rangeStr : option string) :
  Forall (fun r => exact (min r) /\ exact (max r)) (parseRanges rangeStr).
Proof.
  apply Forall_forall. intros r Hr.
  destruct rangeStr as [[|c t]|]; try (inversion Hr; fail).
  unfold parseRanges, filterNonNull in Hr.
  apply list_elem_of_omap in Hr as (o & Ho & Hid). cbn in Hid. subst o.
  apply list_elem_of_fmap in Ho as (token & Htok & _).
  exact (parseToken_exact token r (eq_sym Htok)).
Qed.

(** An amount in display units, [lamports / 1e9], has a value whenever the
    amount in base units has one. *)
Lemma amount_exact (l : number) :
  exact l -> exact (div l BlockParser.LAMPORTS_PER_SOL).
Proof.
  intros [_ [vl Hl]]. split; [apply div_valid|].
  apply value_is_Some.
  assert (Hne : l <> NaN) by (intros ->; discriminate Hl).
  assert (Hden : BlockParser.LAMPORTS_PER_SOL = S754_finite false 8388608000000000 (-23))
    by (vm_compute; reflexivity).
  rewrite Hden. apply SFdiv_finite_not_nan. exact Hne.
Qed.

(** A range may be open-ended: the text [1-Infinity] matches every amount
    from 1 upwards, and [-Infinity-1] is not a range from minus infinity,
    since the token is cut at its first dash. *)
Lemma open_ended_range :
  amountMatchesRanges (ofString "2.5") (parseRanges (Some "1-Infinity")) = true
  /\ amountMatchesRanges (ofString "0.5") (parseRanges (Some "1-Infinity")) = false
  /\ parseRanges (Some "-Infinity-1")
     = [ {| min := S754_zero false; max := Infinity false |} ].
Proof. repeat split; vm_compute; reflexivity. Qed.

(** The test that guards an alert: an amount with a value matches the
    configured text exactly when its value lies within one of the ranges
    parsed from the text.  This holds in particular for every amount the
    raw path computes. *)
Lemma alert_condition (rangeStr : option string) :
  (forall x : number,
      exact x ->
      (amountMatchesRanges x (parseRanges rangeStr) = true <->
       exists r, r ∈ parseRanges rangeStr /\ within x r))
  /\ (forall big : Z,
        amountMatchesRanges (div (ofZ big) BlockParser.LAMPORTS_PER_SOL)
          (parseRanges rangeStr) = true <->
        exists r, r ∈ parseRanges rangeStr
                  /\ within (div (ofZ big) BlockParser.LAMPORTS_PER_SOL) r).
Proof.
  assert (H : forall x : number,
             exact x ->
             (amountMatchesRanges x (parseRanges rangeStr) = true <->
              exists r, r ∈ parseRanges rangeStr /\ within x r)).
  { intros x Hx. apply amountMatchesRanges_within; [exact Hx|apply parseRanges_exact]. }
  split; [exact H|]. intros big. apply H, amount_exact, ofZ_exact.
Qed.

End RangeFacts.

(** ** Instruction parser *)

Section ParserFacts.

Import Js BlockParser.

Variable decode : string -> Result (list byte).

(** Whatever a case throws is caught: the loop body never raises. *)
Lemma loopBody_never_raises keys cex instr e :
  loopBody decode keys cex instr <> Raise e.
Proof.
  unfold loopBody.
  destruct (parsed instr) as [p|];
    [destruct (bool_decide (program instr = Some "system"%string))|];
    unfold tryCatchContinue;
    match goal with |- context [match ?b with _ => _ end] => destruct b end;
    discriminate.
Qed.

(** The loop appends, instruction after instruction, what each one adds. *)
Lemma forInstructions_outflows keys cex instrs acc :
  forInstructions decode keys cex instrs acc =
  Ok (acc ++ flat_map (outflowsOf decode keys cex) instrs).
Proof.
  revert acc. induction instrs as [|instr rest IH]; intros acc; cbn [forInstructions flat_map].
  - rewrite app_nil_r. reflexivity.
  - unfold outflowsOf at 1.
    destruct (loopBody decode keys cex instr) as [o| |e] eqn:Hbody.
    + rewrite IH, <- app_assoc. reflexivity.
    + rewrite IH. reflexivity.
    + exfalso. exact (loopBody_never_raises _ _ _ _ Hbody).
Qed.

Lemma parse_with_meta tx cex :
  meta tx <> None ->
  parseBlockTransactions decode tx cex =
  Ok (flat_map (outflowsOf decode (tableOf tx) cex)
        (instructionsOfTx tx)).
Proof.
  intros Hmeta. unfold parseBlockTransactions.
  destruct (meta tx); [|congruence].
  apply forInstructions_outflows.
Qed.

Lemma parse_without_meta tx cex :
  meta tx = None -> parseBlockTransactions decode tx cex = Ok [].
Proof. intros Hmeta. unfold parseBlockTransactions. rewrite Hmeta. reflexivity. Qed.

(** On the raw path the loop body is the raw case under its [try]. *)
Lemma loopBody_raw keys cex instr :
  takesRawPath instr ->
  loopBody decode keys cex instr = tryCatchContinue (rawInstruction decode keys cex instr).
Proof.
  intros [Hp|Hprog]; unfold loopBody.
  - rewrite Hp. reflexivity.
  - destruct (parsed instr); [|reflexivity].
    rewrite bool_decide_eq_false_2 by exact Hprog. reflexivity.
Qed.

(** The four discriminator tests pass only on the bytes [[2,0,0,0]]. *)
Lemma isByte_byteAt (buf : list byte) (i : nat) (v : N) (b : byte) :
  Byte.of_N v = Some b ->
  isByte (byteAt buf i) v = true -> buf !! i = Some b.
Proof.
  intros Hv. unfold isByte, byteAt.
  destruct (buf !! i) as [b'|]; cbn; [|discriminate].
  intros Heq. apply N.eqb_eq in Heq.
  rewrite <- Heq, Byte.of_to_N in Hv. exact Hv.
Qed.

Lemma discriminator_take (buf : list byte) :
  isByte (byteAt buf 0) 2 = true -> isByte (byteAt buf 1) 0 = true ->
  isByte (byteAt buf 2) 0 = true -> isByte (byteAt buf 3) 0 = true ->
  take 4 buf = [x02; x00; x00; x00].
Proof.
  intros H0 H1 H2 H3.
  apply (isByte_byteAt _ _ 2%N x02 eq_refl) in H0.
  apply (isByte_byteAt _ _ 0%N x00 eq_refl) in H1.
  apply (isByte_byteAt _ _ 0%N x00 eq_refl) in H2.
  apply (isByte_byteAt _ _ 0%N x00 eq_refl) in H3.
  destruct buf as [|b0 [|b1 [|b2 [|b3 rest]]]]; try discriminate.
  cbn in H0, H1, H2, H3. cbn [take].
  injection H0 as ->. injection H1 as ->. injection H2 as ->. injection H3 as ->.
  reflexivity.
Qed.

Lemma take_discriminator (buf : list byte) :
  take 4 buf = [x02; x00; x00; x00] ->
  negb (isByte (byteAt buf 0) 2) || negb (isByte (byteAt buf 1) 0)
  || negb (isByte (byteAt buf 2) 0) || negb (isByte (byteAt buf 3) 0) = false.
Proof.
  destruct buf as [|b0 [|b1 [|b2 [|b3 rest]]]]; try discriminate.
  cbn [take]. intros [= -> -> -> ->]. reflexivity.
Qed.

(** The raw case pushes once every one of its tests passes; the receiver is
    the text [receiverOf] computes from the entry of the second index. *)
Lemma rawInstruction_push keys cex instr programIdx payload big fromIdx toIdx more :
  programIdIndex instr = Some programIdx ->
  addressOf (at_ keys programIdx) = Some SYSTEM_PROGRAM ->
  decodeData decode (data instr) = Push payload ->
  (12 <= length payload)%nat ->
  take 4 payload = [x02; x00; x00; x00] ->
  readBigUInt64LE (slice 4 12 payload) = Ok big ->
  JSNumber.le (JSNumber.ofZ big) (JSNumber.ofZ 0) = false ->
  accounts instr = Some (fromIdx :: toIdx :: more) ->
  addressOf (at_ keys fromIdx) = Some cex ->
  JSString.truthy (receiverOf (at_ keys toIdx)) = true ->
  rawInstruction decode keys cex instr =
  Push {| amount := JSNumber.div (JSNumber.ofZ big) LAMPORTS_PER_SOL;
          receiver := Some (receiverOf (at_ keys toIdx));
          otype := "SOL" |}.
Proof.
  intros Hidx Hprog Hdata Hlen Hdisc Hread Hpos Haccs Hfrom Hto.
  unfold rawInstruction. rewrite Hidx, Hprog, Hdata.
  rewrite bool_decide_eq_true_2 by reflexivity. cbn [negb].
  destruct (Nat.ltb_spec (length payload) 12) as [Hlt|_]; [lia|].
  rewrite (take_discriminator _ Hdisc), Hread, Hpos, Haccs.
  change (default [] (Some (fromIdx :: toIdx :: more))) with (fromIdx :: toIdx :: more).
  change ((fromIdx :: toIdx :: more) !! 0%nat) with (Some fromIdx).
  change ((fromIdx :: toIdx :: more) !! 1%nat) with (Some toIdx).
  cbn [length Nat.ltb Nat.leb].
  rewrite Hfrom, bool_decide_eq_true_2 by reflexivity. cbn [negb].
  rewrite Hto. reflexivity.
Qed.

(** A resolved, non-empty address is the receiver text. *)
Lemma receiverOf_address (k : option AccountKey) (dest : string) :
  addressOf k = Some dest -> dest <> EmptyString -> receiverOf k = dest.
Proof.
  intros Haddr Hne. destruct k as [[s|b|]|]; cbn in *; try discriminate.
  - congruence.
  - injection Haddr as ->. destruct dest; [congruence|reflexivity].
Qed.

(** C4: the parser never throws, and the scan of one instruction does not
    depend on the others: a raw instruction whose payload is shorter than 12
    bytes, or does not start with [[2,0,0,0]], or encodes the amount 0, adds
    no Outflow and raises nothing, and whatever the raw case throws (a
    failed decode, a short buffer) is caught, so that the result is still
    the Outflows of the instructions before, then after, in order. *)
Theorem parser_never_throws (tx : Transaction) (cex : string) :
  (exists outs, parseBlockTransactions decode tx cex = Ok outs)
  /\ (forall instr e, loopBody decode (tableOf tx) cex instr <> Raise e)
  /\ (forall pre instr post,
        meta tx <> None ->
        instructionsOfTx tx = pre ++ instr :: post ->
        parseBlockTransactions decode tx cex =
        Ok (flat_map (outflowsOf decode (tableOf tx) cex) pre
            ++ outflowsOf decode (tableOf tx) cex instr
            ++ flat_map (outflowsOf decode (tableOf tx) cex) post))
  /\ (forall instr payload,
        takesRawPath instr ->
        decodeData decode (data instr) = Push payload ->
        (length payload < 12)%nat
        \/ take 4 payload <> [x02; x00; x00; x00]
        \/ readBigUInt64LE (slice 4 12 payload) = Ok 0 ->
        loopBody decode (tableOf tx) cex instr = Continue
        /\ outflowsOf decode (tableOf tx) cex instr = [])
  /\ (forall instr e,
        takesRawPath instr ->
        rawInstruction decode (tableOf tx) cex instr = Raise e ->
        loopBody decode (tableOf tx) cex instr = Continue
        /\ outflowsOf decode (tableOf tx) cex instr = []).
Proof.
  repeat apply conj.
  - unfold parseBlockTransactions. destruct (meta tx); [|eexists; reflexivity].
    rewrite forInstructions_outflows. eexists; reflexivity.
  - intros instr e. apply loopBody_never_raises.
  - intros pre instr post Hmeta Hinstrs.
    rewrite (parse_with_meta _ _ Hmeta); rewrite Hinstrs, flat_map_app.
    cbn [flat_map]. reflexivity.
  - intros instr payload Hraw Hdata Hbad.
    assert (Hbody : loopBody decode (tableOf tx) cex instr = Continue).
    { rewrite (loopBody_raw _ _ _ Hraw). unfold rawInstruction.
      destruct (programIdIndex instr) as [programIdx|]; [|reflexivity].
      destruct (negb _); [reflexivity|]. rewrite Hdata.
      destruct (Nat.ltb_spec (length payload) 12) as [Hlt|Hge]; [reflexivity|].
      destruct (negb (isByte (byteAt payload 0) 2) || negb (isByte (byteAt payload 1) 0)
                || negb (isByte (byteAt payload 2) 0) || negb (isByte (byteAt payload 3) 0))
        eqn:Hdisc; [reflexivity|].
      destruct Hbad as [Hlt|[Hne|Hzero]]; [lia| |].
      - exfalso. apply Hne.
        apply orb_false_elim in Hdisc as [Hdisc H3].
        apply orb_false_elim in Hdisc as [Hdisc H2].
        apply orb_false_elim in Hdisc as [H0 H1].
        apply negb_false_iff in H0, H1, H2, H3.
        apply discriminator_take; assumption.
      - rewrite Hzero. reflexivity. }
    split; [exact Hbody|]. unfold outflowsOf. rewrite Hbody. reflexivity.
  - intros instr e Hraw Hthrow.
    assert (Hbody : loopBody decode (tableOf tx) cex instr = Continue).
    { rewrite (loopBody_raw _ _ _ Hraw), Hthrow. reflexivity. }
    split; [exact Hbody|]. unfold outflowsOf. rewrite Hbody. reflexivity.
Qed.

(** 2_500_000_000 base units are 2.5 display units, exactly. *)
Lemma amount_two_and_a_half :
  JSNumber.div (JSNumber.ofZ 2500000000) LAMPORTS_PER_SOL = JSNumber.ofString "2.5"
  /\ JSNumber.ofString "2.5" = S754_finite false (5 * 2 ^ 50) (-51).
Proof. split; vm_compute; reflexivity. Qed.

(** C2, amended: in a transaction whose metadata is present, a raw
    instruction of the native-transfer program with the payload
    [[2,0,0,0] + LE64(2_500_000_000)] and the account indices
    [[sourceIdx, destIdx]], where [sourceIdx] resolves to the watched address
    and [destIdx] to a non-empty address, adds exactly one Outflow, of
    amount 2.5 and with that address as receiver, between the Outflows of
    the instructions before and after it. *)
Theorem raw_transfer_outflow (tx : Transaction) (cex : string)
  (pre post : list Instruction) (instr : Instruction)
  (programIdx sourceIdx destIdx : Z) (dest : string) :
  meta tx <> None ->
  instructionsOfTx tx = pre ++ instr :: post ->
  parsed instr = None ->
  programIdIndex instr = Some programIdx ->
  addressOf (at_ (tableOf tx) programIdx) = Some SYSTEM_PROGRAM ->
  decodeData decode (data instr) = Push (transferPayload 2500000000) ->
  accounts instr = Some [sourceIdx; destIdx] ->
  addressOf (at_ (tableOf tx) sourceIdx) = Some cex ->
  addressOf (at_ (tableOf tx) destIdx) = Some dest ->
  dest <> EmptyString ->
  parseBlockTransactions decode tx cex =
  Ok (flat_map (outflowsOf decode (tableOf tx) cex) pre
      ++ [ {| amount := JSNumber.ofString "2.5"; receiver := Some dest; otype := "SOL" |} ]
      ++ flat_map (outflowsOf decode (tableOf tx) cex) post).
Proof.
  intros Hmeta Hinstrs Hparsed Hidx Hprog Hdata Haccs Hsrc Hdst Hne.
  rewrite (parse_with_meta _ _ Hmeta); rewrite Hinstrs, flat_map_app. cbn [flat_map].
  do 2 f_equal. f_equal.
  unfold outflowsOf. rewrite (loopBody_raw _ _ _ (or_introl Hparsed)).
  rewrite (rawInstruction_push (tableOf tx) cex instr programIdx (transferPayload 2500000000)
             2500000000 sourceIdx destIdx []); try assumption.
  - rewrite (receiverOf_address _ _ Hdst Hne).
    rewrite (proj1 amount_two_and_a_half). reflexivity.
  - vm_compute. lia.
  - reflexivity.
  - reflexivity.
  - reflexivity.
  - rewrite (receiverOf_address _ _ Hdst Hne). destruct dest; [congruence|reflexivity].
Qed.

(** C10: in a transaction whose metadata is present, a raw instruction that
    passes the program, discriminator, amount and source tests and whose
    second account index has no entry in the account table still adds an
    Outflow, with the text ["undefined"] as receiver; and a transaction
    without metadata yields the empty list, whatever its instructions. *)
Theorem raw_transfer_unresolved_receiver (tx : Transaction) (cex : string) :
  (forall (pre post : list Instruction) (instr : Instruction)
          (programIdx : Z) (payload : list byte) (big fromIdx toIdx : Z) (more : list Z),
      meta tx <> None ->
      instructionsOfTx tx = pre ++ instr :: post ->
      takesRawPath instr ->
      programIdIndex instr = Some programIdx ->
      addressOf (at_ (tableOf tx) programIdx) = Some SYSTEM_PROGRAM ->
      decodeData decode (data instr) = Push payload ->
      (12 <= length payload)%nat ->
      take 4 payload = [x02; x00; x00; x00] ->
      readBigUInt64LE (slice 4 12 payload) = Ok big ->
      JSNumber.le (JSNumber.ofZ big) (JSNumber.ofZ 0) = false ->
      accounts instr = Some (fromIdx :: toIdx :: more) ->
      addressOf (at_ (tableOf tx) fromIdx) = Some cex ->
      at_ (tableOf tx) toIdx = None ->
      loopBody decode (tableOf tx) cex instr =
        Push {| amount := JSNumber.div (JSNumber.ofZ big) LAMPORTS_PER_SOL;
                receiver := Some "undefined"%string; otype := "SOL" |}
      /\ parseBlockTransactions decode tx cex =
         Ok (flat_map (outflowsOf decode (tableOf tx) cex) pre
             ++ [ {| amount := JSNumber.div (JSNumber.ofZ big) LAMPORTS_PER_SOL;
                     receiver := Some "undefined"%string; otype := "SOL" |} ]
             ++ flat_map (outflowsOf decode (tableOf tx) cex) post))
  /\ (meta tx = None -> parseBlockTransactions decode tx cex = Ok []).
Proof.
  split; [|apply parse_without_meta].
  intros pre post instr programIdx payload big fromIdx toIdx more
    Hmeta Hinstrs Hraw Hidx Hprog Hdata Hlen Hdisc Hread Hpos Haccs Hsrc Hnone.
  assert (Hbody : loopBody decode (tableOf tx) cex instr =
                  Push {| amount := JSNumber.div (JSNumber.ofZ big) LAMPORTS_PER_SOL;
                          receiver := Some "undefined"%string; otype := "SOL" |}).
  { rewrite (loopBody_raw _ _ _ Hraw).
    rewrite (rawInstruction_push (tableOf tx) cex instr programIdx payload big fromIdx toIdx more);
      try assumption.
    - rewrite Hnone. reflexivity.
    - rewrite Hnone. reflexivity. }
  split; [exact Hbody|].
  rewrite (parse_with_meta _ _ Hmeta); rewrite Hinstrs, flat_map_app. cbn [flat_map].
  unfold outflowsOf at 2. rewrite Hbody. reflexivity.
Qed.

(** The parsed case: what it pushes, and when. *)
Lemma parsedInstruction_push cex (p : Parsed) (o : Outflow) :
  parsedInstruction cex p = Push o <->
  type p = "transfer"%string
  /\ exists i l,
       info p = Some i /\ source i = Some cex /\ lamports i = Some l
       /\ JSNumber.gt l (JSNumber.ofZ 0) = true
       /\ o = {| amount := JSNumber.div l LAMPORTS_PER_SOL;
                 receiver := destination i; otype := "SOL" |}.
Proof.
  unfold parsedInstruction. split.
  - destruct (String.eqb_spec (type p) "transfer") as [Ht|Ht]; [|discriminate].
    destruct (info p) as [i|]; [|discriminate].
    destruct (bool_decide_reflect (source i = Some cex)) as [Hs|Hs]; [|discriminate].
    destruct (lamports i) as [l|] eqn:Hl; [|discriminate]. cbn [andb].
    destruct (JSNumber.gt l (JSNumber.ofZ 0)) eqn:Hgt; [|discriminate].
    intros [= <-]. split; [exact Ht|]. exists i, l.
    split; [reflexivity|]. split; [exact Hs|]. split; [exact Hl|].
    split; [exact Hgt|reflexivity].
  - intros (Ht & i & l & Hi & Hs & Hl & Hgt & ->).
    rewrite Ht, Hi, Hs, Hl, Hgt. rewrite bool_decide_eq_true_2 by reflexivity.
    reflexivity.
Qed.

Lemma parsedInstruction_never_raises cex p e : parsedInstruction cex p <> Raise e.
Proof.
  unfold parsedInstruction.
  destruct (String.eqb (type p) "transfer"); [|discriminate].
  destruct (info p) as [i|]; [|discriminate].
  destruct (_ && _); discriminate.
Qed.

(** C7, amended: in a transaction whose metadata is present, a structured
    instruction whose [info], if any, carries a destination adds at most one
    Outflow, and adds one exactly when its program is the native-transfer
    program, its type is [transfer], it carries a source and a destination,
    its amount in base units is strictly positive and its source is the
    watched address; the amount of the Outflow is the base-unit amount
    divided by 1e9 and its receiver is the destination. *)
Theorem parsed_transfer_outflow (tx : Transaction) (cex : string)
  (pre post : list Instruction) (instr : Instruction) (p : Parsed) :
  meta tx <> None ->
  instructionsOfTx tx = pre ++ instr :: post ->
  parsed instr = Some p ->
  programIdIndex instr = None ->
  (forall i, info p = Some i -> is_Some (destination i)) ->
  parseBlockTransactions decode tx cex =
    Ok (flat_map (outflowsOf decode (tableOf tx) cex) pre
        ++ outflowsOf decode (tableOf tx) cex instr
        ++ flat_map (outflowsOf decode (tableOf tx) cex) post)
  /\ (outflowsOf decode (tableOf tx) cex instr = []
      \/ exists o, outflowsOf decode (tableOf tx) cex instr = [o])
  /\ (forall o,
        outflowsOf decode (tableOf tx) cex instr = [o] <->
        program instr = Some "system"%string
        /\ type p = "transfer"%string
        /\ exists i src dst l,
             info p = Some i /\ source i = Some src /\ destination i = Some dst
             /\ lamports i = Some l
             /\ JSNumber.gt l (JSNumber.ofZ 0) = true
             /\ src = cex
             /\ o = {| amount := JSNumber.div l LAMPORTS_PER_SOL;
                       receiver := Some dst; otype := "SOL" |}).
Proof.
  intros Hmeta Hinstrs Hparsed Hnoidx Hdest.
  split; [|split].
  - rewrite (parse_with_meta _ _ Hmeta); rewrite Hinstrs, flat_map_app. reflexivity.
  - unfold outflowsOf. destruct (loopBody decode (tableOf tx) cex instr); eauto.
  - intros o. unfold outflowsOf, loopBody. rewrite Hparsed.
    destruct (bool_decide_reflect (program instr = Some "system"%string)) as [Hprog|Hprog].
    + assert (Hiff : tryCatchContinue (parsedInstruction cex p) = Push o <->
                     parsedInstruction cex p = Push o).
      { destruct (parsedInstruction cex p); cbn; split; congruence. }
      split.
      * intros Hout.
        assert (Hpush : tryCatchContinue (parsedInstruction cex p) = Push o).
        { destruct (tryCatchContinue (parsedInstruction cex p)); congruence. }
        apply Hiff, parsedInstruction_push in Hpush as (Ht & i & l & Hi & Hs & Hl & Hgt & ->).
        destruct (Hdest i Hi) as [dst Hdst].
        split; [exact Hprog|]. split; [exact Ht|].
        exists i, cex, dst, l. rewrite Hdst. repeat split; assumption.
      * intros (_ & Ht & i & src & dst & l & Hi & Hs & Hd & Hl & Hgt & -> & ->).
        assert (Hpush : parsedInstruction cex p =
                        Push {| amount := JSNumber.div l LAMPORTS_PER_SOL;
                                receiver := Some dst; otype := "SOL" |}).
        { apply parsedInstruction_push. split; [exact Ht|].
          exists i, l. rewrite Hd. repeat split; assumption. }
        rewrite Hpush. reflexivity.
    + unfold rawInstruction. rewrite Hnoidx. cbn.
      split; [discriminate|]. intros (Habs & _). contradiction.
Qed.

End ParserFacts.

(** *** The parser on concrete transactions *)

Section ParserExamples.

Import Js BlockParser.

(** [parser_never_throws] at a transaction with a short payload, another
    discriminator, the amount 0, a text that is not base58, and then a
    transfer: only the transfer adds an Outflow. *)
Lemma parser_never_throws_witness :
  outflowsOf Base58.decode Examples.table Examples.watched Examples.shortPayload = []
  /\ outflowsOf Base58.decode Examples.table Examples.watched Examples.wrongDiscriminator = []
  /\ outflowsOf Base58.decode Examples.table Examples.watched Examples.zeroAmount = []
  /\ outflowsOf Base58.decode Examples.table Examples.watched Examples.notBase58 = []
  /\ parseBlockTransactions Base58.decode Examples.mixedTx Examples.watched =
     Ok [ {| amount := JSNumber.ofString "2.5";
             receiver := Some Examples.receiverAddress; otype := "SOL" |} ].
Proof.
  destruct (parser_never_throws Base58.decode Examples.mixedTx Examples.watched)
    as (_ & _ & Hscan & Hskip & Hcatch).
  assert (H1 : outflowsOf Base58.decode Examples.table Examples.watched Examples.shortPayload = []).
  { apply (Hskip Examples.shortPayload [x02; x00; x00; x00; x01; x02; x03]);
      [left; reflexivity | vm_compute; reflexivity | left; vm_compute; lia]. }
  assert (H2 : outflowsOf Base58.decode Examples.table Examples.watched Examples.wrongDiscriminator = []).
  { eapply (Hskip Examples.wrongDiscriminator);
      [left; reflexivity | vm_compute; reflexivity | right; left; vm_compute; discriminate]. }
  assert (H3 : outflowsOf Base58.decode Examples.table Examples.watched Examples.zeroAmount = []).
  { eapply (Hskip Examples.zeroAmount);
      [left; reflexivity | vm_compute; reflexivity | right; right; vm_compute; reflexivity]. }
  assert (H4 : outflowsOf Base58.decode Examples.table Examples.watched Examples.notBase58 = []).
  { eapply (Hcatch Examples.notBase58);
      [left; reflexivity | vm_compute; reflexivity]. }
  split; [exact H1|]. split; [exact H2|]. split; [exact H3|]. split; [exact H4|].
  rewrite (Hscan [Examples.shortPayload; Examples.wrongDiscriminator;
                  Examples.zeroAmount; Examples.notBase58] Examples.transfer25 []);
    [|discriminate|reflexivity].
  vm_compute. reflexivity.
Defined.

(** Without metadata the transfer is not reported: the instruction
    meets every premise of the claim, and the parser returns no Outflow. *)
Lemma raw_transfer_without_meta :
  parsed Examples.transfer25 = None
  /\ programIdIndex Examples.transfer25 = Some 2
  /\ addressOf (at_ Examples.table 2) = Some SYSTEM_PROGRAM
  /\ decodeData Base58.decode (data Examples.transfer25) = Push (transferPayload 2500000000)
  /\ accounts Examples.transfer25 = Some [0; 1]
  /\ addressOf (at_ Examples.table 0) = Some Examples.watched
  /\ addressOf (at_ Examples.table 1) = Some Examples.receiverAddress
  /\ instructionsOfTx (Examples.txOf None [Examples.transfer25]) = [Examples.transfer25]
  /\ parseBlockTransactions Base58.decode (Examples.txOf None [Examples.transfer25])
       Examples.watched = Ok []
  /\ parseBlockTransactions Base58.decode (Examples.txOf None [Examples.transfer25])
       Examples.watched
     <> Ok [ {| amount := JSNumber.ofString "2.5";
                receiver := Some Examples.receiverAddress; otype := "SOL" |} ].
Proof. repeat split; vm_compute; (reflexivity || discriminate). Qed.

(** [raw_transfer_outflow] at the same instruction in a transaction with
    metadata. *)
Lemma raw_transfer_outflow_witness :
  parseBlockTransactions Base58.decode
    (Examples.txOf (Some OpaqueMeta) [Examples.transfer25]) Examples.watched =
  Ok [ {| amount := JSNumber.ofString "2.5";
          receiver := Some Examples.receiverAddress; otype := "SOL" |} ].
Proof.
  apply (raw_transfer_outflow Base58.decode
           (Examples.txOf (Some OpaqueMeta) [Examples.transfer25]) Examples.watched
           [] [] Examples.transfer25 2 0 1 Examples.receiverAddress);
    try (vm_compute; reflexivity); discriminate.
Defined.

(** [raw_transfer_unresolved_receiver] at a transfer whose second index, 7,
    is outside a table of three entries, and at a transaction without
    metadata. *)
Lemma raw_transfer_unresolved_receiver_witness :
  parseBlockTransactions Base58.decode
    (Examples.txOf (Some OpaqueMeta) [Examples.unresolvedReceiver]) Examples.watched =
  Ok [ {| amount := JSNumber.div (JSNumber.ofZ 1) LAMPORTS_PER_SOL;
          receiver := Some "undefined"%string; otype := "SOL" |} ]
  /\ parseBlockTransactions Base58.decode
       (Examples.txOf None [Examples.unresolvedReceiver]) Examples.watched = Ok [].
Proof.
  split.
  - apply (proj1 (raw_transfer_unresolved_receiver Base58.decode
                    (Examples.txOf (Some OpaqueMeta) [Examples.unresolvedReceiver])
                    Examples.watched)
             [] [] Examples.unresolvedReceiver 2 (transferPayload 1) 1 0 7 []);
      first [ discriminate | left; reflexivity | vm_compute; reflexivity | vm_compute; lia ].
  - apply (proj2 (raw_transfer_unresolved_receiver Base58.decode
                    (Examples.txOf None [Examples.unresolvedReceiver]) Examples.watched)).
    reflexivity.
Defined.

(** Two parsed transfers: one without destination still adds an Outflow,
    whose receiver is absent; and one that meets every condition adds
    nothing, because the transaction has no metadata. *)
Lemma parsed_transfer_counterexample :
  parseBlockTransactions Base58.decode
    (Examples.txOf (Some OpaqueMeta)
       [Examples.parsedTransfer (Some Examples.watched) None (Some (JSNumber.ofZ 5))])
    Examples.watched =
  Ok [ {| amount := JSNumber.div (JSNumber.ofZ 5) LAMPORTS_PER_SOL;
          receiver := None; otype := "SOL" |} ]
  /\ parseBlockTransactions Base58.decode
       (Examples.txOf None
          [Examples.parsedTransfer (Some Examples.watched)
             (Some Examples.receiverAddress) (Some (JSNumber.ofZ 5))])
       Examples.watched = Ok []
  /\ JSNumber.gt (JSNumber.ofZ 5) (JSNumber.ofZ 0) = true.
Proof. repeat split; vm_compute; reflexivity. Qed.

(** [parsed_transfer_outflow] at a parsed transfer of 2_500_000_000 base
    units. *)
Lemma parsed_transfer_outflow_witness :
  parseBlockTransactions Base58.decode
    (Examples.txOf (Some OpaqueMeta)
       [Examples.parsedTransfer (Some Examples.watched)
          (Some Examples.receiverAddress) (Some (JSNumber.ofZ 2500000000))])
    Examples.watched =
  Ok [ {| amount := JSNumber.div (JSNumber.ofZ 2500000000) LAMPORTS_PER_SOL;
          receiver := Some Examples.receiverAddress; otype := "SOL" |} ].
Proof.
  destruct (parsed_transfer_outflow Base58.decode
              (Examples.txOf (Some OpaqueMeta)
                 [Examples.parsedTransfer (Some Examples.watched)
                    (Some Examples.receiverAddress) (Some (JSNumber.ofZ 2500000000))])
              Examples.watched [] []
              (Examples.parsedTransfer (Some Examples.watched)
                 (Some Examples.receiverAddress) (Some (JSNumber.ofZ 2500000000)))
              {| type := "transfer";
                 info := Some {| source := Some Examples.watched;
                                 destination := Some Examples.receiverAddress;
                                 lamports := Some (JSNumber.ofZ 2500000000) |} |})
    as (Hparse & _ & Hiff).
  - discriminate.
  - reflexivity.
  - reflexivity.
  - reflexivity.
  - intros i [= <-]. eexists; reflexivity.
  - rewrite Hparse. cbn [flat_map app].
    rewrite (proj2 (Hiff {| amount := JSNumber.div (JSNumber.ofZ 2500000000) LAMPORTS_PER_SOL;
                            receiver := Some Examples.receiverAddress; otype := "SOL" |})).
    + reflexivity.
    + split; [reflexivity|]. split; [reflexivity|].
      eexists _, _, _, _. repeat split; try reflexivity.
Defined.

End ParserExamples.

(** ** Recently-seen signatures *)

Section DedupFacts.

Import TransactionMonitor.

Lemma has_true (x : string) (set : list string) : has x set = true <-> x ∈ set.
Proof. unfold has. apply bool_decide_eq_true. Qed.

Lemma delete_head (x : string) (set : list string) :
  x ∉ set -> delete x (x :: set) = set.
Proof.
  intros Hx. unfold delete. rewrite filter_cons.
  destruct (decide (x ≠ x)) as [Hne|_]; [congruence|].
  induction set as [|y set IH]; [reflexivity|].
  rewrite filter_cons. apply not_elem_of_cons in Hx as [Hxy Hx].
  destruct (decide (y ≠ x)) as [_|Heq]; [|exfalso; apply Heq; congruence].
  f_equal. apply IH. exact Hx.
Qed.

(** Deleting the first [n] elements of a set, one by one, leaves the
    elements after them, in order. *)
Lemma delete_oldest (n : nat) (set : list string) :
  NoDup set ->
  fold_left (fun set tx => delete tx set) (take n set) set = drop n set.
Proof.
  revert n. induction set as [|x set IH]; intros n Hnd.
  - destruct n; reflexivity.
  - destruct n as [|n]; [reflexivity|].
    apply NoDup_cons in Hnd as [Hx Hnd].
    cbn [take fold_left drop]. rewrite (delete_head _ _ Hx). apply IH. exact Hnd.
Qed.

(** What the callback does to the set, case by case. *)
Lemma onLogs_cases (signature : string) (set : list string) :
  NoDup set ->
  onLogs signature set =
  if has signature set then (false, set)
  else if size set >=? processedTxsMaxSize
       then (true, drop 5000 (set ++ [signature]))
       else (true, set ++ [signature]).
Proof.
  intros Hnd. unfold onLogs.
  destruct (has signature set) eqn:Hhas; [reflexivity|].
  unfold add. rewrite Hhas.
  assert (Hnotin : signature ∉ set).
  { intros Hin. apply has_true in Hin. congruence. }
  assert (Hnd' : NoDup (set ++ [signature])).
  { apply NoDup_app. split; [exact Hnd|]. split; [|apply NoDup_singleton].
    intros y Hy Hy'. apply list_elem_of_singleton in Hy'. subst. contradiction. }
  assert (Hsize : size (set ++ [signature]) = size set + 1).
  { unfold size. rewrite length_app. cbn. lia. }
  rewrite Hsize. unfold processedTxsMaxSize.
  destruct (Z.gtb_spec (size set + 1) 10000) as [Hgt|Hle];
    destruct (Z.geb_spec (size set) 10000) as [Hge|Hlt]; try lia.
  - change (Z.to_nat (10000 / 2)) with 5000%nat.
    rewrite (delete_oldest _ _ Hnd'). reflexivity.
  - reflexivity.
Qed.

(** The set stays duplicate-free and within its capacity. *)
Lemma onLogs_invariant (signature : string) (set : list string) :
  NoDup set -> size set <= processedTxsMaxSize ->
  NoDup (snd (onLogs signature set)) /\ size (snd (onLogs signature set)) <= processedTxsMaxSize.
Proof.
  intros Hnd Hsize. rewrite (onLogs_cases _ _ Hnd).
  destruct (has signature set) eqn:Hhas; [split; assumption|].
  assert (Hnd' : NoDup (set ++ [signature])).
  { apply NoDup_app. split; [exact Hnd|]. split; [|apply NoDup_singleton].
    intros y Hy Hy'. apply list_elem_of_singleton in Hy'. subst.
    apply has_true in Hy. congruence. }
  unfold size, processedTxsMaxSize in *.
  destruct (Z.geb_spec (Z.of_nat (length set)) 10000) as [Hge|Hlt]; cbn [snd].
  - split.
    + rewrite <- (take_drop 5000 (set ++ [signature])) in Hnd'.
      apply NoDup_app in Hnd' as (_ & _ & Hd). exact Hd.
    + rewrite length_drop, length_app. cbn [length]. lia.
  - split; [exact Hnd'|]. rewrite length_app. cbn [length]. lia.
Qed.

Lemma afterEvents_snoc (signatures : list string) (signature : string) :
  afterEvents (signatures ++ [signature]) = snd (onLogs signature (afterEvents signatures)).
Proof. unfold afterEvents. rewrite fold_left_app. reflexivity. Qed.

Lemma afterEvents_invariant (signatures : list string) :
  NoDup (afterEvents signatures) /\ size (afterEvents signatures) <= processedTxsMaxSize.
Proof.
  induction signatures as [|signature signatures IH] using rev_ind.
  - split; [apply NoDup_nil_2|]. unfold size, processedTxsMaxSize. cbn. lia.
  - rewrite afterEvents_snoc. destruct IH as [Hnd Hsize].
    apply onLogs_invariant; assumption.
Qed.

(** Distinct signatures fill the set in order of arrival up to its
    capacity, and the next new signature evicts the oldest 5,000. *)
Lemma afterEvents_distinct (signatures : list string) :
  NoDup signatures -> size signatures <= processedTxsMaxSize ->
  afterEvents signatures = signatures.
Proof.
  induction signatures as [|signature signatures IH] using rev_ind; intros Hnd Hsize.
  - reflexivity.
  - apply NoDup_app in Hnd as (Hnd & Hnotin & _).
    unfold size in *. rewrite length_app in Hsize. cbn [length] in Hsize.
    rewrite afterEvents_snoc, IH by (assumption || lia).
    rewrite (onLogs_cases _ _ Hnd).
    destruct (has signature signatures) eqn:Hhas.
    + exfalso. apply has_true in Hhas. apply (Hnotin signature Hhas). left.
    + unfold size, processedTxsMaxSize in *.
      destruct (Z.geb_spec (Z.of_nat (length signatures)) 10000) as [Hge|Hlt]; [lia|].
      reflexivity.
Qed.

Lemma eviction_at_capacity (signatures : list string) (signature : string) :
  NoDup (signatures ++ [signature]) -> size signatures = processedTxsMaxSize ->
  afterEvents (signatures ++ [signature]) = drop 5000 (signatures ++ [signature])
  /\ size (afterEvents (signatures ++ [signature])) = 5001.
Proof.
  intros Hnd Hsize. pose proof Hnd as Hnd'.
  apply NoDup_app in Hnd' as (Hnd1 & Hnotin & _).
  rewrite afterEvents_snoc, afterEvents_distinct by (assumption || lia).
  rewrite (onLogs_cases _ _ Hnd1).
  destruct (has signature signatures) eqn:Hhas.
  { exfalso. apply has_true in Hhas. apply (Hnotin signature Hhas). left. }
  rewrite Hsize.
  change (processedTxsMaxSize >=? processedTxsMaxSize) with true.
  cbn [snd]. split; [reflexivity|].
  unfold size, processedTxsMaxSize in *.
  rewrite length_drop, length_app. cbn [length]. lia.
Qed.

(** C9: after any sequence of log events the recently-seen set holds at
    most 10,000 signatures, each once; on the next event a signature of the
    set is not processed again and the set is unchanged; a new signature is
    appended and processed, and when that makes 10,001 entries the first
    5,000 in insertion order are evicted. *)
Theorem processedTxs_bounded (signatures : list string) (signature : string) :
  size (afterEvents signatures) <= 10000
  /\ NoDup (afterEvents signatures)
  /\ onLogs signature (afterEvents signatures) =
     (if has signature (afterEvents signatures) then (false, afterEvents signatures)
      else if size (afterEvents signatures) =? 10000
           then (true, drop 5000 (afterEvents signatures ++ [signature]))
           else (true, afterEvents signatures ++ [signature]))
  /\ size (snd (onLogs signature (afterEvents signatures))) <= 10000.
Proof.
  destruct (afterEvents_invariant signatures) as [Hnd Hsize].
  split; [exact Hsize|]. split; [exact Hnd|]. split.
  - rewrite (onLogs_cases _ _ Hnd).
    destruct (has signature (afterEvents signatures)); [reflexivity|].
    unfold processedTxsMaxSize in *.
    destruct (Z.geb_spec (size (afterEvents signatures)) 10000) as [Hge|Hlt];
      destruct (Z.eqb_spec (size (afterEvents signatures)) 10000) as [Heq|Hne];
      try reflexivity; lia.
  - apply (onLogs_invariant _ _ Hnd Hsize).
Qed.

(** A repeated signature is dropped and the order of arrival is kept. *)
Lemma afterEvents_example :
  afterEvents ["sigA"; "sigB"; "sigA"; "sigC"; "sigB"]%string = ["sigA"; "sigB"; "sigC"]%string
  /\ onLogs "sigB" ["sigA"; "sigB"; "sigC"]%string = (false, ["sigA"; "sigB"; "sigC"]%string)
  /\ onLogs "sigD" ["sigA"; "sigB"; "sigC"]%string = (true, ["sigA"; "sigB"; "sigC"; "sigD"]%string).
Proof. repeat split; vm_compute; reflexivity. Qed.

End DedupFacts.

(** ** Slot ingestion scheduler *)

Section SchedulerFacts.

Import Js BlockMonitor.

(** *** One turn of the advance loop *)

Lemma advanceOnce_Some st st' :
  advanceOnce st = Some st' ->
  is_Some (processedSlots st !! (lastSlot st + 1))
  /\ lastSlot st' = lastSlot st + 1
  /\ processedSlots st' = delete (lastSlot st + 1) (processedSlots st)
  /\ saveLastSlotCalls st' = saveLastSlotCalls st ++ [lastSlot st + 1]
  /\ view st' = viewAdvance (view st)
  /\ inFlightFetches st' = inFlightFetches st
  /\ getBlockCalls st' = getBlockCalls st
  /\ tasks st' = tasks st.
Proof.
  unfold advanceOnce, view, viewAdvance.
  destruct (bool_decide_reflect (is_Some (processedSlots st !! (lastSlot st + 1))))
    as [Hin|Hout]; [|discriminate].
  intros [= <-]. cbn. repeat split; try reflexivity. exact Hin.
Qed.

Lemma advanceOnce_None st :
  advanceOnce st = None <-> processedSlots st !! (lastSlot st + 1) = None.
Proof.
  unfold advanceOnce.
  destruct (bool_decide_reflect (is_Some (processedSlots st !! (lastSlot st + 1))))
    as [Hin|Hout].
  - split; [discriminate|]. intros Hnone. rewrite Hnone in Hin. destruct Hin; discriminate.
  - split; [intros _|reflexivity]. apply eq_None_not_Some. exact Hout.
Qed.

Lemma advanceOnce_view st :
  view (match advanceOnce st with Some st' => st' | None => st end) = viewAdvance (view st).
Proof.
  destruct (advanceOnce st) as [st'|] eqn:Hadv.
  - apply advanceOnce_Some in Hadv. tauto.
  - apply advanceOnce_None in Hadv. unfold view, viewAdvance.
    rewrite bool_decide_eq_false_2; [reflexivity|].
    rewrite Hadv. intros [x Hx]. discriminate.
Qed.

(** *** The uninterrupted call *)


Lemma tryStartProcessorsLoop_frame queue st :
  view (tryStartProcessorsLoop queue st) = view st
  /\ inFlightFetches (tryStartProcessorsLoop queue st) = inFlightFetches st
  /\ getBlockCalls (tryStartProcessorsLoop queue st) = getBlockCalls st
  /\ lastSlots (tryStartProcessorsLoop queue st) = lastSlots st.
Proof.
  revert st. induction queue as [|item rest IH]; intros st; cbn [tryStartProcessorsLoop].
  - repeat split.
  - destruct (processWorkers st <? processConcurrency st); [|repeat split].
    destruct (IH (processBlock (fst item) (snd item) st)) as (H1 & H2 & H3 & H4).
    rewrite H1, H2, H3, H4. repeat split.
Qed.

Lemma tryStartProcessors_frame st :
  view (tryStartProcessors st) = view st
  /\ inFlightFetches (tryStartProcessors st) = inFlightFetches st
  /\ getBlockCalls (tryStartProcessors st) = getBlockCalls st
  /\ lastSlots (tryStartProcessors st) = lastSlots st.
Proof. apply tryStartProcessorsLoop_frame. Qed.

(** *** Every transition, seen through the view *)

Lemma attemptAdvanceFrom_view advanced k st :
  view (attemptAdvanceFrom advanced k st) = viewAdvance (view st).
Proof.
  unfold attemptAdvanceFrom. rewrite <- advanceOnce_view.
  destruct (advanceOnce st) as [st'|]; [reflexivity|].
  destruct advanced; [|reflexivity].
  change (view (tryStartProcessors st) = view st). apply tryStartProcessors_frame.
Qed.

Lemma doFetch_view s st : view (doFetch s st) = view st.
Proof.
  unfold doFetch. destruct (s <=? lastSlot st); [reflexivity|].
  destruct (_ || _); reflexivity.
Qed.

Lemma fetchCatch_view s msg st : viewStep (view st) (view (fetchCatch s msg st)).
Proof.
  unfold fetchCatch. destruct (skippedLike msg).
  - right; right. exists s. rewrite attemptAdvanceFrom_view. reflexivity.
  - left. reflexivity.
Qed.

(** Case analysis on the task an event names. *)
Local Ltac on_task st i tac :=
  destruct (tasks st !! i) as [[s|k|k o|s b|s|s b]|]; try tac.

Lemma step_view (ev : Event) (st : State) : viewStep (view st) (view (step ev st)).
Proof.
  destruct ev as [ty slot|i r|i outcome|i|i outcome|i]; cbn [step].
  - destruct (String.eqb ty "root"); [|left; reflexivity].
    left. apply doFetch_view.
  - on_task st i ltac:(left; reflexivity).
    destruct r as [|blockData|msg]; cbn [getBlockSettled].
    + right; right. exists s. rewrite attemptAdvanceFrom_view. reflexivity.
    + left. change (view (tryStartProcessors
                            (setProcessQueue (processQueue (removeTask i st) ++ [(s, blockData)])
                               (removeTask i st))) = view st).
      rewrite (proj1 (tryStartProcessors_frame _)). reflexivity.
    + apply (fetchCatch_view s msg (removeTask i st)).
  - on_task st i ltac:(left; reflexivity).
    destruct outcome as [u|e]; [|left; reflexivity].
    right; left. rewrite attemptAdvanceFrom_view. reflexivity.
  - on_task st i ltac:(left; reflexivity).
    destruct k as [s|s|s b]; destruct o as [u|[msg]]; cbn [advanceReturned];
      try (left; reflexivity).
    apply (fetchCatch_view s msg (removeTask i st)).
  - on_task st i ltac:(left; reflexivity).
    destruct outcome as [u|e]; cbn [processSettled]; [|left; reflexivity].
    right; right. exists s. rewrite attemptAdvanceFrom_view. reflexivity.
  - on_task st i ltac:(left; reflexivity).
    + left. rewrite doFetch_view. reflexivity.
    + left. rewrite (proj1 (tryStartProcessors_frame _)). reflexivity.
Qed.

Lemma viewMark_consistent c0 s v : consistentFrom c0 v -> consistentFrom c0 (viewMark s v).
Proof.
  destruct v as [[[c ps] saves] marked]. cbn.
  intros (Hle & Hpassed & Hdom & Hsaves).
  split; [exact Hle|]. split; [|split; [|exact Hsaves]].
  - intros i Hi. apply elem_of_union_r. apply Hpassed. exact Hi.
  - intros x Hx. apply elem_of_dom in Hx.
    destruct (decide (x = s)) as [->|Hne].
    + apply elem_of_union_l, elem_of_singleton. reflexivity.
    + rewrite lookup_insert_ne in Hx by congruence.
      apply elem_of_union_r, Hdom, elem_of_dom. exact Hx.
Qed.

Lemma viewAdvance_consistent c0 v : consistentFrom c0 v -> consistentFrom c0 (viewAdvance v).
Proof.
  destruct v as [[[c ps] saves] marked]. cbn.
  intros (Hle & Hpassed & Hdom & Hsaves).
  destruct (bool_decide_reflect (is_Some (ps !! (c + 1)))) as [Hin|Hout];
    [|repeat split; assumption].
  split; [lia|]. split; [|split].
  - intros i Hi. destruct (decide (i = c + 1)) as [->|Hne].
    + apply Hdom. apply elem_of_dom. exact Hin.
    + apply Hpassed. lia.
  - intros x Hx. apply elem_of_dom in Hx.
    destruct (decide (x = c + 1)) as [->|Hne].
    + rewrite lookup_delete_eq in Hx. destruct Hx; discriminate.
    + rewrite lookup_delete_ne in Hx by congruence. apply Hdom, elem_of_dom. exact Hx.
  - rewrite Hsaves. replace (c + 1 - c0) with ((c - c0) + 1) by lia.
    rewrite seqZ_app by lia. f_equal.
    rewrite seqZ_cons by lia. rewrite seqZ_nil by lia. f_equal. lia.
Qed.

Lemma viewStep_consistent c0 v v' :
  viewStep v v' -> consistentFrom c0 v -> consistentFrom c0 v'.
Proof.
  intros [->|[->|[s ->]]] Hv.
  - exact Hv.
  - apply viewAdvance_consistent. exact Hv.
  - apply viewAdvance_consistent, viewMark_consistent. exact Hv.
Qed.

Lemma viewStep_checkpoint v v' :
  viewStep v v' ->
  v'.1.1.1 = v.1.1.1
  \/ (v'.1.1.1 = v.1.1.1 + 1 /\ v'.1.2 = v.1.2 ++ [v.1.1.1 + 1]).
Proof.
  destruct v as [[[c ps] saves] marked].
  intros [->|[->|[s ->]]]; cbn.
  - left. reflexivity.
  - destruct (bool_decide _); cbn; [right; split; reflexivity|left; reflexivity].
  - destruct (bool_decide _); cbn; [right; split; reflexivity|left; reflexivity].
Qed.

Lemma run_snoc evs ev st : run (evs ++ [ev]) st = step ev (run evs st).
Proof. unfold run. rewrite fold_left_app. reflexivity. Qed.

Lemma run_app evs1 evs2 st : run (evs1 ++ evs2) st = run evs2 (run evs1 st).
Proof. unfold run. apply fold_left_app. Qed.

Lemma run_consistent c0 evs st :
  consistentFrom c0 (view st) -> consistentFrom c0 (view (run evs st)).
Proof.
  intros Hst. induction evs as [|ev evs IH] using rev_ind; [exact Hst|].
  rewrite run_snoc. apply (viewStep_consistent _ _ _ (step_view ev (run evs st)) IH).
Qed.

Lemma run_monotone evs st : lastSlot st <= lastSlot (run evs st).
Proof.
  induction evs as [|ev evs IH] using rev_ind; [cbn; lia|].
  rewrite run_snoc.
  destruct (viewStep_checkpoint _ _ (step_view ev (run evs st))) as [Heq|[Heq _]];
    cbn in Heq; lia.
Qed.

Lemma start_consistent file getSlot concurrency :
  consistentFrom (lastSlot (startBlockMonitorListener file getSlot concurrency))
    (view (startBlockMonitorListener file getSlot concurrency)).
Proof.
  cbn. split; [lia|]. split; [intros i Hi; lia|].
  split; [rewrite dom_empty_L; reflexivity|].
  rewrite Z.sub_diag. reflexivity.
Qed.

(** *** The loaded checkpoint file is a dead variable

    No transition reads [lastSlots]: changing it commutes with every
    piece of the scheduler. *)

Lemma doFetch_lastSlots m s st :
  doFetch s (setLastSlots m st) = setLastSlots m (doFetch s st).
Proof.
  unfold doFetch. cbn [lastSlot inFlightFetches processedSlots setLastSlots].
  destruct (s <=? lastSlot st); [reflexivity|].
  destruct (_ || _); reflexivity.
Qed.

Lemma tryStartProcessorsLoop_lastSlots m queue st :
  tryStartProcessorsLoop queue (setLastSlots m st) =
  setLastSlots m (tryStartProcessorsLoop queue st).
Proof.
  revert st. induction queue as [|item rest IH]; intros st; cbn [tryStartProcessorsLoop].
  - reflexivity.
  - cbn [processWorkers processConcurrency setLastSlots].
    destruct (processWorkers st <? processConcurrency st); [|reflexivity].
    rewrite <- IH. reflexivity.
Qed.

Lemma tryStartProcessors_lastSlots m st :
  tryStartProcessors (setLastSlots m st) = setLastSlots m (tryStartProcessors st).
Proof. apply tryStartProcessorsLoop_lastSlots. Qed.

Lemma attemptAdvanceFrom_lastSlots m advanced k st :
  attemptAdvanceFrom advanced k (setLastSlots m st) =
  setLastSlots m (attemptAdvanceFrom advanced k st).
Proof.
  unfold attemptAdvanceFrom, advanceOnce.
  cbn [lastSlot processedSlots setLastSlots].
  destruct (bool_decide _); [reflexivity|].
  destruct advanced; [|reflexivity].
  rewrite tryStartProcessors_lastSlots. reflexivity.
Qed.

Lemma fetchCatch_lastSlots m s msg st :
  fetchCatch s msg (setLastSlots m st) = setLastSlots m (fetchCatch s msg st).
Proof.
  unfold fetchCatch. destruct (skippedLike msg); [|reflexivity].
  rewrite <- attemptAdvanceFrom_lastSlots. reflexivity.
Qed.

Lemma step_lastSlots m ev st :
  step ev (setLastSlots m st) = setLastSlots m (step ev st).
Proof.
  destruct ev as [ty slot|i r|i outcome|i|i outcome|i];
    cbn [step tasks setLastSlots].
  - destruct (String.eqb ty "root"); [apply doFetch_lastSlots|reflexivity].
  - on_task st i ltac:(reflexivity).
    destruct r as [|blockData|msg]; cbn [getBlockSettled].
    + rewrite <- attemptAdvanceFrom_lastSlots. reflexivity.
    + transitivity
        (deleteInFlight s (tryStartProcessors (setLastSlots m
           (setProcessQueue (processQueue (removeTask i st) ++ [(s, blockData)])
              (removeTask i st))))); [reflexivity|].
      rewrite tryStartProcessors_lastSlots. reflexivity.
    + rewrite <- fetchCatch_lastSlots. reflexivity.
  - on_task st i ltac:(reflexivity).
    destruct outcome as [u|e]; [|reflexivity].
    rewrite <- attemptAdvanceFrom_lastSlots. reflexivity.
  - on_task st i ltac:(reflexivity).
    destruct k as [s|s|s b]; destruct o as [u|[msg]]; cbn [advanceReturned];
      try reflexivity.
    rewrite <- fetchCatch_lastSlots. reflexivity.
  - on_task st i ltac:(reflexivity).
    destruct outcome as [u|e]; cbn [processSettled]; [|reflexivity].
    rewrite <- attemptAdvanceFrom_lastSlots. reflexivity.
  - on_task st i ltac:(reflexivity).
    + rewrite <- doFetch_lastSlots. reflexivity.
    + transitivity
        (tryStartProcessors (setLastSlots m
           (setProcessQueue (processQueue (removeTask i st) ++ [(s, b)])
              (removeTask i st)))); [reflexivity|].
      apply tryStartProcessors_lastSlots.
Qed.

Lemma run_lastSlots m evs st :
  run evs (setLastSlots m st) = setLastSlots m (run evs st).
Proof.
  induction evs as [|ev evs IH] using rev_ind; [reflexivity|].
  rewrite !run_snoc, IH. apply step_lastSlots.
Qed.

(** *** The uninterrupted call, inside the state machine

    A call of [attemptAdvance] made by a handler, followed by the
    settlement of each of its writes and by nothing else, ends in the state
    [attemptAdvance] computes, with the caller ready to resume. *)

Lemma removeTask_suspend t st :
  removeTask (length (tasks st)) (suspend t st) = st.
Proof.
  unfold removeTask, suspend. destruct st as [a b c d e f g T h i j].
  cbn [tasks setTasks]. unfold setTasks. cbn.
  rewrite take_app_length.
  rewrite drop_ge by (rewrite length_app; cbn; lia).
  rewrite app_nil_r. reflexivity.
Qed.

Lemma attemptAdvanceLoop_as_run (k : Cont) (fuel : nat) (advanced : bool) (st : State)
  (adv' : bool) (st' : State) :
  attemptAdvanceLoop fuel advanced st = Some (adv', st') ->
  exists n,
    run (replicate n (SaveSettled (length (tasks st)) (Ok tt)))
      (attemptAdvanceFrom advanced k st) =
    suspend (AwaitAdvance k (Ok tt)) (if adv' then tryStartProcessors st' else st').
Proof.
  revert advanced st. induction fuel as [|fuel IH]; intros advanced st; [discriminate|].
  cbn [attemptAdvanceLoop]. unfold attemptAdvanceFrom.
  destruct (advanceOnce st) as [st1|] eqn:Hadv.
  - intros Hloop. destruct (IH true st1 Hloop) as [n Hrun].
    pose proof (advanceOnce_Some _ _ Hadv) as (_ & _ & _ & _ & _ & _ & _ & Htasks).
    exists (S n). cbn [replicate]. unfold run in *. cbn [fold_left].
    assert (Hstep : step (SaveSettled (length (tasks st)) (Ok tt)) (suspend (AwaitSave k) st1)
                    = attemptAdvanceFrom true k st1).
    { cbn [step]. rewrite <- Htasks.
      replace (tasks (suspend (AwaitSave k) st1) !! length (tasks st1))
        with (Some (AwaitSave k)).
      - rewrite removeTask_suspend. reflexivity.
      - cbn [suspend tasks setTasks]. symmetry.
        rewrite lookup_app_r by lia. rewrite Nat.sub_diag. reflexivity. }
    rewrite Hstep. rewrite <- Htasks. exact Hrun.
  - intros [= <- <-]. exists 0%nat. reflexivity.
Qed.

Lemma attemptAdvance_as_run (k : Cont) (st st' : State) :
  attemptAdvance st = Some st' ->
  exists n,
    run (replicate n (SaveSettled (length (tasks st)) (Ok tt)))
      (attemptAdvanceFrom false k st) =
    suspend (AwaitAdvance k (Ok tt)) st'.
Proof.
  unfold attemptAdvance.
  destruct (attemptAdvanceLoop (S (size (processedSlots st))) false st)
    as [[adv st1]|] eqn:Hloop; [|discriminate].
  intros [= <-]. apply (attemptAdvanceLoop_as_run k _ _ _ _ _ Hloop).
Qed.

(** *** Checkpoint advance *)


(** *** Startup *)

(** The persisted checkpoint is not the resume point: with a persisted
    checkpoint of 100 and the ledger tip at 500 the scheduler starts at 500,
    not at 100; it ignores slot 101, and its first save, once slot 501 is
    done, is 501. *)
Lemma startup_ignores_checkpoint :
  loadLastSlot Examples.checkpointFile !! "lastSlot"%string = Some 100
  /\ lastSlot (startBlockMonitorListener Examples.checkpointFile (Ok 500) 8) = 500
  /\ lastSlot (startBlockMonitorListener Examples.checkpointFile (Ok 500) 8) <> 100
  /\ doFetch 101 (startBlockMonitorListener Examples.checkpointFile (Ok 500) 8)
     = startBlockMonitorListener Examples.checkpointFile (Ok 500) 8
  /\ saveLastSlotCalls
       (run [SlotUpdate "root" 501; GetBlockSettled 0 BlockMissing]
          (startBlockMonitorListener Examples.checkpointFile (Ok 500) 8)) = [501].
Proof. repeat split; vm_compute; (reflexivity || discriminate). Qed.

(** C5, amended: on startup the scheduler reads the checkpoint file once,
    into [lastSlots], and never uses it: it starts from the current ledger
    tip whether or not a checkpoint is persisted, and from 0 when the tip
    cannot be read, and every later state is the one of a start without
    file, up to the unused [lastSlots]; thereafter the checkpoint only
    increases, and the values saved are exactly the slots it has advanced
    through, in order. *)
Theorem startup_from_tip (file : option (gmap string Z)) (getSlot : Result Z)
  (concurrency : Z) (evs more : list Event) :
  lastSlots (startBlockMonitorListener file getSlot concurrency) = default ∅ file
  /\ lastSlot (startBlockMonitorListener file getSlot concurrency) =
     match getSlot with Ok tip => tip | Throw _ => 0 end
  /\ run evs (startBlockMonitorListener file getSlot concurrency) =
     setLastSlots (default ∅ file)
       (run evs (startBlockMonitorListener None getSlot concurrency))
  /\ lastSlot (run evs (startBlockMonitorListener file getSlot concurrency))
     <= lastSlot (run (evs ++ more) (startBlockMonitorListener file getSlot concurrency))
  /\ saveLastSlotCalls (run evs (startBlockMonitorListener file getSlot concurrency)) =
     seqZ (lastSlot (startBlockMonitorListener file getSlot concurrency) + 1)
       (lastSlot (run evs (startBlockMonitorListener file getSlot concurrency))
        - lastSlot (startBlockMonitorListener file getSlot concurrency)).
Proof.
  split; [reflexivity|]. split; [reflexivity|]. split; [|split].
  - rewrite <- run_lastSlots. reflexivity.
  - rewrite run_app. apply run_monotone.
  - pose proof (run_consistent _ evs _ (start_consistent file getSlot concurrency)) as Hc.
    unfold consistentFrom, view in Hc. tauto.
Qed.

(** *** Fetch scheduling *)

(** [doFetch] starts a fetch exactly when the slot is above the checkpoint,
    not in flight and not processed; otherwise it changes nothing. *)
Lemma doFetch_guard (s : Z) (st : State) :
  (lastSlot st < s /\ (s ∉ inFlightFetches st) /\ processedSlots st !! s = None ->
   getBlockCalls (doFetch s st) = getBlockCalls st ++ [s]
   /\ inFlightFetches (doFetch s st) = {[s]} ∪ inFlightFetches st
   /\ tasks (doFetch s st) = tasks st ++ [AwaitGetBlock s])
  /\ (~ (lastSlot st < s /\ (s ∉ inFlightFetches st) /\ processedSlots st !! s = None) ->
      doFetch s st = st).
Proof.
  unfold doFetch.
  destruct (Z.leb_spec s (lastSlot st)) as [Hle|Hgt].
  { split; [lia|reflexivity]. }
  destruct (bool_decide_reflect (s ∈ inFlightFetches st)) as [Hin|Hnin]; cbn [orb].
  { split; [tauto|reflexivity]. }
  destruct (bool_decide_reflect (is_Some (processedSlots st !! s))) as [Hp|Hnp].
  { split; [|reflexivity]. intros (_ & _ & Hnone). rewrite Hnone in Hp.
    destruct Hp; discriminate. }
  split; [intros _; repeat split|].
  intros Hno. exfalso. apply Hno. repeat split; [lia|exact Hnin|].
  apply eq_None_not_Some. exact Hnp.
Qed.

Lemma classic_guard (s : Z) (st : State) :
  (lastSlot st < s /\ (s ∉ inFlightFetches st) /\ processedSlots st !! s = None)
  \/ ~ (lastSlot st < s /\ (s ∉ inFlightFetches st) /\ processedSlots st !! s = None).
Proof.
  destruct (decide (lastSlot st < s)) as [H1|H1]; [|right; tauto].
  destruct (decide (s ∈ inFlightFetches st)) as [H2|H2]; [right; tauto|].
  destruct (processedSlots st !! s) eqn:H3; [right|left; tauto].
  intros (_ & _ & Habs). discriminate.
Qed.

Lemma fetchesInFlight_snoc s t ts st :
  tasks st = ts ++ [t] ->
  fetchesInFlight s st =
  (length (filter (fun t => Is_true (isFetchOf s t)) ts)
   + if isFetchOf s t then 1 else 0)%nat.
Proof.
  intros Ht. unfold fetchesInFlight. rewrite Ht, filter_app, length_app.
  f_equal. rewrite filter_cons, filter_nil.
  destruct (isFetchOf s t); cbn; destruct (decide _); cbn; tauto.
Qed.

(** Two observations of the same eligible slot start one fetch. *)
Lemma doFetch_twice (s : Z) (st : State) :
  lastSlot st < s -> s ∉ inFlightFetches st -> processedSlots st !! s = None ->
  doFetch s (doFetch s st) = doFetch s st
  /\ getBlockCalls (doFetch s (doFetch s st)) = getBlockCalls st ++ [s]
  /\ fetchesInFlight s (doFetch s (doFetch s st)) = S (fetchesInFlight s st).
Proof.
  intros Hgt Hnin Hnone.
  destruct (proj1 (doFetch_guard s st) (conj Hgt (conj Hnin Hnone))) as (Hcalls & Hfl & Htasks).
  assert (Hsame : doFetch s (doFetch s st) = doFetch s st).
  { apply (proj2 (doFetch_guard s (doFetch s st))).
    intros (_ & Hnin' & _). apply Hnin'. rewrite Hfl.
    apply elem_of_union_l, elem_of_singleton. reflexivity. }
  rewrite Hsame. split; [reflexivity|]. split; [exact Hcalls|].
  rewrite (fetchesInFlight_snoc s _ _ _ Htasks). cbn [isFetchOf].
  rewrite bool_decide_eq_true_2 by reflexivity. unfold fetchesInFlight. lia.
Qed.

(** X23: [doFetch] is idempotent: observing a slot twice in a row is
    observing it once. *)
Lemma doFetch_idempotent (s : Z) (st : State) :
  doFetch s (doFetch s st) = doFetch s st.
Proof.
  destruct (classic_guard s st) as [(Hgt & Hnin & Hnone)|Hg].
  - apply (doFetch_twice s st Hgt Hnin Hnone).
  - rewrite !(proj2 (doFetch_guard s st) Hg). reflexivity.
Qed.

(** *** Without the retry path, one fetch per slot *)

Lemma tryStartProcessorsLoop_pool queue st :
  exists extra,
    tasks (tryStartProcessorsLoop queue st) = tasks st ++ extra
    /\ omap fetchOwner extra = []
    /\ Forall (fun t => isRetry t = false) extra.
Proof.
  revert st. induction queue as [|item rest IH]; intros st; cbn [tryStartProcessorsLoop].
  - exists []. rewrite app_nil_r. repeat split. constructor.
  - destruct (processWorkers st <? processConcurrency st).
    + destruct (IH (processBlock (fst item) (snd item) st)) as (extra & Ht & Ho & Hr).
      exists (Processing (fst item) (snd item) :: extra).
      rewrite Ht. cbn [processBlock suspend tasks setTasks setProcessWorkers].
      rewrite <- app_assoc. split; [reflexivity|]. split; [exact Ho|].
      constructor; [reflexivity|exact Hr].
    + exists []. rewrite app_nil_r. repeat split. constructor.
Qed.

Lemma attemptAdvanceFrom_pool advanced k st :
  exists added,
    tasks (attemptAdvanceFrom advanced k st) = tasks st ++ added
    /\ omap fetchOwner added = omap fetchOwner [AwaitSave k]
    /\ Forall (fun t => isRetry t = false) added
    /\ inFlightFetches (attemptAdvanceFrom advanced k st) = inFlightFetches st.
Proof.
  unfold attemptAdvanceFrom.
  destruct (advanceOnce st) as [st'|] eqn:Hadv.
  - apply advanceOnce_Some in Hadv as (_ & _ & _ & _ & _ & Hfl & _ & Htasks).
    exists [AwaitSave k]. cbn [suspend tasks setTasks inFlightFetches].
    rewrite Htasks, Hfl. repeat split. constructor; [reflexivity|constructor].
  - assert (Hpool : exists extra,
               tasks (if advanced then tryStartProcessors st else st) = tasks st ++ extra
               /\ omap fetchOwner extra = []
               /\ Forall (fun t => isRetry t = false) extra
               /\ inFlightFetches (if advanced then tryStartProcessors st else st)
                  = inFlightFetches st).
    { destruct advanced.
      - destruct (tryStartProcessorsLoop_pool (processQueue st) st) as (extra & Ht & Ho & Hr).
        exists extra. repeat split; try assumption. apply tryStartProcessors_frame.
      - exists []. rewrite app_nil_r. repeat split. constructor. }
    destruct Hpool as (extra & Ht & Ho & Hr & Hfl).
    exists (extra ++ [AwaitAdvance k (Ok tt)]).
    cbn [suspend tasks setTasks inFlightFetches]. rewrite Ht, Hfl, app_assoc.
    split; [reflexivity|]. split.
    + rewrite omap_app, Ho. destruct k; reflexivity.
    + split; [|reflexivity]. apply Forall_app. split; [exact Hr|].
      constructor; [destruct k; reflexivity|constructor].
Qed.

(** Taking a task out of the pool keeps the owners distinct and frees the
    slot of the task. *)
Lemma owners_remove (pool : list Task) (i : nat) (t : Task) :
  pool !! i = Some t ->
  NoDup (omap fetchOwner pool) ->
  NoDup (omap fetchOwner (take i pool ++ drop (S i) pool))
  /\ (forall s, s ∈ omap fetchOwner (take i pool ++ drop (S i) pool) ->
                s ∈ omap fetchOwner pool)
  /\ (forall s, fetchOwner t = Some s ->
                s ∉ omap fetchOwner (take i pool ++ drop (S i) pool)).
Proof.
  intros Hi Hnd. rewrite <- (take_drop_middle pool i t Hi) in Hnd at 1.
  rewrite omap_app in *. 
  assert (Hmid : omap fetchOwner (t :: drop (S i) pool) =
                 match fetchOwner t with Some s => [s] | None => [] end
                 ++ omap fetchOwner (drop (S i) pool)).
  { cbn. destruct (fetchOwner t); reflexivity. }
  rewrite Hmid in Hnd.
  apply NoDup_app in Hnd as (Hnd1 & Hdisj & Hnd2).
  apply NoDup_app in Hnd2 as (_ & Hdisj2 & Hnd3).
  split; [|split].
  - apply NoDup_app. split; [exact Hnd1|]. split; [|exact Hnd3].
    intros s Hs. specialize (Hdisj s Hs). intros Hs'. apply Hdisj.
    apply elem_of_app. right. exact Hs'.
  - intros s Hs. rewrite <- (take_drop_middle pool i t Hi), omap_app, Hmid.
    apply elem_of_app in Hs as [Hs|Hs]; apply elem_of_app; [left; exact Hs|right].
    apply elem_of_app. right. exact Hs.
  - intros s Hown Hs. rewrite Hown in *.
    apply elem_of_app in Hs as [Hs|Hs].
    + apply (Hdisj s Hs). apply elem_of_app. left. left.
    + apply (Hdisj2 s); [left|exact Hs].
Qed.

(** The two ways a resumed task leaves the pool: its [doFetch] goes on
    (the tasks added own at most the slot of the resumed task, and the
    in-flight set is unchanged), or its [doFetch] ends (no owner is added,
    and the slot leaves the in-flight set). *)
Lemma dedup_continue st st' i t added :
  dedupInvariant st ->
  tasks st !! i = Some t ->
  tasks st' = (take i (tasks st) ++ drop (S i) (tasks st)) ++ added ->
  NoDup (omap fetchOwner added) ->
  (forall s, s ∈ omap fetchOwner added -> fetchOwner t = Some s) ->
  Forall (fun t => isRetry t = false) added ->
  inFlightFetches st' = inFlightFetches st ->
  dedupInvariant st'.
Proof.
  intros (Hnd & Hin & Hretry) Hi Htasks Hnda Hown Hra Hfl.
  destruct (owners_remove _ _ _ Hi Hnd) as (Hnd' & Hsub & Hfree).
  unfold dedupInvariant, fetchOwners. rewrite Htasks, Hfl, omap_app.
  split; [|split].
  - apply NoDup_app. split; [exact Hnd'|]. split; [|exact Hnda].
    intros s Hs Hs'. apply (Hfree s (Hown s Hs') Hs).
  - intros s Hs. apply Hin. apply elem_of_app in Hs as [Hs|Hs].
    + apply Hsub. exact Hs.
    + unfold fetchOwners. apply list_elem_of_omap. exists t.
      split; [|apply Hown; exact Hs]. apply list_elem_of_lookup. exists i. exact Hi.
  - apply Forall_app. split; [|exact Hra].
    rewrite <- (take_drop_middle _ _ _ Hi) in Hretry.
    apply Forall_app in Hretry as [H1 H2]. apply Forall_cons in H2 as [_ H2].
    apply Forall_app. split; assumption.
Qed.

Lemma dedup_release st st' i t s added :
  dedupInvariant st ->
  tasks st !! i = Some t ->
  fetchOwner t = Some s ->
  tasks st' = (take i (tasks st) ++ drop (S i) (tasks st)) ++ added ->
  omap fetchOwner added = [] ->
  Forall (fun t => isRetry t = false) added ->
  inFlightFetches st' = inFlightFetches st ∖ {[s]} ->
  dedupInvariant st'.
Proof.
  intros (Hnd & Hin & Hretry) Hi Hs Htasks Hnone Hra Hfl.
  destruct (owners_remove _ _ _ Hi Hnd) as (Hnd' & Hsub & Hfree).
  unfold dedupInvariant, fetchOwners. rewrite Htasks, Hfl, omap_app, Hnone, app_nil_r.
  split; [exact Hnd'|]. split.
  - intros s' Hs'. apply elem_of_difference. split; [apply Hin, Hsub, Hs'|].
    intros Heq. apply elem_of_singleton in Heq. subst s'. exact (Hfree s Hs Hs').
  - apply Forall_app. split; [|exact Hra].
    rewrite <- (take_drop_middle _ _ _ Hi) in Hretry.
    apply Forall_app in Hretry as [H1 H2]. apply Forall_cons in H2 as [_ H2].
    apply Forall_app. split; assumption.
Qed.

Lemma doFetch_dedup s st : dedupInvariant st -> dedupInvariant (doFetch s st).
Proof.
  intros Hinv.
  destruct (classic_guard s st) as [Hg|Hg].
  - destruct (proj1 (doFetch_guard s st) Hg) as (_ & Hfl & Htasks).
    destruct Hg as (_ & Hnin & _). destruct Hinv as (Hnd & Hin & Hretry).
    unfold dedupInvariant, fetchOwners. rewrite Htasks, Hfl, omap_app.
    change (omap fetchOwner [AwaitGetBlock s]) with [s].
    split; [|split].
    + apply NoDup_app. split; [exact Hnd|]. split; [|apply NoDup_singleton].
      intros s' Hs' Heq. apply list_elem_of_singleton in Heq. subst s'.
      apply Hnin, Hin, Hs'.
    + intros s' Hs'. apply elem_of_app in Hs' as [Hs'|Hs'].
      * apply elem_of_union_r, Hin, Hs'.
      * apply list_elem_of_singleton in Hs'. subst s'.
        apply elem_of_union_l, elem_of_singleton. reflexivity.
    + apply Forall_app. split; [exact Hretry|]. constructor; [reflexivity|constructor].
  - rewrite (proj2 (doFetch_guard s st) Hg). exact Hinv.
Qed.

Lemma not_retry st i t :
  dedupInvariant st -> tasks st !! i = Some t -> isRetry t = false.
Proof.
  intros (_ & _ & Hretry) Hi. rewrite Forall_lookup in Hretry. exact (Hretry i t Hi).
Qed.

Lemma attemptAdvanceFrom_dedup st i t advanced k st1 :
  dedupInvariant st ->
  tasks st !! i = Some t ->
  tasks st1 = take i (tasks st) ++ drop (S i) (tasks st) ->
  inFlightFetches st1 = inFlightFetches st ->
  (forall s, fetchOwner (AwaitSave k) = Some s -> fetchOwner t = Some s) ->
  dedupInvariant (attemptAdvanceFrom advanced k st1).
Proof.
  intros Hinv Hi Htasks Hfl Hown.
  destruct (attemptAdvanceFrom_pool advanced k st1) as (added & Ht & Ho & Hr & Hfl').
  apply (dedup_continue st _ i t added Hinv Hi).
  - rewrite Ht, Htasks. reflexivity.
  - rewrite Ho. destruct k; cbn; try apply NoDup_singleton; constructor.
  - intros s Hs. rewrite Ho in Hs. apply Hown.
    destruct k; cbn in Hs |- *; try (apply list_elem_of_singleton in Hs; congruence);
      inversion Hs.
  - exact Hr.
  - rewrite Hfl'. exact Hfl.
Qed.

Lemma tryStartProcessors_dedup st i t st1 :
  dedupInvariant st ->
  tasks st !! i = Some t ->
  tasks st1 = take i (tasks st) ++ drop (S i) (tasks st) ->
  inFlightFetches st1 = inFlightFetches st ->
  dedupInvariant (tryStartProcessors st1).
Proof.
  intros Hinv Hi Htasks Hfl.
  destruct (tryStartProcessorsLoop_pool (processQueue st1) st1) as (extra & Ht & Ho & Hr).
  apply (dedup_continue st _ i t extra Hinv Hi).
  - unfold tryStartProcessors. rewrite Ht, Htasks. reflexivity.
  - rewrite Ho. constructor.
  - intros s Hs. rewrite Ho in Hs. inversion Hs.
  - exact Hr.
  - rewrite (proj1 (proj2 (tryStartProcessors_frame st1))). exact Hfl.
Qed.

(** Every transition that stays off the retry path keeps the invariant. *)
Lemma step_dedup (ev : Event) (st : State) :
  noRetry ev -> dedupInvariant st -> dedupInvariant (step ev st).
Proof.
  intros Hev Hinv.
  destruct ev as [ty slot|i r|i outcome|i|i outcome|i]; cbn [step].
  - destruct (String.eqb ty "root"); [apply doFetch_dedup|]; exact Hinv.
  - destruct (tasks st !! i) as [t|] eqn:Hi; [|exact Hinv].
    destruct t as [s|k|k o|s b|s|s b]; try exact Hinv.
    destruct r as [|blockData|msg]; cbn [getBlockSettled].
    + apply (attemptAdvanceFrom_dedup st i _ _ _ _ Hinv Hi); [reflexivity|reflexivity|].
      intros s' [= <-]. reflexivity.
    + destruct (tryStartProcessorsLoop_pool
                  (processQueue (removeTask i st) ++ [(s, blockData)])
                  (setProcessQueue (processQueue (removeTask i st) ++ [(s, blockData)])
                     (removeTask i st))) as (extra & Ht & Ho & Hr).
      apply (dedup_release st _ i _ s extra Hinv Hi); [reflexivity| | exact Ho | exact Hr |].
      * cbn [deleteInFlight tasks setInFlightFetches]. exact Ht.
      * cbn [deleteInFlight inFlightFetches setInFlightFetches].
        rewrite (proj1 (proj2 (tryStartProcessors_frame _))). reflexivity.
    + cbn [noRetry] in Hev. unfold fetchCatch. rewrite Hev.
      apply (attemptAdvanceFrom_dedup st i _ _ _ _ Hinv Hi); [reflexivity|reflexivity|].
      intros s' [= <-]. reflexivity.
  - destruct (tasks st !! i) as [t|] eqn:Hi; [|exact Hinv].
    destruct t as [s|k|k o|s b|s|s b]; try exact Hinv.
    destruct outcome as [u|e]; [|destruct Hev].
    apply (attemptAdvanceFrom_dedup st i _ _ _ _ Hinv Hi); [reflexivity|reflexivity|].
    intros s' Hs'. exact Hs'.
  - destruct (tasks st !! i) as [t|] eqn:Hi; [|exact Hinv].
    destruct t as [s|k|k o|s b|s|s b]; try exact Hinv.
    pose proof (not_retry _ _ _ Hinv Hi) as Hnr.
    destruct k as [s|s|s b]; destruct o as [u|[msg]]; cbn [advanceReturned];
      try discriminate Hnr.
    + apply (dedup_release st _ i _ s [] Hinv Hi); try reflexivity; [|constructor].
      cbn [deleteInFlight tasks setInFlightFetches removeTask setTasks].
      rewrite app_nil_r. reflexivity.
    + apply (dedup_release st _ i _ s [] Hinv Hi); try reflexivity; [|constructor].
      cbn [deleteInFlight tasks setInFlightFetches removeTask setTasks].
      rewrite app_nil_r. reflexivity.
    + apply (dedup_release st _ i _ s [] Hinv Hi); try reflexivity; [|constructor].
      cbn [deleteInFlight tasks setInFlightFetches removeTask setTasks].
      rewrite app_nil_r. reflexivity.
    + apply (dedup_continue st _ i _ [] Hinv Hi); try reflexivity; try constructor.
      * cbn [setProcessWorkers tasks removeTask setTasks]. rewrite app_nil_r. reflexivity.
      * intros s' Hs'. inversion Hs'.
    + apply (dedup_continue st _ i _ [RequeueTimer s b] Hinv Hi);
        try reflexivity; try constructor; try constructor.
      intros s' Hs'. inversion Hs'.
  - destruct (tasks st !! i) as [t|] eqn:Hi; [|exact Hinv].
    destruct t as [s|k|k o|s b|s|s b]; try exact Hinv.
    destruct outcome as [u|e]; cbn [processSettled].
    + apply (attemptAdvanceFrom_dedup st i _ _ _ _ Hinv Hi); [reflexivity|reflexivity|].
      intros s' Hs'. discriminate Hs'.
    + apply (dedup_continue st _ i _ [RequeueTimer s b] Hinv Hi);
        try reflexivity; try constructor; try constructor.
      intros s' Hs'. inversion Hs'.
  - destruct (tasks st !! i) as [t|] eqn:Hi; [|exact Hinv].
    pose proof (not_retry _ _ _ Hinv Hi) as Hnr.
    destruct t as [s|k|k o|s b|s|s b]; try exact Hinv; [discriminate Hnr|].
    apply (tryStartProcessors_dedup st i _ _ Hinv Hi); reflexivity.
Qed.

Lemma run_dedup (evs : list Event) (st : State) :
  Forall noRetry evs -> dedupInvariant st -> dedupInvariant (run evs st).
Proof.
  intros Hevs Hst. induction evs as [|ev evs IH] using rev_ind; [exact Hst|].
  apply Forall_app in Hevs as [Hevs Hev]. apply Forall_cons in Hev as [Hev _].
  rewrite run_snoc. apply step_dedup; [exact Hev|]. apply IH. exact Hevs.
Qed.

Lemma start_dedup file getSlot concurrency :
  dedupInvariant (startBlockMonitorListener file getSlot concurrency).
Proof.
  unfold dedupInvariant, fetchOwners. cbn.
  split; [apply NoDup_nil_2|]. split; [intros s Hs; inversion Hs|constructor].
Qed.

Lemma count_in_NoDup (s : Z) (l : list Z) :
  NoDup l -> (length (filter (fun x => x = s) l) <= 1)%nat.
Proof.
  induction 1 as [|x l Hx Hnd IH]; [cbn; lia|].
  rewrite filter_cons. destruct (decide (x = s)) as [->|Hne]; [|exact IH].
  cbn [length]. 
  assert (Hnone : filter (fun x => x = s) l = []).
  { destruct (filter (fun x => x = s) l) as [|y l'] eqn:Hf; [reflexivity|].
    assert (Hy : y ∈ filter (fun x => x = s) l) by (rewrite Hf; left).
    apply list_elem_of_filter in Hy as [-> Hy]. contradiction. }
  rewrite Hnone. cbn. lia.
Qed.

Lemma fetches_le_owners (s : Z) (pool : list Task) :
  (length (filter (fun t => Is_true (isFetchOf s t)) pool)
   <= length (filter (fun x => x = s) (omap fetchOwner pool)))%nat.
Proof.
  induction pool as [|t pool IH]; [cbn; lia|].
  rewrite filter_cons.
  destruct t as [s'|k|k o|s' b|s'|s' b]; cbn [isFetchOf];
    try (destruct (decide (Is_true false)) as [[]|_];
         cbn [omap list_omap fetchOwner]; repeat case_match;
         rewrite ?filter_cons; repeat case_decide; cbn [length]; lia).
  cbn [omap list_omap fetchOwner]. rewrite filter_cons.
  destruct (bool_decide_reflect (s' = s)) as [->|Hne].
  - destruct (decide (Is_true true)) as [_|Hn]; [|exfalso; apply Hn; exact I].
    destruct (decide (s = s)) as [_|Hn]; [|congruence]. cbn [length]. lia.
  - destruct (decide (Is_true false)) as [[]|_].
    destruct (decide (s' = s)) as [Heq|_]; [congruence|]. exact IH.
Qed.

(** X22: on every run from startup that stays off the retry path, at most
    one fetch of any slot is in flight, and a slot with a fetch in flight
    is in the in-flight set. *)
Lemma one_fetch_without_retry file getSlot concurrency (evs : list Event) (s : Z) :
  Forall noRetry evs ->
  (fetchesInFlight s (run evs (startBlockMonitorListener file getSlot concurrency)) <= 1)%nat
  /\ ((0 < fetchesInFlight s (run evs (startBlockMonitorListener file getSlot concurrency)))%nat ->
      s ∈ inFlightFetches (run evs (startBlockMonitorListener file getSlot concurrency))).
Proof.
  intros Hevs.
  pose proof (run_dedup evs _ Hevs (start_dedup file getSlot concurrency)) as (Hnd & Hin & _).
  set (st := run evs (startBlockMonitorListener file getSlot concurrency)) in *.
  pose proof (fetches_le_owners s (tasks st)) as Hle.
  pose proof (count_in_NoDup s _ Hnd) as Hone.
  unfold fetchesInFlight. split; [unfold fetchOwners in Hone; lia|].
  intros Hpos. apply Hin. unfold fetchOwners.
  assert (Hex : exists x, x ∈ filter (fun x => x = s) (omap fetchOwner (tasks st))).
  { destruct (filter (fun x => x = s) (omap fetchOwner (tasks st))) as [|x l] eqn:Hf.
    - cbn in Hle. lia.
    - exists x. left. }
  destruct Hex as [x Hx]. apply list_elem_of_filter in Hx as [-> Hx]. exact Hx.
Qed.

(** C6, at the run [Examples.retryRace]: after a rejected fetch of slot 7
    the retry timer removes 7 from the in-flight set although a second
    fetch of slot 7 is pending, and then starts a third: two fetches of
    slot 7 are in flight at once, out of three calls to the provider. *)
Theorem duplicate_fetch_after_retry :
  tasks (run (take 2 Examples.retryRace) Examples.startedAt4) = [RefetchTimer 7]
  /\ inFlightFetches (run (take 2 Examples.retryRace) Examples.startedAt4) = ∅
  /\ tasks (run (take 3 Examples.retryRace) Examples.startedAt4)
     = [RefetchTimer 7; AwaitGetBlock 7]
  /\ tasks (run Examples.retryRace Examples.startedAt4)
     = [AwaitGetBlock 7; AwaitGetBlock 7]
  /\ fetchesInFlight 7 (run Examples.retryRace Examples.startedAt4) = 2%nat
  /\ getBlockCalls (run Examples.retryRace Examples.startedAt4) = [7; 7; 7].
Proof. repeat split; vm_compute; reflexivity. Qed.

End SchedulerFacts.

(** ** Further properties: numbers *)

Section Magnitude.

Import JSNumber.

Lemma Zdigits2_mono (a b : Z) : 0 < a -> a <= b -> Zdigits2 a <= Zdigits2 b.
Proof.
  intros Ha Hab. destruct (Zdigits2_bounds a Ha) as (Hd & Hlo & _).
  apply Zdigits2_ge; lia.
Qed.

(** Rounding a positive mantissa that is not below the smallest positive
    number gives a finite number or an infinity of the same sign, and does
    not lower the magnitude: the position of the leading digit. *)
Lemma binary_round_aux_magnitude (sx : bool) (mx ex : Z) (lx : location) :
  0 < mx -> ex <= fexp prec emax (Zdigits2 mx + ex) -> -1074 < Zdigits2 mx + ex ->
  match binary_round_aux prec emax sx mx ex lx with
  | S754_finite s m e => s = sx /\ Zdigits2 mx + ex <= Zdigits2 (Zpos m) + e
  | S754_infinity s => s = sx
  | _ => False
  end.
Proof.
  intros Hmx Hex Hmag. unfold binary_round_aux.
  destruct (shr_fexp_m mx ex lx ltac:(lia) Hex) as [He1 Hm1].
  destruct (shr_fexp prec emax mx ex lx) as [mrs1 e1]. cbn [fst snd] in He1, Hm1.
  set (r := round_nearest_even (shr_m mrs1) (loc_of_shr_record mrs1)).
  set (d := Zdigits2 mx) in *.
  assert (Hsh1 : 0 <= e1 - ex < d).
  { rewrite He1. unfold fexp, emin, prec, emax in *. lia. }
  rewrite <- He1 in Hm1.
  destruct (Zdigits2_shiftr mx (e1 - ex) Hmx ltac:(lia) ltac:(lia)) as [Hm1pos Hd1].
  rewrite <- Hm1 in Hm1pos, Hd1. fold d in Hd1.
  assert (Hr : shr_m mrs1 <= r).
  { unfold r. destruct (round_nearest_even_cases (shr_m mrs1) (loc_of_shr_record mrs1))
      as [->| ->]; lia. }
  assert (Hdr : d - (e1 - ex) <= Zdigits2 r).
  { rewrite <- Hd1. apply Zdigits2_mono; assumption. }
  assert (Hpre : e1 <= fexp prec emax (Zdigits2 r + e1)).
  { rewrite He1 at 1. apply fexp_mono. lia. }
  destruct (shr_fexp_m r e1 loc_Exact ltac:(lia) Hpre) as [He2 Hm2].
  destruct (shr_fexp prec emax r e1 loc_Exact) as [mrs2 e2]. cbn [fst snd] in He2, Hm2.
  assert (He1min : -1074 <= e1) by (rewrite He1; unfold fexp, emin, prec, emax; lia).
  assert (Hdrpos : 0 < Zdigits2 r) by (apply Zdigits2_bounds; lia).
  assert (Hsh2 : 0 <= e2 - e1 < Zdigits2 r).
  { rewrite He2. unfold fexp, emin, prec, emax in *. lia. }
  rewrite <- He2 in Hm2.
  destruct (Zdigits2_shiftr r (e2 - e1) ltac:(lia) ltac:(lia) ltac:(lia)) as [Hm2pos Hd2].
  rewrite <- Hm2 in Hm2pos, Hd2.
  destruct (shr_m mrs2) as [|m2|m2] eqn:Hm; [lia| |lia].
  destruct (e2 <=? emax - prec); [|reflexivity].
  split; [reflexivity|]. rewrite Hd2. lia.
Qed.

Lemma binary_round_magnitude (sx : bool) (mx : positive) (ex : Z) :
  -1074 < Zdigits2 (Zpos mx) + ex ->
  match binary_round prec emax sx mx ex with
  | S754_finite s m e => s = sx /\ Zdigits2 (Zpos mx) + ex <= Zdigits2 (Zpos m) + e
  | S754_infinity s => s = sx
  | _ => False
  end.
Proof.
  intros Hmag. unfold binary_round, shl_align. cbn [Zdigits2] in Hmag.
  destruct (fexp prec emax (Zpos (digits2_pos mx) + ex) - ex) as [|d|d] eqn:Hd.
  - apply binary_round_aux_magnitude; cbn [Zdigits2]; lia.
  - apply binary_round_aux_magnitude; cbn [Zdigits2]; lia.
  - pose proof (binary_round_aux_magnitude sx (Zpos (shift_pos d mx))
                  (fexp prec emax (Zpos (digits2_pos mx) + ex)) loc_Exact) as H.
    unfold shift_pos in *. cbn [Zdigits2] in *. rewrite digits2_pos_iter_xO in H.
    replace (Zpos (digits2_pos mx) + Zpos d + fexp prec emax (Zpos (digits2_pos mx) + ex))
      with (Zpos (digits2_pos mx) + ex) in H by lia.
    apply H; lia.
Qed.

(** [Number(n)] of a positive integer is positive, and at least 1/2. *)
Lemma ofZ_positive (z : Z) :
  0 < z ->
  match ofZ z with
  | S754_finite s m e => s = false /\ 1 <= Zdigits2 (Zpos m) + e
  | S754_infinity s => s = false
  | _ => False
  end.
Proof.
  intros Hz. destruct z as [|p|p]; try lia. unfold ofZ. cbn [binary_normalize].
  pose proof (binary_round_magnitude false p 0) as H.
  assert (Hd : 0 < Zdigits2 (Zpos p)) by (apply Zdigits2_bounds; lia).
  specialize (H ltac:(lia)).
  destruct (binary_round prec emax false p 0) as [s|s| |s m e]; try exact H.
  destruct H as [Hs Hm]. split; [exact Hs|lia].
Qed.

(** The quotient of the division is positive and keeps the magnitude of
    the exact quotient, unless that is below the normal range. *)
Lemma SFdiv_core_binary_magnitude (m1 m2 : positive) (e1 e2 : Z) :
  -1021 <= Zdigits2 (Zpos m1) + e1 - (Zdigits2 (Zpos m2) + e2) ->
  let '(q, e', l) := SFdiv_core_binary prec emax (Zpos m1) e1 (Zpos m2) e2 in
  0 < q /\ e' <= fexp prec emax (Zdigits2 q + e')
  /\ Zdigits2 (Zpos m1) + e1 - (Zdigits2 (Zpos m2) + e2) <= Zdigits2 q + e'.
Proof.
  intros HX.
  pose proof (SFdiv_core_binary_pre m1 m2 e1 e2) as Hpre.
  unfold SFdiv_core_binary in *.
  set (d1 := Zdigits2 (Zpos m1)) in *. set (d2 := Zdigits2 (Zpos m2)) in *.
  set (X := d1 + e1 - (d2 + e2)) in *.
  set (e' := Z.min (fexp prec emax X) (e1 - e2)) in *.
  set (s := e1 - e2 - e') in *.
  assert (Hs : 0 <= s) by (unfold s, e'; lia).
  set (m' := match s with Zpos _ => Z.shiftl (Zpos m1) s | Z0 => Zpos m1 | Zneg _ => 0 end) in *.
  assert (Hm' : m' = Zpos m1 * 2 ^ s).
  { unfold m'. destruct s as [|p|p] eqn:Hsp; [cbn; lia| |lia].
    rewrite Z.shiftl_mul_pow2 by lia. reflexivity. }
  destruct (Z.div_eucl m' (Zpos m2)) as [q r] eqn:Hdiv.
  destruct Hpre as [_ Hpre].
  assert (Hq : q = m' / Zpos m2).
  { unfold Z.div. rewrite Hdiv. reflexivity. }
  destruct (Zdigits2_bounds (Zpos m1) ltac:(lia)) as (Hd1 & Hlo1 & _).
  destruct (Zdigits2_bounds (Zpos m2) ltac:(lia)) as (Hd2 & _ & Hhi2).
  fold d1 in Hd1, Hlo1. fold d2 in Hd2, Hhi2.
  assert (Hps : 0 < 2 ^ s) by (apply Z.pow_pos_nonneg; lia).
  assert (Hbig : 0 < d1 - d2 + s).
  { unfold s, e', X, fexp, emin, prec, emax in *. lia. }
  assert (Hlow : 2 ^ (d1 - d2 + s - 1) <= q).
  { rewrite Hq, Hm'. apply Z.div_le_lower_bound; [lia|].
    apply (Z.le_trans _ (2 ^ d2 * 2 ^ (d1 - d2 + s - 1))).
    - apply Z.mul_le_mono_nonneg_r; [apply Z.pow_nonneg; lia|lia].
    - rewrite <- Z.pow_add_r by lia.
      replace (d2 + (d1 - d2 + s - 1)) with ((d1 - 1) + s) by lia.
      rewrite Z.pow_add_r by lia.
      apply Z.mul_le_mono_nonneg_r; [lia|exact Hlo1]. }
  assert (Hqpos : 0 < q).
  { apply (Z.lt_le_trans _ (2 ^ (d1 - d2 + s - 1))); [apply Z.pow_pos_nonneg; lia|exact Hlow]. }
  assert (Hdq : d1 - d2 + s <= Zdigits2 q) by (apply Zdigits2_ge; lia).
  split; [exact Hqpos|]. split; [exact Hpre|]. unfold X, s in *. lia.
Qed.

(** An amount in base units of at least one gives a strictly positive
    amount in display units. *)
Lemma amount_positive (big : Z) :
  0 < big ->
  gt (div (ofZ big) BlockParser.LAMPORTS_PER_SOL) (ofZ 0) = true.
Proof.
  intros Hbig. pose proof (ofZ_positive big Hbig) as Hx.
  assert (Hden : BlockParser.LAMPORTS_PER_SOL = S754_finite false 8388608000000000 (-23))
    by (vm_compute; reflexivity).
  rewrite Hden. unfold div.
  destruct (ofZ big) as [s|s| |s m e]; try contradiction.
  - subst s. reflexivity.
  - destruct Hx as [-> Hm]. cbn [SFdiv xorb].
    assert (Hd2 : Zdigits2 (Zpos 8388608000000000) + -23 = 30) by (vm_compute; reflexivity).
    pose proof (SFdiv_core_binary_magnitude m 8388608000000000 e (-23) ltac:(lia)) as Hq.
    destruct (SFdiv_core_binary prec emax (Zpos m) e (Zpos 8388608000000000) (-23))
      as [[q e'] l].
    destruct Hq as (Hqpos & Hpre & Hmag).
    pose proof (binary_round_aux_magnitude false q e' l Hqpos Hpre ltac:(lia)) as Hr.
    destruct (binary_round_aux prec emax false q e' l) as [s|s| |s m' e'']; try contradiction.
    + subst s. reflexivity.
    + destruct Hr as [-> _]. reflexivity.
Qed.

End Magnitude.

(** ** Further properties: ranges *)

Section RangeComposition.

Import JSString JSNumber Ranges.

Lemma split_nonempty (sep : ascii) (s : string) : split sep s <> [].
Proof.
  destruct s as [|c s]; cbn [split]; [discriminate|].
  destruct (Ascii.eqb c sep); [discriminate|].
  destruct (split sep s); discriminate.
Qed.

(** Splitting at a separator splits the two sides of it. *)
Lemma split_app (sep : ascii) (a b : string) :
  split sep (a +:+ String sep b) = split sep a ++ split sep b.
Proof.
  induction a as [|c a IH].
  - change ("" +:+ String sep b) with (String sep b).
    cbn [split app]. rewrite Ascii.eqb_refl. reflexivity.
  - change (String c a +:+ String sep b) with (String c (a +:+ String sep b)).
    cbn [split]. rewrite IH.
    destruct (Ascii.eqb c sep); [reflexivity|].
    pose proof (split_nonempty sep a) as Hne.
    destruct (split sep a) as [|t ts]; [contradiction|]. reflexivity.
Qed.

Lemma parseRanges_app (a b : string) :
  parseRanges (Some (a +:+ String "," b)) = parseRanges (Some a) ++ parseRanges (Some b).
Proof.
  rewrite !parseRanges_pipeline, split_app, map_app, filter_app, omap_app.
  reflexivity.
Qed.

Lemma amountMatchesRanges_app (x : number) (rs1 rs2 : list Range) :
  amountMatchesRanges x (rs1 ++ rs2) =
  amountMatchesRanges x rs1 || amountMatchesRanges x rs2.
Proof.
  induction rs1 as [|r rs1 IH]; [reflexivity|].
  cbn [app amountMatchesRanges].
  destruct (ge x (min r) && le x (max r)); [reflexivity|exact IH].
Qed.

(** X1: a comma in the configured text is an "or".  The ranges of
    [a + "," + b] are the ranges of [a] followed by the ranges of [b], and
    an amount matches them exactly when it matches the ranges of [a] or the
    ranges of [b]. *)
Theorem parseRanges_comma (a b : string) :
  parseRanges (Some (a +:+ String "," b)) = parseRanges (Some a) ++ parseRanges (Some b)
  /\ (forall x : number,
        amountMatchesRanges x (parseRanges (Some (a +:+ String "," b))) =
        amountMatchesRanges x (parseRanges (Some a))
        || amountMatchesRanges x (parseRanges (Some b))).
Proof.
  split; [apply parseRanges_app|].
  intros x. rewrite parseRanges_app. apply amountMatchesRanges_app.
Qed.

(** X2: whatever the configured text, neither bound of a range that
    [parseRanges] returns is NaN, and both are well-formed numbers. *)
Theorem parseRanges_bounds (rangeStr : option string) :
  Forall (fun r => isNaN (min r) = false /\ isNaN (max r) = false
                   /\ valid (min r) = true /\ valid (max r) = true)
    (parseRanges rangeStr).
Proof.
  eapply Forall_impl; [apply parseRanges_exact|].
  intros r [[Hvlo [lo Hlo]] [Hvhi [hi Hhi]]].
  repeat split; try assumption.
  - destruct (min r); try reflexivity. discriminate Hlo.
  - destruct (max r); try reflexivity. discriminate Hhi.
Qed.

(** X3: the answer of the matcher does not depend on the order of the
    ranges, and over two lists put together it is the "or" of the two
    answers. *)
Theorem amountMatchesRanges_order (x : number) :
  (forall rs1 rs2 : list Range,
      amountMatchesRanges x (rs1 ++ rs2) =
      amountMatchesRanges x rs1 || amountMatchesRanges x rs2)
  /\ (forall rs rs' : list Range,
        rs ≡ₚ rs' -> amountMatchesRanges x rs = amountMatchesRanges x rs').
Proof.
  split; [apply amountMatchesRanges_app|].
  intros rs rs' Hp.
  destruct (amountMatchesRanges x rs) eqn:H1; destruct (amountMatchesRanges x rs') eqn:H2;
    try reflexivity.
  - apply amountMatchesRanges_le in H1 as (r & Hr & Hin).
    rewrite Hp in Hr.
    assert (H : amountMatchesRanges x rs' = true)
      by (apply amountMatchesRanges_le; exists r; split; assumption).
    congruence.
  - apply amountMatchesRanges_le in H2 as (r & Hr & Hin).
    rewrite <- Hp in Hr.
    assert (H : amountMatchesRanges x rs = true)
      by (apply amountMatchesRanges_le; exists r; split; assumption).
    congruence.
Qed.

Lemma leValue_trans (a b c : Value) : leValue a b -> leValue b c -> leValue a c.
Proof.
  unfold leValue. destruct a, b, c; cbn; try congruence.
  intros H1 H2 H3. apply Z.compare_gt_iff in H3.
  apply H1. apply Z.compare_gt_iff.
  destruct (Z.compare_spec u0 u1); try lia. exfalso. apply H2. reflexivity.
Qed.

(** X4: a range whose upper bound is below its lower bound matches no
    amount: it can be dropped from the list without changing any answer.
    [parseRanges] keeps such ranges, for instance the one it builds from
    [3-]. *)
Theorem inverted_range_never_matches (x : number) (r : Range) (rs : list Range) :
  valid x = true -> valid (min r) = true -> valid (max r) = true ->
  lt (max r) (min r) = true ->
  amountMatchesRanges x (r :: rs) = amountMatchesRanges x rs.
Proof.
  intros Hx Hlo Hhi Hinv. cbn [amountMatchesRanges]. rewrite ge_le.
  destruct (le (min r) x && le x (max r)) eqn:Hin; [exfalso|reflexivity].
  apply andb_prop in Hin as [H1 H2].
  unfold lt, SFltb in Hinv.
  destruct (value (min r)) as [vlo|] eqn:Evlo;
    [|destruct (min r); try discriminate Evlo; destruct (max r); discriminate Hinv].
  destruct (value (max r)) as [vhi|] eqn:Evhi;
    [|destruct (max r); try discriminate Evhi; discriminate Hinv].
  destruct (value x) as [vx|] eqn:Evx.
  2:{ destruct x; try discriminate Evx. destruct (le_NaN (max r)) as [Hn _].
      unfold NaN in Hn. rewrite Hn in H2. discriminate. }
  rewrite (compare_value _ _ _ _ Hhi Hlo Evhi Evlo) in Hinv.
  apply (le_value _ _ _ _ Hlo Hx Evlo Evx) in H1.
  apply (le_value _ _ _ _ Hx Hhi Evx Evhi) in H2.
  pose proof (leValue_trans _ _ _ H1 H2) as H3. unfold leValue in H3.
  rewrite compareValue_antisym in H3.
  destruct (compareValue vhi vlo); try discriminate. apply H3. reflexivity.
Qed.

(** [inverted_range_never_matches] at the range that [parseRanges] builds
    from [3-], bounds 3 and 0, and the amount 2. *)
Lemma inverted_range_never_matches_witness :
  amountMatchesRanges (ofZ 2) (parseRanges (Some "3-")) = false.
Proof.
  change (parseRanges (Some "3-"))
    with ({| min := ofString "3"; max := ofString "" |} :: @nil Range).
  rewrite (inverted_range_never_matches (ofZ 2)
             {| min := ofString "3"; max := ofString "" |} []);
    vm_compute; reflexivity.
Defined.

(** X5: for every configured text and every amount the raw path computes,
    [Number(big) / 1e9], the matcher answers true exactly when the value
    of the amount lies within one of the ranges parsed from the text. *)
Theorem raw_amount_alert_condition (rangeStr : option string) (big : Z) :
  amountMatchesRanges (div (ofZ big) BlockParser.LAMPORTS_PER_SOL)
    (parseRanges rangeStr) = true <->
  exists r, r ∈ parseRanges rangeStr
            /\ within (div (ofZ big) BlockParser.LAMPORTS_PER_SOL) r.
Proof.
  apply amountMatchesRanges_within; [|apply parseRanges_exact].
  apply amount_exact, ofZ_exact.
Qed.

End RangeComposition.

(** ** Further properties: the instruction parser *)

Section ParserSoundness.

Import Js BlockParser.

Variable decode : string -> Result (list byte).

(** An integer that is not [<= 0] as a number is positive. *)
Lemma le_ofZ_zero (big : Z) :
  JSNumber.le (JSNumber.ofZ big) (JSNumber.ofZ 0) = false -> 0 < big.
Proof.
  intros H. destruct big as [|p|p]; [discriminate H|lia|exfalso].
  unfold JSNumber.ofZ in H. cbn [binary_normalize] in H.
  pose proof (binary_round_magnitude true p 0) as Hm.
  assert (Hd : 0 < Zdigits2 (Zpos p)) by (apply Zdigits2_bounds; lia).
  specialize (Hm ltac:(lia)).
  destruct (binary_round JSNumber.prec JSNumber.emax true p 0) as [s|s| |s m e];
    try contradiction.
  - subst s. discriminate H.
  - destruct Hm as [-> _]. discriminate H.
Qed.

(** What a raw instruction that adds an Outflow looks like. *)
Lemma rawInstruction_push_inv keys cex instr o :
  rawInstruction decode keys cex instr = Push o ->
  exists programIdx payload big fromIdx toIdx more,
    programIdIndex instr = Some programIdx
    /\ addressOf (at_ keys programIdx) = Some SYSTEM_PROGRAM
    /\ decodeData decode (data instr) = Push payload
    /\ (12 <= length payload)%nat
    /\ readBigUInt64LE (slice 4 12 payload) = Ok big
    /\ JSNumber.le (JSNumber.ofZ big) (JSNumber.ofZ 0) = false
    /\ accounts instr = Some (fromIdx :: toIdx :: more)
    /\ addressOf (at_ keys fromIdx) = Some cex
    /\ JSString.truthy (receiverOf (at_ keys toIdx)) = true
    /\ o = {| amount := JSNumber.div (JSNumber.ofZ big) LAMPORTS_PER_SOL;
              receiver := Some (receiverOf (at_ keys toIdx));
              otype := "SOL" |}.
Proof.
  unfold rawInstruction. intros H.
  destruct (programIdIndex instr) as [programIdx|] eqn:Hidx; [|discriminate].
  destruct (bool_decide (addressOf (at_ keys programIdx) = Some SYSTEM_PROGRAM)) eqn:Hprog;
    [|discriminate].
  apply bool_decide_eq_true in Hprog. cbn [negb] in H.
  destruct (decodeData decode (data instr)) as [payload| |e] eqn:Hdata; try discriminate.
  destruct (length payload <? 12)%nat eqn:Hlen; [discriminate|].
  apply Nat.ltb_ge in Hlen.
  destruct (negb (isByte (byteAt payload 0) 2) || negb (isByte (byteAt payload 1) 0)
            || negb (isByte (byteAt payload 2) 0) || negb (isByte (byteAt payload 3) 0));
    [discriminate|].
  destruct (readBigUInt64LE (slice 4 12 payload)) as [big|e] eqn:Hbig; [|discriminate].
  cbv zeta in H.
  destruct (JSNumber.le (JSNumber.ofZ big) (JSNumber.ofZ 0)) eqn:Hpos; [discriminate|].
  destruct (accounts instr) as [accs|] eqn:Haccs; cbn [default] in H; [|discriminate].
  destruct accs as [|fromIdx [|toIdx more]]; try discriminate.
  cbn in H.
  destruct (bool_decide (addressOf (at_ keys fromIdx) = Some cex)) eqn:Hfrom; [|discriminate].
  apply bool_decide_eq_true in Hfrom. cbn [negb] in H.
  destruct (JSString.truthy (receiverOf (at_ keys toIdx))) eqn:Hrecv; [|discriminate].
  injection H as <-.
  exists programIdx, payload, big, fromIdx, toIdx, more.
  repeat (split; [assumption || reflexivity|]). reflexivity.
Qed.

(** The two ways in which the scan of an instruction adds an Outflow. *)
Lemma loopBody_push_inv keys cex instr o :
  loopBody decode keys cex instr = Push o ->
  (exists p i l,
      parsed instr = Some p /\ program instr = Some "system"%string
      /\ type p = "transfer"%string /\ info p = Some i
      /\ source i = Some cex /\ lamports i = Some l
      /\ JSNumber.gt l (JSNumber.ofZ 0) = true
      /\ o = {| amount := JSNumber.div l LAMPORTS_PER_SOL;
                receiver := destination i; otype := "SOL" |})
  \/ (takesRawPath instr /\ rawInstruction decode keys cex instr = Push o).
Proof.
  unfold loopBody. intros H.
  destruct (parsed instr) as [p|] eqn:Hp.
  - destruct (bool_decide (program instr = Some "system"%string)) eqn:Hprog.
    + apply bool_decide_eq_true in Hprog. left.
      destruct (parsedInstruction cex p) as [o'| |e] eqn:Hpi; try discriminate.
      cbn in H. injection H as ->.
      apply parsedInstruction_push in Hpi as (Ht & i & l & Hi & Hs & Hl & Hgt & ->).
      exists p, i, l. repeat (split; [assumption || reflexivity|]). reflexivity.
    + apply bool_decide_eq_false in Hprog. right. split; [right; exact Hprog|].
      destruct (rawInstruction decode keys cex instr); try discriminate. exact H.
  - right. split; [left; exact Hp|].
    destruct (rawInstruction decode keys cex instr); try discriminate. exact H.
Qed.



(** The Outflows of a transaction without parsed instructions: each has a
    non-empty receiver and the amount [Number(big) / 1e9] of a positive
    number of base units. *)
Lemma raw_outflows_shape (tx : Transaction) (cex : string) :
  Forall (fun instr => parsed instr = None) (instructionsOfTx tx) ->
  exists outs,
    parseBlockTransactions decode tx cex = Ok outs
    /\ Forall (fun o =>
         exists big r,
           0 < big /\ r <> EmptyString
           /\ o = {| amount := JSNumber.div (JSNumber.ofZ big) LAMPORTS_PER_SOL;
                     receiver := Some r; otype := "SOL" |}) outs.
Proof.
  intros Hraw.
  destruct (meta tx) as [m|] eqn:Hmeta.
  2:{ exists []. rewrite (parse_without_meta decode tx cex Hmeta).
      split; [reflexivity|constructor]. }
  rewrite (parse_with_meta decode tx cex) by (rewrite Hmeta; discriminate).
  eexists. split; [reflexivity|].
  apply Forall_forall. intros o Ho.
  apply list_elem_of_In, in_flat_map in Ho as (instr & Hin & Ho).
  apply list_elem_of_In in Hin.
  rewrite Forall_forall in Hraw. specialize (Hraw instr Hin).
  unfold outflowsOf in Ho.
  destruct (loopBody decode (tableOf tx) cex instr) as [o'| |e] eqn:Hbody;
    try (inversion Ho; fail).
  destruct Ho as [<-|[]].
  apply loopBody_push_inv in Hbody as [(p & i & l & Hp & _)|[_ Hpush]]; [congruence|].
  apply rawInstruction_push_inv in Hpush
    as (pi & payload & big & fromIdx & toIdx & more & _ & _ & _ & _ & _ & Hpos & _ & _ & Ht & ->).
  exists big, (receiverOf (at_ (tableOf tx) toIdx)).
  split; [exact (le_ofZ_zero big Hpos)|]. split; [|reflexivity].
  intros Heq. rewrite Heq in Ht. discriminate.
Qed.

(** X7: in a transaction without parsed instructions, as [getBlock]
    returns them, every Outflow carries a receiver that is a non-empty
    string. *)
Theorem raw_outflows_have_receivers (tx : Transaction) (cex : string) :
  Forall (fun instr => parsed instr = None) (instructionsOfTx tx) ->
  exists outs,
    parseBlockTransactions decode tx cex = Ok outs
    /\ Forall (fun o => exists r, receiver o = Some r /\ r <> EmptyString) outs.
Proof.
  intros Hraw. destruct (raw_outflows_shape tx cex Hraw) as (outs & Hparse & Hall).
  exists outs. split; [exact Hparse|].
  eapply Forall_impl; [exact Hall|].
  intros o (big & r & _ & Hr & ->). exists r. split; [reflexivity|exact Hr].
Qed.

(** X8: in a transaction without parsed instructions every amount reported
    is a well-formed number, not NaN, and strictly positive: a transfer of
    at least one base unit never rounds to zero. *)
Theorem raw_amounts_positive (tx : Transaction) (cex : string) :
  Forall (fun instr => parsed instr = None) (instructionsOfTx tx) ->
  exists outs,
    parseBlockTransactions decode tx cex = Ok outs
    /\ Forall (fun o =>
         JSNumber.valid (amount o) = true /\ JSNumber.isNaN (amount o) = false
         /\ JSNumber.gt (amount o) (JSNumber.ofZ 0) = true) outs.
Proof.
  intros Hraw. destruct (raw_outflows_shape tx cex Hraw) as (outs & Hparse & Hall).
  exists outs. split; [exact Hparse|].
  eapply Forall_impl; [exact Hall|].
  intros o (big & r & Hbig & _ & ->). cbn [amount].
  split; [apply div_valid|]. split; [|apply amount_positive; exact Hbig].
  destruct (amount_exact (JSNumber.ofZ big) (ofZ_exact big)) as [_ [v Hv]].
  destruct (JSNumber.div (JSNumber.ofZ big) LAMPORTS_PER_SOL); try reflexivity.
  discriminate Hv.
Qed.

End ParserSoundness.

Section ParserSoundnessExamples.

Import Js BlockParser.

(** [raw_outflows_have_receivers] at the transaction of five raw
    instructions, of which the last is a transfer. *)
Lemma raw_outflows_have_receivers_witness :
  exists outs,
    parseBlockTransactions Base58.decode Examples.mixedTx Examples.watched = Ok outs
    /\ Forall (fun o => exists r, receiver o = Some r /\ r <> EmptyString) outs.
Proof.
  apply (raw_outflows_have_receivers Base58.decode Examples.mixedTx Examples.watched).
  repeat constructor.
Defined.

(** [raw_amounts_positive] at the same transaction. *)
Lemma raw_amounts_positive_witness :
  exists outs,
    parseBlockTransactions Base58.decode Examples.mixedTx Examples.watched = Ok outs
    /\ Forall (fun o =>
         JSNumber.valid (amount o) = true /\ JSNumber.isNaN (amount o) = false
         /\ JSNumber.gt (amount o) (JSNumber.ofZ 0) = true) outs.
Proof.
  apply (raw_amounts_positive Base58.decode Examples.mixedTx Examples.watched).
  repeat constructor.
Defined.

(** On the structured path a positive amount can be reported as zero: the
    smallest positive number, divided by [1e9], rounds to [+0]. *)
Lemma parsed_amount_underflow :
  JSNumber.gt (S754_finite false 1 (-1074)) (JSNumber.ofZ 0) = true
  /\ JSNumber.div (S754_finite false 1 (-1074)) LAMPORTS_PER_SOL = S754_zero false.
Proof. split; vm_compute; reflexivity. Qed.

End ParserSoundnessExamples.

(** ** Further properties: the recently-seen set *)

Section DedupWindow.

Import TransactionMonitor.

Lemma accepted_fst (signatures : list string) :
  fst (fold_left
         (fun st sig =>
            let '(go, set) := onLogs sig (fst st) in
            (set, if go then snd st ++ [sig] else snd st))
         signatures ([], [])) = afterEvents signatures.
Proof.
  induction signatures as [|sig signatures IH] using rev_ind; [reflexivity|].
  rewrite fold_left_app, afterEvents_snoc. cbn [fold_left]. rewrite IH.
  destruct (onLogs sig (afterEvents signatures)); reflexivity.
Qed.

Lemma accepted_snoc (signatures : list string) (sig : string) :
  accepted (signatures ++ [sig]) =
  if fst (onLogs sig (afterEvents signatures))
  then accepted signatures ++ [sig] else accepted signatures.
Proof.
  unfold accepted. rewrite fold_left_app. cbn [fold_left]. rewrite accepted_fst.
  destruct (onLogs sig (afterEvents signatures)) as [go set]. reflexivity.
Qed.

(** X11: the recently-seen set is always the most recent part of the
    signatures processed so far, in order: nothing is forgotten before
    10,001 signatures have been processed, at least the latest 5,001 are
    remembered afterwards, and a signature that has just been handled is
    always skipped when it arrives again at once. *)
Theorem recent_signatures_remembered (signatures : list string) :
  (exists evicted,
      accepted signatures = evicted ++ afterEvents signatures
      /\ (size (accepted signatures) <= 10000 -> evicted = [])
      /\ Z.min (size (accepted signatures)) 5001 <= size (afterEvents signatures))
  /\ (forall signature,
        fst (onLogs signature (afterEvents (signatures ++ [signature]))) = false).
Proof.
  split.
  - induction signatures as [|sig signatures IH] using rev_ind.
    + exists []. repeat split. unfold size. cbn. lia.
    + destruct IH as (evicted & HA & Hfull & Hmin).
      destruct (afterEvents_invariant signatures) as [Hnd Hsize].
      rewrite accepted_snoc, afterEvents_snoc, (onLogs_cases _ _ Hnd).
      destruct (has sig (afterEvents signatures)) eqn:Hhas; cbn [fst snd].
      { exists evicted. repeat split; assumption. }
      unfold size, processedTxsMaxSize in *.
      destruct (Z.geb_spec (Z.of_nat (length (afterEvents signatures))) 10000) as [Hge|Hlt];
        cbn [fst snd].
      * exists (evicted ++ take 5000 (afterEvents signatures ++ [sig])).
        split; [|split].
        -- rewrite HA, <- !app_assoc. f_equal. symmetry. apply take_drop.
        -- intros Hle. exfalso. rewrite HA, !length_app in Hle. cbn [length] in Hle. lia.
        -- rewrite length_drop, !length_app. cbn [length]. lia.
      * exists evicted. split; [|split].
        -- rewrite HA, <- app_assoc. reflexivity.
        -- intros Hle. apply Hfull. rewrite length_app in Hle. cbn [length] in Hle. lia.
        -- rewrite !length_app. cbn [length]. lia.
  - intros sig.
    destruct (afterEvents_invariant (signatures ++ [sig])) as [Hnd' _].
    rewrite (onLogs_cases _ _ Hnd').
    assert (Hin : sig ∈ afterEvents (signatures ++ [sig])).
    { destruct (afterEvents_invariant signatures) as [Hnd Hsize].
      rewrite afterEvents_snoc, (onLogs_cases _ _ Hnd).
      destruct (has sig (afterEvents signatures)) eqn:Hhas; cbn [snd].
      { apply has_true. exact Hhas. }
      unfold size, processedTxsMaxSize in *.
      destruct (Z.geb_spec (Z.of_nat (length (afterEvents signatures))) 10000) as [Hge|Hlt];
        cbn [snd].
      - apply list_elem_of_lookup.
        exists (length (afterEvents signatures) - 5000)%nat.
        rewrite lookup_drop.
        replace (5000 + (length (afterEvents signatures) - 5000))%nat
          with (length (afterEvents signatures) + 0)%nat by lia.
        rewrite lookup_app_r by lia.
        replace (length (afterEvents signatures) + 0 - length (afterEvents signatures))%nat
          with 0%nat by lia.
        reflexivity.
      - apply elem_of_app. right. left. }
    apply has_true in Hin. rewrite Hin. reflexivity.
Qed.

End DedupWindow.

(** ** Further properties: the pool of processors *)

Section WorkerPool.

Import Js BlockMonitor.

Lemma workers_app (l1 l2 : list Task) : workers (l1 ++ l2) = workers l1 + workers l2.
Proof. unfold workers. rewrite filter_app, length_app. lia. Qed.

Lemma workers_one (t : Task) : workers [t] = if isWorker t then 1 else 0.
Proof.
  unfold workers. rewrite filter_cons, filter_nil.
  destruct (isWorker t); destruct (decide _) as [H|H]; cbn in *; try reflexivity; tauto.
Qed.

Lemma workers_remove (pool : list Task) (i : nat) (t : Task) :
  pool !! i = Some t ->
  workers (take i pool ++ drop (S i) pool) = workers pool - if isWorker t then 1 else 0.
Proof.
  intros Hi. rewrite <- (take_drop_middle pool i t Hi) at 3.
  rewrite !workers_app. change (t :: drop (S i) pool) with ([t] ++ drop (S i) pool).
  rewrite workers_app, workers_one. lia.
Qed.

Lemma pooled_suspend d c t st :
  pooled d c st -> pooled (d - if isWorker t then 1 else 0) c (suspend t st).
Proof.
  intros (Hc & Hw & Hb). unfold pooled, suspend. cbn.
  rewrite workers_app, workers_one. repeat split; try assumption. lia.
Qed.

Lemma pooled_remove d c i t st :
  tasks st !! i = Some t ->
  pooled d c st -> pooled (d + if isWorker t then 1 else 0) c (removeTask i st).
Proof.
  intros Hi (Hc & Hw & Hb). unfold pooled, removeTask. cbn.
  rewrite (workers_remove _ _ _ Hi). repeat split; try assumption. lia.
Qed.

Lemma pooled_tryStartProcessorsLoop d c queue st :
  pooled d c st -> pooled d c (tryStartProcessorsLoop queue st).
Proof.
  revert st. induction queue as [|item queue IH]; intros st Hp.
  - exact Hp.
  - cbn [tryStartProcessorsLoop].
    destruct (Z.ltb_spec (processWorkers st) (processConcurrency st)) as [Hlt|Hge];
      [|exact Hp].
    apply IH. destruct Hp as (Hc & Hw & Hb).
    unfold pooled, processBlock, suspend. cbn.
    rewrite workers_app, workers_one. cbn. repeat split; try assumption; lia.
Qed.

Lemma pooled_tryStartProcessors d c st :
  pooled d c st -> pooled d c (tryStartProcessors st).
Proof. apply pooled_tryStartProcessorsLoop. Qed.

Lemma pooled_advanceOnce d c st st' :
  advanceOnce st = Some st' -> pooled d c st -> pooled d c st'.
Proof.
  unfold advanceOnce. destruct (bool_decide _); [|discriminate].
  intros [= <-] Hp. exact Hp.
Qed.

Lemma pooled_attemptAdvanceFrom d c advanced k st :
  pooled d c st ->
  pooled (d - if isWorker (AwaitSave k) then 1 else 0) c (attemptAdvanceFrom advanced k st).
Proof.
  intros Hp. unfold attemptAdvanceFrom.
  destruct (advanceOnce st) as [st'|] eqn:Hadv.
  - apply (pooled_suspend d c (AwaitSave k)). exact (pooled_advanceOnce _ _ _ _ Hadv Hp).
  - replace (if isWorker (AwaitSave k) then 1 else 0)
      with (if isWorker (AwaitAdvance k (Ok tt)) then 1 else 0) by (destruct k; reflexivity).
    apply pooled_suspend. destruct advanced; [apply pooled_tryStartProcessors|]; exact Hp.
Qed.

Lemma pooled_frame d c st st' :
  processConcurrency st' = processConcurrency st ->
  processWorkers st' = processWorkers st ->
  tasks st' = tasks st ->
  pooled d c st -> pooled d c st'.
Proof. unfold pooled. intros -> -> ->. tauto. Qed.

Lemma pooled_fetchCatch c s msg st :
  pooled 0 c st -> pooled 0 c (fetchCatch s msg st).
Proof.
  intros Hp. unfold fetchCatch. destruct (skippedLike msg).
  - apply (pooled_attemptAdvanceFrom 0 c false (KFetchCatch s)).
    revert Hp. apply pooled_frame; reflexivity.
  - apply (pooled_frame 0 c (suspend (RefetchTimer s) st)); try reflexivity.
    apply (pooled_suspend 0 c (RefetchTimer s)). exact Hp.
Qed.

Lemma pooled_doFetch c s st : pooled 0 c st -> pooled 0 c (doFetch s st).
Proof.
  intros Hp. unfold doFetch.
  destruct (s <=? lastSlot st); [exact Hp|].
  destruct (_ || _); [exact Hp|].
  apply (pooled_suspend 0 c (AwaitGetBlock s)).
  revert Hp. apply pooled_frame; reflexivity.
Qed.

Lemma pooled_release d c st :
  pooled (d + 1) c st -> pooled d c (setProcessWorkers (processWorkers st - 1) st).
Proof. intros (Hc & Hw & Hb). unfold pooled. cbn. repeat split; try assumption; lia. Qed.

Lemma step_pooled c (ev : Event) (st : State) :
  pooled 0 c st -> pooled 0 c (step ev st).
Proof.
  intros Hp. destruct ev as [ty slot|i r|i outcome|i|i outcome|i]; cbn [step].
  - destruct (String.eqb ty "root"); [apply pooled_doFetch|]; exact Hp.
  - destruct (tasks st !! i) as [t|] eqn:Hi; [|exact Hp].
    destruct t as [s|k|k o|s b|s|s b]; try exact Hp.
    pose proof (pooled_remove 0 c i _ st Hi Hp) as Hr. cbn [isWorker] in Hr.
    destruct r as [|blockData|msg]; cbn [getBlockSettled].
    + apply (pooled_attemptAdvanceFrom 0 c false (KFetchTry s)).
      revert Hr. apply pooled_frame; reflexivity.
    + apply (pooled_frame 0 c
               (tryStartProcessors
                  (setProcessQueue (processQueue (removeTask i st) ++ [(s, blockData)])
                     (removeTask i st)))); try reflexivity.
      apply pooled_tryStartProcessors. revert Hr. apply pooled_frame; reflexivity.
    + apply pooled_fetchCatch. exact Hr.
  - destruct (tasks st !! i) as [t|] eqn:Hi; [|exact Hp].
    destruct t as [s|k|k o|s b|s|s b]; try exact Hp.
    pose proof (pooled_remove 0 c i _ st Hi Hp) as Hr.
    destruct outcome as [[]|e].
    + pose proof (pooled_attemptAdvanceFrom _ c true k _ Hr) as H.
      replace (0 + (if isWorker (AwaitSave k) then 1 else 0)
               - (if isWorker (AwaitSave k) then 1 else 0)) with 0 in H by lia.
      exact H.
    + pose proof (pooled_suspend _ c (AwaitAdvance k (Throw e)) _ Hr) as H.
      replace (0 + (if isWorker (AwaitSave k) then 1 else 0)
               - (if isWorker (AwaitAdvance k (Throw e)) then 1 else 0)) with 0 in H
        by (destruct k; cbn; lia).
      exact H.
  - destruct (tasks st !! i) as [t|] eqn:Hi; [|exact Hp].
    destruct t as [s|k|k o|s b|s|s b]; try exact Hp.
    pose proof (pooled_remove 0 c i _ st Hi Hp) as Hr.
    destruct k as [s|s|s b]; cbn [isWorker] in Hr; cbn [advanceReturned].
    + destruct o as [[]|[msg]].
      * revert Hr. apply pooled_frame; reflexivity.
      * apply pooled_fetchCatch. exact Hr.
    + revert Hr. apply pooled_frame; reflexivity.
    + destruct o as [[]|e].
      * apply pooled_release. exact Hr.
      * pose proof (pooled_suspend _ c (RequeueTimer s b) _ Hr) as H. cbn [isWorker] in H.
        replace (0 + 1 - 0) with (0 + 1) in H by lia.
        apply pooled_release in H. exact H.
  - destruct (tasks st !! i) as [t|] eqn:Hi; [|exact Hp].
    destruct t as [s|k|k o|s b|s|s b]; try exact Hp.
    pose proof (pooled_remove 0 c i _ st Hi Hp) as Hr. cbn [isWorker] in Hr.
    destruct outcome as [[]|e]; cbn [processSettled].
    + pose proof (pooled_attemptAdvanceFrom (0 + 1) c false (KProcess s b)
                    (markProcessed s (removeTask i st))) as H.
      cbn [isWorker] in H. replace (0 + 1 - 1) with 0 in H by lia.
      apply H. revert Hr. apply pooled_frame; reflexivity.
    + pose proof (pooled_suspend _ c (RequeueTimer s b) _ Hr) as H. cbn [isWorker] in H.
      replace (0 + 1 - 0) with (0 + 1) in H by lia.
      apply pooled_release in H. exact H.
  - destruct (tasks st !! i) as [t|] eqn:Hi; [|exact Hp].
    destruct t as [s|k|k o|s b|s|s b]; try exact Hp.
    + pose proof (pooled_remove 0 c i _ st Hi Hp) as Hr. cbn [isWorker] in Hr.
      apply pooled_doFetch. revert Hr. apply pooled_frame; reflexivity.
    + pose proof (pooled_remove 0 c i _ st Hi Hp) as Hr. cbn [isWorker] in Hr.
      apply pooled_tryStartProcessors. revert Hr. apply pooled_frame; reflexivity.
Qed.

(** X19: at every moment of every run the counter [processWorkers] is the
    number of calls of [processBlock] under way, and it never exceeds the
    configured concurrency (nor goes below zero). *)
Theorem workers_bounded (file : option (gmap string Z)) (getSlot : Result Z)
  (concurrency : Z) (evs : list Event) :
  processConcurrency (run evs (startBlockMonitorListener file getSlot concurrency))
    = concurrency
  /\ processWorkers (run evs (startBlockMonitorListener file getSlot concurrency))
     = workers (tasks (run evs (startBlockMonitorListener file getSlot concurrency)))
  /\ 0 <= processWorkers (run evs (startBlockMonitorListener file getSlot concurrency))
     <= Z.max 0 concurrency.
Proof.
  assert (H : pooled 0 concurrency
                (run evs (startBlockMonitorListener file getSlot concurrency))).
  { induction evs as [|ev evs IH] using rev_ind.
    - unfold pooled. cbn. repeat split; lia.
    - rewrite run_snoc. apply step_pooled. exact IH. }
  destruct H as (Hc & Hw & Hb). split; [exact Hc|]. split; [lia|].
  split; [|exact Hb]. rewrite Hw. unfold workers. lia.
Qed.

End WorkerPool.

(** ** Further properties: fetching *)

Section FetchFacts.

Import Js BlockMonitor.

Lemma attemptAdvanceFrom_getBlockCalls advanced k st :
  getBlockCalls (attemptAdvanceFrom advanced k st) = getBlockCalls st.
Proof.
  unfold attemptAdvanceFrom. destruct (advanceOnce st) as [st'|] eqn:Hadv.
  - apply advanceOnce_Some in Hadv as (_ & _ & _ & _ & _ & _ & Hcalls & _). exact Hcalls.
  - destruct advanced; [|reflexivity].
    cbn [suspend getBlockCalls setTasks].
    apply (proj1 (proj2 (proj2 (tryStartProcessors_frame st)))).
Qed.

Lemma fetchCatch_getBlockCalls s msg st :
  getBlockCalls (fetchCatch s msg st) = getBlockCalls st.
Proof.
  unfold fetchCatch. destruct (skippedLike msg); [|reflexivity].
  rewrite attemptAdvanceFrom_getBlockCalls. reflexivity.
Qed.

(** A transition calls [getBlock] at most once, and only for a slot above
    the checkpoint that is neither in flight nor waiting in the processed
    set. *)
Lemma step_getBlockCalls (ev : Event) (st : State) :
  getBlockCalls (step ev st) = getBlockCalls st
  \/ exists s,
       getBlockCalls (step ev st) = getBlockCalls st ++ [s]
       /\ lastSlot st < s /\ processedSlots st !! s = None.
Proof.
  assert (Hfetch : forall s st0,
             getBlockCalls st0 = getBlockCalls st -> lastSlot st0 = lastSlot st ->
             processedSlots st0 = processedSlots st ->
             getBlockCalls (doFetch s st0) = getBlockCalls st
             \/ exists s',
                  getBlockCalls (doFetch s st0) = getBlockCalls st ++ [s']
                  /\ lastSlot st < s' /\ processedSlots st !! s' = None).
  { intros s st0 Hc Hl Hp.
    destruct (classic_guard s st0) as [Hg|Hg].
    - right. exists s. destruct Hg as (H1 & H2 & H3).
      rewrite (proj1 (proj1 (doFetch_guard s st0) (conj H1 (conj H2 H3)))).
      rewrite Hc, <- Hl, <- Hp. repeat split; assumption.
    - left. rewrite (proj2 (doFetch_guard s st0) Hg). exact Hc. }
  destruct ev as [ty slot|i r|i outcome|i|i outcome|i]; cbn [step].
  - destruct (String.eqb ty "root"); [|left; reflexivity].
    apply Hfetch; reflexivity.
  - destruct (tasks st !! i) as [t|] eqn:Hi; [|left; reflexivity].
    destruct t as [s|k|k o|s b|s|s b]; try (left; reflexivity).
    left. destruct r as [|blockData|msg]; cbn [getBlockSettled].
    + rewrite attemptAdvanceFrom_getBlockCalls. reflexivity.
    + cbn [deleteInFlight getBlockCalls setInFlightFetches].
      rewrite (proj1 (proj2 (proj2 (tryStartProcessors_frame _)))). reflexivity.
    + rewrite fetchCatch_getBlockCalls. reflexivity.
  - destruct (tasks st !! i) as [t|] eqn:Hi; [|left; reflexivity].
    destruct t as [s|k|k o|s b|s|s b]; try (left; reflexivity).
    left. destruct outcome as [[]|e]; [|reflexivity].
    rewrite attemptAdvanceFrom_getBlockCalls. reflexivity.
  - destruct (tasks st !! i) as [t|] eqn:Hi; [|left; reflexivity].
    destruct t as [s|k|k o|s b|s|s b]; try (left; reflexivity).
    left. destruct k as [s|s|s b]; cbn [advanceReturned].
    + destruct o as [[]|[msg]]; [reflexivity|].
      rewrite fetchCatch_getBlockCalls. reflexivity.
    + reflexivity.
    + destruct o as [[]|e]; reflexivity.
  - destruct (tasks st !! i) as [t|] eqn:Hi; [|left; reflexivity].
    destruct t as [s|k|k o|s b|s|s b]; try (left; reflexivity).
    left. destruct outcome as [[]|e]; cbn [processSettled]; [|reflexivity].
    rewrite attemptAdvanceFrom_getBlockCalls. reflexivity.
  - destruct (tasks st !! i) as [t|] eqn:Hi; [|left; reflexivity].
    destruct t as [s|k|k o|s b|s|s b]; try (left; reflexivity).
    + apply Hfetch; reflexivity.
    + left. rewrite (proj1 (proj2 (proj2 (tryStartProcessors_frame _)))). reflexivity.
Qed.

(** X20: the scheduler only looks forward.  A transition requests at most
    one block, and only for a slot above the checkpoint of that moment
    that is not waiting in the processed set; so every slot ever requested
    is above the slot at which the listener started. *)
Theorem fetches_above_checkpoint (file : option (gmap string Z)) (getSlot : Result Z)
  (concurrency : Z) (evs : list Event) :
  (forall (ev : Event) (st : State),
      getBlockCalls (step ev st) = getBlockCalls st
      \/ exists s,
           getBlockCalls (step ev st) = getBlockCalls st ++ [s]
           /\ lastSlot st < s /\ processedSlots st !! s = None)
  /\ Forall (fun s => lastSlot (startBlockMonitorListener file getSlot concurrency) < s)
       (getBlockCalls (run evs (startBlockMonitorListener file getSlot concurrency))).
Proof.
  split; [exact step_getBlockCalls|].
  induction evs as [|ev evs IH] using rev_ind; [constructor|].
  rewrite run_snoc.
  destruct (step_getBlockCalls ev (run evs (startBlockMonitorListener file getSlot concurrency)))
    as [->|(s & -> & Hs & _)]; [exact IH|].
  apply Forall_app. split; [exact IH|]. constructor; [|constructor].
  pose proof (run_monotone evs (startBlockMonitorListener file getSlot concurrency)). lia.
Qed.

(** X21: a fetch rejected by an error that is not skipped-like is retried.
    The slot is not marked processed and leaves the in-flight set, a timer
    is set; when the timer fires the block is requested again, provided the
    slot is still above the checkpoint and has not been marked processed
    in the meantime. *)
Theorem transient_error_is_retried (st : State) (i : nat) (s : Z) (msg : string) :
  tasks st !! i = Some (AwaitGetBlock s) ->
  skippedLike msg = false ->
  lastSlot st < s ->
  processedSlots st !! s = None ->
  tasks (step (GetBlockSettled i (BlockError msg)) st)
    = take i (tasks st) ++ drop (S i) (tasks st) ++ [RefetchTimer s]
  /\ view (step (GetBlockSettled i (BlockError msg)) st) = view st
  /\ (s ∉ inFlightFetches (step (GetBlockSettled i (BlockError msg)) st))
  /\ getBlockCalls
       (step (TimerFired (length (tasks st) - 1))
          (step (GetBlockSettled i (BlockError msg)) st))
     = getBlockCalls st ++ [s]
  /\ tasks
       (step (TimerFired (length (tasks st) - 1))
          (step (GetBlockSettled i (BlockError msg)) st))
     = take i (tasks st) ++ drop (S i) (tasks st) ++ [AwaitGetBlock s]
  /\ s ∈ inFlightFetches
           (step (TimerFired (length (tasks st) - 1))
              (step (GetBlockSettled i (BlockError msg)) st)).
Proof.
  intros Hi Hmsg Hlast Hproc.
  assert (Hlen : (i < length (tasks st))%nat) by (apply lookup_lt_is_Some; eauto).
  set (st1 := step (GetBlockSettled i (BlockError msg)) st).
  assert (E1 : st1 = deleteInFlight s (suspend (RefetchTimer s) (removeTask i st))).
  { unfold st1. cbn [step]. rewrite Hi. cbn [getBlockSettled]. unfold fetchCatch.
    rewrite Hmsg. reflexivity. }
  assert (Ht1 : tasks st1 = take i (tasks st) ++ drop (S i) (tasks st) ++ [RefetchTimer s]).
  { rewrite E1. cbn. rewrite <- app_assoc. reflexivity. }
  assert (Hk : tasks st1 !! (length (tasks st) - 1)%nat = Some (RefetchTimer s)).
  { rewrite Ht1, app_assoc.
    assert (Hl : length (take i (tasks st) ++ drop (S i) (tasks st))
                 = (length (tasks st) - 1)%nat).
    { rewrite length_app, length_take, length_drop. lia. }
    rewrite lookup_app_r by lia. rewrite Hl, Nat.sub_diag. reflexivity. }
  assert (Hrm : take (length (tasks st) - 1) (tasks st1)
                ++ drop (S (length (tasks st) - 1)) (tasks st1)
                = take i (tasks st) ++ drop (S i) (tasks st)).
  { rewrite Ht1, app_assoc.
    assert (Hl : length (take i (tasks st) ++ drop (S i) (tasks st))
                 = (length (tasks st) - 1)%nat).
    { rewrite length_app, length_take, length_drop. lia. }
    rewrite <- Hl, take_app_length, drop_app_ge by lia.
    replace (S (length (take i (tasks st) ++ drop (S i) (tasks st)))
             - length (take i (tasks st) ++ drop (S i) (tasks st)))%nat with 1%nat by lia.
    cbn. apply app_nil_r. }
  set (st2 := step (TimerFired (length (tasks st) - 1)) st1).
  assert (E2 : st2 = doFetch s (deleteInFlight s (removeTask (length (tasks st) - 1) st1))).
  { unfold st2. cbn [step]. rewrite Hk. reflexivity. }
  assert (Hg : lastSlot (deleteInFlight s (removeTask (length (tasks st) - 1) st1)) < s
               /\ (s ∉ inFlightFetches (deleteInFlight s (removeTask (length (tasks st) - 1) st1)))
               /\ processedSlots (deleteInFlight s (removeTask (length (tasks st) - 1) st1)) !! s
                  = None).
  { rewrite E1. cbn. split; [exact Hlast|]. split; [|exact Hproc].
    intros Hin. apply elem_of_difference in Hin as [_ Hn]. apply Hn. apply elem_of_singleton.
    reflexivity. }
  destruct (proj1 (doFetch_guard s _) Hg) as (Hcalls & Hfl & Htasks).
  split; [exact Ht1|]. split; [rewrite E1; reflexivity|]. split.
  { rewrite E1. cbn. intros Hin. apply elem_of_difference in Hin as [_ Hn]. apply Hn.
    apply elem_of_singleton. reflexivity. }
  split; [|split].
  - fold st1. fold st2. rewrite E2, Hcalls, E1. reflexivity.
  - fold st1. fold st2. rewrite E2, Htasks. cbn [deleteInFlight tasks setInFlightFetches removeTask setTasks].
    rewrite Hrm, <- app_assoc. reflexivity.
  - fold st1. fold st2. rewrite E2, Hfl. apply elem_of_union_l, elem_of_singleton. reflexivity.
Qed.

End FetchFacts.

Section FetchExamples.

Import Js BlockMonitor.

(** [transient_error_is_retried] at the scheduler started at slot 4 after
    slot 7 has been observed, for a rate-limit error. *)
Lemma transient_error_is_retried_witness :
  getBlockCalls
    (run [SlotUpdate "root" 7;
          GetBlockSettled 0 (BlockError "429 Too Many Requests");
          TimerFired 0] Examples.startedAt4) = [7; 7].
Proof.
  exact (proj1 (proj2 (proj2 (proj2
           (transient_error_is_retried
              (step (SlotUpdate "root" 7) Examples.startedAt4) 0 7 "429 Too Many Requests"
              eq_refl eq_refl eq_refl eq_refl))))).
Defined.

(** [one_fetch_without_retry] on a run in which slot 5 is observed twice
    and its block then arrives: the second observation starts no fetch. *)
Lemma one_fetch_without_retry_witness :
  (fetchesInFlight 5
     (run [SlotUpdate "root" 5; SlotUpdate "root" 5] Examples.startedAt4) <= 1)%nat.
Proof.
  refine (proj1 (one_fetch_without_retry None (Ok 4) 8
                   [SlotUpdate "root" 5; SlotUpdate "root" 5] 5 _)).
  repeat constructor.
Defined.

End FetchExamples.

(** ** Further properties: configuration and startup *)

Section EnvFacts.

Import JSString Env TransactionMonitor.

Lemma spanDecimal_spec (s : string) :
  s = fst (spanDecimal s) +:+ snd (spanDecimal s)
  /\ allDigits (fst (spanDecimal s)) = true
  /\ match snd (spanDecimal s) with
     | EmptyString => True
     | String c _ => isDigit c = false
     end.
Proof.
  induction s as [|c s IH]; [repeat split|].
  cbn [spanDecimal]. destruct (isDigit c) eqn:Hc.
  - destruct (spanDecimal s) as [n rest]. cbn [fst snd] in *.
    destruct IH as (Hs & Hn & Hrest). repeat split.
    + change (String c n +:+ rest) with (String c (n +:+ rest)).
      rewrite <- Hs. reflexivity.
    + cbn [allDigits]. rewrite Hc, Hn. reflexivity.
    + exact Hrest.
  - cbn [fst snd]. repeat split. exact Hc.
Qed.

Lemma spanDecimal_app (n rest : string) :
  allDigits n = true ->
  match rest with EmptyString => True | String c _ => isDigit c = false end ->
  spanDecimal (n +:+ rest) = (n, rest).
Proof.
  intros Hn Hrest. induction n as [|c n IH].
  - change ("" +:+ rest) with rest.
    destruct rest as [|c rest]; [reflexivity|]. cbn [spanDecimal]. rewrite Hrest. reflexivity.
  - cbn in Hn. apply andb_prop in Hn as [Hc Hn].
    change (String c n +:+ rest) with (String c (n +:+ rest)).
    cbn [spanDecimal]. rewrite Hc, (IH Hn). reflexivity.
Qed.

Lemma stripPrefix_spec (p s r : string) :
  stripPrefix p s = Some r <-> s = p +:+ r.
Proof.
  revert s. induction p as [|a p IH]; intros s.
  - change ("" +:+ r) with r. cbn [stripPrefix]. split; congruence.
  - destruct s as [|b s]; cbn [stripPrefix].
    + split; discriminate.
    + change (String a p +:+ r) with (String a (p +:+ r)).
      destruct (Ascii.eqb_spec a b) as [->|Hne].
      * rewrite IH. split; congruence.
      * split; [discriminate|]. intros [= -> _]. contradiction.
Qed.

(** The keys the pattern accepts are the texts [CEX_<n>_LABEL] for a
    non-empty run of digits [n], and the group is [n]. *)
Lemma matchLabel_spec (k n : string) :
  matchLabel k = Some n <->
  k = labelKey n /\ n <> EmptyString /\ allDigits n = true.
Proof.
  split.
  - unfold matchLabel. intros H.
    destruct (stripPrefix "CEX_" k) as [rest|] eqn:Hp; [|discriminate].
    apply stripPrefix_spec in Hp. subst k.
    destruct (spanDecimal_spec rest) as (Hs & Hn & _).
    destruct (spanDecimal rest) as [n' after]. cbn [fst snd] in *.
    destruct (truthy n') eqn:Ht; [|discriminate].
    destruct (String.eqb_spec after "_LABEL") as [->|]; [|discriminate].
    cbn in H. injection H as ->. split; [|split].
    + unfold labelKey. rewrite Hs. reflexivity.
    + intros ->. discriminate.
    + exact Hn.
  - intros (-> & Hne & Hn). unfold labelKey, matchLabel.
    rewrite (proj2 (stripPrefix_spec "CEX_" _ (n +:+ "_LABEL")) eq_refl).
    rewrite (spanDecimal_app n "_LABEL" Hn) by reflexivity.
    destruct n; [contradiction|]. reflexivity.
Qed.

Lemma get_Some_keys (key v : string) (env : Env) :
  get key env = Some v -> key ∈ keys env.
Proof.
  induction env as [|[k w] env IH]; [discriminate|].
  cbn. destruct (String.eqb_spec k key) as [->|Hne].
  - intros _. left.
  - intros H. right. apply IH. exact H.
Qed.

Lemma truthy_true (s : string) : truthy s = true <-> s <> EmptyString.
Proof. destruct s; cbn; split; congruence. Qed.

(** X14: the transaction monitor watches exactly the wallets [n] for which
    the environment holds a non-empty [CEX_<n>_LABEL] and a non-empty
    [CEX_<n>_ADDRESS], [n] being a non-empty run of digits; the ranges of
    a wallet without [CEX_<n>_RANGE] are the empty text. *)
Theorem readCexConfigs_spec (env : Env) (c : CexConfig) :
  c ∈ readCexConfigs env <->
  exists n,
    n <> EmptyString /\ allDigits n = true
    /\ get (labelKey n) env = Some (label c) /\ label c <> EmptyString
    /\ get (addressKey n) env = Some (address c) /\ address c <> EmptyString
    /\ ranges c = default EmptyString (get (rangeKey n) env).
Proof.
  unfold readCexConfigs. rewrite list_elem_of_omap. split.
  - intros (k & Hk & H).
    destruct (matchLabel k) as [n|] eqn:Hm; [|discriminate].
    apply matchLabel_spec in Hm as (-> & Hne & Hn).
    cbv zeta in H.
    destruct (get (labelKey n) env) as [l|] eqn:Hl; [|discriminate].
    destruct (get (addressKey n) env) as [a|] eqn:Ha; [|discriminate].
    destruct (truthy l) eqn:Htl; [|discriminate].
    destruct (truthy a) eqn:Hta; [|discriminate].
    cbn in H. injection H as <-. cbn [label address ranges].
    exists n. repeat split; try assumption; try reflexivity; apply truthy_true; assumption.
  - intros (n & Hne & Hn & Hl & Hln & Ha & Han & Hr).
    exists (labelKey n). split; [exact (get_Some_keys _ _ _ Hl)|].
    rewrite (proj2 (matchLabel_spec (labelKey n) n)) by (repeat split; assumption).
    cbv zeta. rewrite Hl, Ha.
    rewrite (proj2 (truthy_true _) Hln), (proj2 (truthy_true _) Han). cbn.
    f_equal. destruct c as [l a r]. cbn in *. rewrite Hr. reflexivity.
Qed.

End EnvFacts.

Section StartupFacts.

Import JSString Env Index.

Lemma trimStart_empty (s : string) :
  trimStart s = EmptyString <->
  (forall c, c ∈ list_ascii_of_string s -> isWhiteSpace c = true).
Proof.
  induction s as [|c s IH]; cbn [trimStart list_ascii_of_string].
  - split; [|reflexivity]. intros _ c Hc. inversion Hc.
  - destruct (isWhiteSpace c) eqn:Hc.
    + rewrite IH. split.
      * intros H c' Hc'. apply elem_of_cons in Hc' as [->|Hc']; [exact Hc|apply H; exact Hc'].
      * intros H c' Hc'. apply H. right. exact Hc'.
    + split; [discriminate|]. intros H. specialize (H c ltac:(left)). congruence.
Qed.

(** [trim] gives the empty text exactly on a text of white space. *)
Lemma trim_empty (s : string) :
  trim s = EmptyString <->
  (forall c, c ∈ list_ascii_of_string s -> isWhiteSpace c = true).
Proof.
  rewrite <- trimStart_empty. unfold trim. split.
  - intros H. destruct (trimStart_head s) as [Hs|(c & t & Hs & Hc)]; [exact Hs|].
    rewrite Hs in H. destruct (trimEnd_head c t Hc) as [u Hu]. rewrite Hu in H. discriminate.
  - intros ->. reflexivity.
Qed.

Lemma setting_spec (name : string) (env : Env) :
  setting name env = match get name env with Some v => trim v | None => EmptyString end.
Proof.
  unfold setting. destruct (get name env) as [[|c v]|]; reflexivity.
Qed.

(** X16: the entry point exits with code 1 exactly when [RPC_PRIMARY] is
    unset or holds nothing but white space; otherwise the listener starts
    on the trimmed primary endpoint, with the trimmed secondary endpoint
    if that is not empty and with none otherwise. *)
Theorem main_requires_primary (env : Env) :
  (main env = Exit 1 <->
   match get "RPC_PRIMARY" env with
   | None => True
   | Some v => forall c, c ∈ list_ascii_of_string v -> isWhiteSpace c = true
   end)
  /\ (forall primary secondary,
        main env = Start primary secondary ->
        primary <> EmptyString /\ trim primary = primary
        /\ (exists v, get "RPC_PRIMARY" env = Some v /\ primary = trim v)
        /\ secondary =
           match get "RPC_SECONDARY" env with
           | Some w => if truthy (trim w) then Some (trim w) else None
           | None => None
           end).
Proof.
  unfold main. cbv zeta. rewrite !setting_spec. split.
  - destruct (get "RPC_PRIMARY" env) as [v|].
    + rewrite <- trim_empty. destruct (trim v); cbn; split; congruence.
    + cbn. split; reflexivity.
  - intros primary secondary H.
    destruct (get "RPC_PRIMARY" env) as [v|]; [|discriminate].
    destruct (trim v) as [|c t] eqn:Hv; [discriminate|].
    cbn [truthy negb] in H. injection H as <- <-.
    split; [discriminate|]. split; [rewrite <- Hv; apply trim_idempotent|].
    split; [exists v; split; [reflexivity|symmetry; exact Hv]|].
    destruct (get "RPC_SECONDARY" env); reflexivity.
Qed.

End StartupFacts.

(** ** Further properties: the transaction monitor *)

Section RetryFacts.

Import TransactionMonitor.

Context {T : Type}.

(** X12: a transaction is requested at most three times, with a pause
    after every failed call but the last.  The result is the first
    transaction that a call returns, if one of the three calls returns
    one; otherwise the handler gives up, and the message it logs is that
    of the last rejected call, or [Unknown error]. *)
Theorem fetchWithRetry_spec (respond : nat -> Attempt T) :
  (1 <= calls (fetchWithRetry respond) <= 3)%nat
  /\ sleeps (fetchWithRetry respond) = (calls (fetchWithRetry respond) - 1)%nat
  /\ (forall tx,
        fetched (fetchWithRetry respond) = Some tx <->
        exists i, (i < 3)%nat /\ respond i = Found tx
                  /\ calls (fetchWithRetry respond) = S i
                  /\ forall j tx', (j < i)%nat -> respond j <> Found tx')
  /\ (fetched (fetchWithRetry respond) = None ->
      calls (fetchWithRetry respond) = 3%nat
      /\ errorMessage (lastError (fetchWithRetry respond)) =
         match respond 2%nat, respond 1%nat, respond 0%nat with
         | Rejected (Some m), _, _ => m
         | Rejected None, _, _ => "Unknown error"
         | _, Rejected (Some m), _ => m
         | _, Rejected None, _ => "Unknown error"
         | _, _, Rejected (Some m) => m
         | _, _, _ => "Unknown error"
         end%string).
Proof.
  unfold fetchWithRetry. cbn [retryLoop].
  repeat match goal with
         | |- context [match respond ?i with _ => _ end] =>
             let H := fresh "H" in destruct (respond i) eqn:H
         end;
    cbn [fetched calls sleeps lastError errorMessage Nat.ltb Nat.leb];
    (split; [lia|]); (split; [reflexivity|]); split.
  all: try (intros txr; split;
            [ intros Hsome; try discriminate Hsome; injection Hsome as Heq; subst txr;
              first [ exists 0%nat; split; [lia|]; split; [assumption|];
                      split; [reflexivity|]; intros j tx' Hj; lia
                    | exists 1%nat; split; [lia|]; split; [assumption|];
                      split; [reflexivity|]; intros j tx' Hj;
                      destruct j as [|j]; [congruence|lia]
                    | exists 2%nat; split; [lia|]; split; [assumption|];
                      split; [reflexivity|]; intros j tx' Hj;
                      destruct j as [|[|j]]; [congruence|congruence|lia] ]
            | intros (i & Hi & Hf & Hc & Hno); injection Hc as Hc; subst i; congruence ]).
  all: try (intros Hn; discriminate Hn).
  all: intros _; split; [reflexivity|];
    repeat match goal with
           | |- context [match ?m with Some _ => _ | None => _ end] => destruct m
           end; reflexivity.
Qed.

End RetryFacts.

Section LastSlotFacts.

Import TransactionMonitor.



End LastSlotFacts.

Section BackoffFacts.

Import Subscription.

(** The value of [backoffMs] after [k] failed rounds. *)
Lemma backoff_double (k : nat) :
  Z.min (Z.min (500 * 2 ^ Z.of_nat k) 60000 * 2) 60000
  = Z.min (500 * 2 ^ Z.of_nat (S k)) 60000.
Proof.
  rewrite Nat2Z.inj_succ, Z.pow_succ_r by lia.
  assert (0 < 2 ^ Z.of_nat k) by (apply Z.pow_pos_nonneg; lia). lia.
Qed.

Lemma ensureSubscription_spec (rounds : nat) (attempt : nat -> bool) (round : nat) :
  forall waits b ok,
    ensureSubscription rounds attempt round (Z.min (500 * 2 ^ Z.of_nat round) 60000)
      = (waits, b, ok) ->
    waits = map (fun k => Z.min (500 * 2 ^ Z.of_nat k) 60000) (seq round (length waits))
    /\ (forall k, (round <= k < round + length waits)%nat -> attempt k = false)
    /\ (ok = true -> b = 500 /\ attempt (round + length waits)%nat = true)
    /\ (ok = false ->
        length waits = rounds
        /\ b = Z.min (500 * 2 ^ Z.of_nat (round + rounds)) 60000).
Proof.
  revert round. induction rounds as [|rounds IH]; intros round waits b ok H.
  - cbn in H. injection H as <- <- <-. cbn [length map seq].
    split; [reflexivity|]. split; [intros k Hk; lia|]. split; [discriminate|].
    intros _. split; [reflexivity|]. rewrite Nat.add_0_r. reflexivity.
  - cbn [ensureSubscription] in H. destruct (attempt round) eqn:Hround.
    + injection H as <- <- <-. cbn [length map seq].
      split; [reflexivity|]. split; [intros k Hk; lia|]. split; [|discriminate].
      intros _. split; [reflexivity|]. rewrite Nat.add_0_r. exact Hround.
    + rewrite backoff_double in H.
      destruct (ensureSubscription rounds attempt (S round)
                  (Z.min (500 * 2 ^ Z.of_nat (S round)) 60000)) as [[waits' b'] ok'] eqn:Hrec.
      injection H as <- <- <-.
      destruct (IH (S round) waits' b' ok' Hrec) as (Hw & Hfail & Hok & Hno).
      cbn [length map seq].
      split; [f_equal; exact Hw|]. split; [|split].
      * intros k Hk. destruct (decide (k = round)) as [->|Hne]; [exact Hround|].
        apply Hfail. lia.
      * intros Htrue. destruct (Hok Htrue) as [Hb Hat]. split; [exact Hb|].
        replace (round + S (length waits'))%nat with (S round + length waits')%nat by lia.
        exact Hat.
      * intros Hfalse. destruct (Hno Hfalse) as [Hlen Hb]. split; [f_equal; exact Hlen|].
        replace (round + S rounds)%nat with (S round + rounds)%nat by lia.
        exact Hb.
Qed.

(** X15: while subscribing fails, the listener waits 500 ms, then twice as
    long after every failure, and never more than 60 s: the wait after
    failure number [k] is [min(500 * 2^k, 60000)].  When a round succeeds
    the delay is back at 500 ms.  With no wallet to subscribe to, no round
    of the transaction monitor ever succeeds. *)
Theorem subscription_backoff (rounds : nat) :
  (forall (attempt : nat -> bool) waits b ok,
      ensureSubscription rounds attempt 0 500 = (waits, b, ok) ->
      waits = map (fun k => Z.min (500 * 2 ^ Z.of_nat k) 60000) (seq 0 (length waits))
      /\ Forall (fun w => 500 <= w <= 60000) waits
      /\ (forall k, (k < length waits)%nat -> attempt k = false)
      /\ (ok = true -> b = 500 /\ attempt (length waits) = true)
      /\ (ok = false -> length waits = rounds))
  /\ (forall (C : Type) (subscribe : nat -> C -> bool),
        ensureSubscriptions rounds subscribe []
        = (map (fun k => Z.min (500 * 2 ^ Z.of_nat k) 60000) (seq 0 rounds),
           Z.min (500 * 2 ^ Z.of_nat rounds) 60000, false)).
Proof.
  split.
  - intros attempt waits b ok H.
    destruct (ensureSubscription_spec rounds attempt 0 waits b ok H) as (Hw & Hfail & Hok & Hno).
    split; [exact Hw|]. split; [|split; [|split]].
    + rewrite Hw. apply Forall_forall. intros w Hin.
      apply list_elem_of_fmap in Hin as (k & -> & _).
      assert (0 < 2 ^ Z.of_nat k) by (apply Z.pow_pos_nonneg; lia). lia.
    + intros k Hk. apply Hfail. lia.
    + intros Htrue. apply Hok. exact Htrue.
    + intros Hfalse. apply Hno. exact Hfalse.
  - intros C subscribe. unfold ensureSubscriptions.
    destruct (ensureSubscription rounds
                (fun round => negb (length (setupSubscriptions (subscribe round) []) =? 0)%nat)
                0 500) as [[waits b] ok] eqn:H.
    destruct (ensureSubscription_spec rounds _ 0 waits b ok H) as (Hw & Hfail & Hok & Hno).
    destruct ok.
    + exfalso. destruct (Hok eq_refl) as [_ Htrue]. cbn in Htrue. discriminate.
    + destruct (Hno eq_refl) as [Hlen ->]. rewrite Hw, Hlen. reflexivity.
Qed.

End BackoffFacts.

(** ** Further properties: the wallets of the block monitor *)

Section ObjectFacts.

Import JSObject.

Context {V : Type}.

Lemma get_set (key k : string) (v : V) (obj : Obj V) :
  getProperty k (setProperty key v obj) = if String.eqb key k then Some v else getProperty k obj.
Proof.
  induction obj as [|[k' w] obj IH]; cbn [setProperty getProperty].
  - destruct (String.eqb_spec key k); reflexivity.
  - destruct (String.eqb_spec k' key) as [->|Hne]; cbn [getProperty].
    + destruct (String.eqb_spec key k); reflexivity.
    + destruct (String.eqb_spec k' k) as [->|Hne'].
      * destruct (String.eqb_spec key k) as [->|_]; [contradiction|reflexivity].
      * exact IH.
Qed.

Lemma get_keys (k : string) (obj : Obj V) :
  is_Some (getProperty k obj) <-> k ∈ map fst obj.
Proof.
  induction obj as [|[k' w] obj IH]; cbn [getProperty map fst].
  - split; [intros [? H]; discriminate|intros H; inversion H].
  - destruct (String.eqb_spec k' k) as [->|Hne].
    + split; [intros _; left|intros _; eexists; reflexivity].
    + rewrite IH. split; [intros H; right; exact H|].
      intros H. apply elem_of_cons in H as [->|H]; [contradiction|exact H].
Qed.

Lemma insertBy_perm {A : Type} (after : A -> A -> bool) (a : A) (l : list A) :
  insertBy after a l ≡ₚ a :: l.
Proof.
  induction l as [|b l IH]; [reflexivity|]. cbn [insertBy].
  destruct (after a b); [|reflexivity].
  rewrite IH. apply Permutation_swap.
Qed.

Lemma sortBy_perm {A : Type} (after : A -> A -> bool) (l : list A) :
  sortBy after l ≡ₚ l.
Proof.
  induction l as [|a l IH]; [reflexivity|].
  change (sortBy after (a :: l)) with (insertBy after a (sortBy after l)).
  rewrite insertBy_perm, IH. reflexivity.
Qed.

Lemma filter_partition_perm {A : Type} (P : A -> Prop) `{forall x, Decision (P x)}
  (l : list A) :
  filter P l ++ filter (fun x => ~ P x) l ≡ₚ l.
Proof.
  induction l as [|x l IH]; [reflexivity|].
  rewrite !filter_cons. destruct (decide (P x)) as [Hp|Hp].
  - destruct (decide (~ P x)) as [Hn|_]; [contradiction|].
    cbn. rewrite IH. reflexivity.
  - destruct (decide (~ P x)) as [_|Hn]; [|contradiction].
    rewrite <- Permutation_middle, IH. reflexivity.
Qed.

Lemma ownKeys_perm (obj : Obj V) : ownKeys obj ≡ₚ map fst obj.
Proof.
  unfold ownKeys. rewrite sortBy_perm. apply filter_partition_perm.
Qed.

(** Insertion into a sorted list keeps it sorted, for an order that is
    transitive and total on the elements concerned. *)
Lemma insertBy_sorted {A : Type} (after : A -> A -> bool) (P : A -> Prop) :
  (forall a b c, P a -> P b -> P c ->
                 after a b = false -> after b c = false -> after a c = false) ->
  (forall a b, P a -> P b -> after a b = true -> after b a = false) ->
  forall (a : A) (l : list A),
    P a -> Forall P l ->
    StronglySorted (fun x y => after x y = false) l ->
    StronglySorted (fun x y => after x y = false) (insertBy after a l).
Proof.
  intros Htrans Htotal a l Ha. induction l as [|b l IH]; intros Hl Hs.
  - cbn. constructor; constructor.
  - cbn [insertBy]. apply Forall_cons in Hl as [Hb Hl].
    apply StronglySorted_inv in Hs as [Hs Hbl].
    destruct (after a b) eqn:Hab.
    + constructor; [apply IH; assumption|].
      apply Forall_forall. intros x Hx.
      rewrite insertBy_perm in Hx.
      apply elem_of_cons in Hx as [->|Hx].
      * apply Htotal; assumption.
      * rewrite Forall_forall in Hbl. apply Hbl. exact Hx.
    + constructor; [constructor; assumption|].
      constructor; [exact Hab|].
      rewrite Forall_forall in Hbl. apply Forall_forall. intros x Hx.
      apply (Htrans a b x); try assumption.
      * rewrite Forall_forall in Hl. apply Hl. exact Hx.
      * apply Hbl. exact Hx.
Qed.

Lemma sortBy_sorted {A : Type} (after : A -> A -> bool) (P : A -> Prop) :
  (forall a b c, P a -> P b -> P c ->
                 after a b = false -> after b c = false -> after a c = false) ->
  (forall a b, P a -> P b -> after a b = true -> after b a = false) ->
  forall l : list A,
    Forall P l -> StronglySorted (fun x y => after x y = false) (sortBy after l).
Proof.
  intros Htrans Htotal l. induction l as [|a l IH]; intros Hl.
  - constructor.
  - apply Forall_cons in Hl as [Ha Hl].
    change (sortBy after (a :: l)) with (insertBy after a (sortBy after l)).
    apply (insertBy_sorted after P Htrans Htotal); [exact Ha| |apply IH; exact Hl].
    apply Forall_forall. intros x Hx. rewrite sortBy_perm in Hx.
    rewrite Forall_forall in Hl. apply Hl. exact Hx.
Qed.

End ObjectFacts.

Section ConfigFacts.

Import JSString Env BlockMonitor.

Lemma trimmed_spec (raw : option string) : trimmed raw = trim (default EmptyString raw).
Proof. destruct raw as [[|c v]|]; reflexivity. Qed.

Lemma configOf_spec (env : Env) (n : string) (c : CexConfig) :
  configOf env n = Some c <->
  exists l a,
    get (labelKey n) env = Some l /\ get (addressKey n) env = Some a
    /\ trim l <> EmptyString /\ trim a <> EmptyString
    /\ c = {| label := trim l; address := trim a;
              ranges := trim (default EmptyString (get (rangeKey n) env)) |}.
Proof.
  unfold configOf. cbv zeta. rewrite !trimmed_spec, !trim_idempotent. split.
  - intros H.
    destruct (truthy (trim (default EmptyString (get (labelKey n) env)))) eqn:Hl;
      [|cbn [andb] in H; discriminate H].
    destruct (truthy (trim (default EmptyString (get (addressKey n) env)))) eqn:Ha;
      [|cbn [andb] in H; discriminate H].
    cbn [andb] in H. injection H as <-.
    destruct (get (labelKey n) env) as [l|]; [|discriminate Hl].
    destruct (get (addressKey n) env) as [a|]; [|discriminate Ha].
    cbn [default from_option id] in *. exists l, a.
    split; [reflexivity|]. split; [reflexivity|].
    split; [apply truthy_true; exact Hl|]. split; [apply truthy_true; exact Ha|reflexivity].
  - intros (l & a & -> & -> & Hl & Ha & ->). cbn [default from_option id].
    rewrite (proj2 (truthy_true _) Hl), (proj2 (truthy_true _) Ha). reflexivity.
Qed.

Lemma collect_get (env : Env) (l : list string) (n : string) (c : CexConfig) :
  JSObject.getProperty n
    (fold_left (fun map k =>
                  match matchLabel k with
                  | Some n =>
                      match configOf env n with
                      | Some cfg => JSObject.setProperty n cfg map
                      | None => map
                      end
                  | None => map
                  end) l []) = Some c <->
  (exists k, k ∈ l /\ matchLabel k = Some n) /\ configOf env n = Some c.
Proof.
  induction l as [|k l IH] using rev_ind.
  - cbn. split; [discriminate|]. intros [(k & Hk & _) _]. inversion Hk.
  - rewrite fold_left_app. cbn [fold_left].
    assert (Hsnoc : forall n', matchLabel k = Some n' -> n' <> n ->
              ((exists k', k' ∈ l ++ [k] /\ matchLabel k' = Some n)
               <-> (exists k', k' ∈ l /\ matchLabel k' = Some n))).
    { intros n' Hk Hne. split; intros (k' & Hin & Hm).
      - apply elem_of_app in Hin as [Hin|Hin]; [exists k'; split; assumption|].
        apply list_elem_of_singleton in Hin. subst k'. congruence.
      - exists k'. split; [apply elem_of_app; left; exact Hin|exact Hm]. }
    destruct (matchLabel k) as [n'|] eqn:Hk.
    + destruct (configOf env n') as [cfg|] eqn:Hcfg.
      * rewrite (get_set (V:=CexConfig)). destruct (String.eqb_spec n' n) as [->|Hne].
        -- split.
           ++ intros [= <-]. split; [|exact Hcfg].
              exists k. split; [apply elem_of_app; right; left|exact Hk].
           ++ intros [_ H]. congruence.
        -- rewrite IH, (Hsnoc n' eq_refl Hne). reflexivity.
      * destruct (String.eqb_spec n' n) as [->|Hne].
        -- rewrite IH. split; intros [_ H]; congruence.
        -- rewrite IH, (Hsnoc n' eq_refl Hne). reflexivity.
    + rewrite IH. split; intros [(k' & Hin & Hm) Hc]; (split; [|exact Hc]); exists k'.
      * split; [apply elem_of_app; left; exact Hin|exact Hm].
      * split; [|exact Hm]. apply elem_of_app in Hin as [Hin|Hin]; [exact Hin|].
        apply list_elem_of_singleton in Hin. subst k'. congruence.
Qed.

Lemma sortedKeys_elem (env : Env) (n : string) :
  n ∈ sortedKeys env <-> is_Some (JSObject.getProperty n (collectConfigs env)).
Proof.
  unfold sortedKeys, JSObject.sort. rewrite sortBy_perm, ownKeys_perm. symmetry. apply get_keys.
Qed.

(** X17: the block monitor watches exactly the wallets [n], a non-empty
    run of digits, for which [CEX_<n>_LABEL] and [CEX_<n>_ADDRESS] are set
    to more than white space; the label, the address and the ranges of
    every entry are trimmed, so none of them starts or ends with white
    space, and the label and the address are not empty. *)
Theorem readCexConfigs_trimmed (env : Env) (c : CexConfig) :
  (c ∈ BlockMonitor.readCexConfigs env <->
   exists n l a,
     n <> EmptyString /\ allDigits n = true
     /\ get (labelKey n) env = Some l /\ get (addressKey n) env = Some a
     /\ trim l <> EmptyString /\ trim a <> EmptyString
     /\ c = {| label := trim l; address := trim a;
               ranges := trim (default EmptyString (get (rangeKey n) env)) |})
  /\ (c ∈ BlockMonitor.readCexConfigs env ->
      label c <> EmptyString /\ address c <> EmptyString
      /\ trim (label c) = label c /\ trim (address c) = address c
      /\ trim (ranges c) = ranges c).
Proof.
  assert (Hiff : c ∈ BlockMonitor.readCexConfigs env <->
            exists n l a,
              n <> EmptyString /\ allDigits n = true
              /\ get (labelKey n) env = Some l /\ get (addressKey n) env = Some a
              /\ trim l <> EmptyString /\ trim a <> EmptyString
              /\ c = {| label := trim l; address := trim a;
                        ranges := trim (default EmptyString (get (rangeKey n) env)) |}).
  { unfold BlockMonitor.readCexConfigs. rewrite list_elem_of_omap. split.
    - intros (n & _ & Hget). unfold collectConfigs in Hget.
      apply collect_get in Hget as [(k & Hk & Hm) Hc].
      apply matchLabel_spec in Hm as (-> & Hne & Hd).
      apply configOf_spec in Hc as (l & a & Hl & Ha & Hlt & Hat & ->).
      exists n, l, a. repeat (split; [assumption|]). reflexivity.
    - intros (n & l & a & Hne & Hd & Hl & Ha & Hlt & Hat & ->).
      assert (Hget : JSObject.getProperty n (collectConfigs env)
                     = Some {| label := trim l; address := trim a;
                               ranges := trim (default EmptyString (get (rangeKey n) env)) |}).
      { unfold collectConfigs. apply collect_get. split.
        - exists (labelKey n). split; [exact (get_Some_keys _ _ _ Hl)|].
          apply matchLabel_spec. repeat split; assumption.
        - apply configOf_spec. exists l, a. repeat (split; [assumption|]). reflexivity. }
      exists n. split; [|exact Hget]. apply sortedKeys_elem. rewrite Hget. eexists; reflexivity. }
  split; [exact Hiff|].
  intros Hin. apply Hiff in Hin as (n & l & a & _ & _ & _ & _ & Hlt & Hat & ->).
  cbn [label address ranges]. rewrite !trim_idempotent. repeat split; assumption.
Qed.

End ConfigFacts.

Section SortFacts.

Import JSString JSNumber Env BlockMonitor.

Lemma digit_not_space (c : ascii) : isDigit c = true -> isWhiteSpace c = false.
Proof.
  unfold isDigit, isWhiteSpace. intros H. apply andb_prop in H as [H1 H2].
  apply N.leb_le in H1, H2.
  repeat match goal with
         | |- context [(?a =? ?b)%N] => destruct (N.eqb_spec a b); try lia
         end.
  all: try reflexivity.
Qed.

Lemma trimEnd_digits (s : string) : allDigits s = true -> trimEnd s = s.
Proof.
  induction s as [|c s IH]; [reflexivity|].
  cbn [allDigits]. intros H. apply andb_prop in H as [Hc Hs].
  cbn [trimEnd]. rewrite (IH Hs). destruct s; [|reflexivity].
  rewrite (digit_not_space c Hc). reflexivity.
Qed.

Lemma trim_digits (s : string) : allDigits s = true -> trim s = s.
Proof.
  intros H. unfold trim. destruct s as [|c s]; [reflexivity|].
  pose proof H as H'. cbn [allDigits] in H'. apply andb_prop in H' as [Hc _].
  cbn [trimStart]. rewrite (digit_not_space c Hc). apply trimEnd_digits. exact H.
Qed.

Lemma digitValue_digit (c : ascii) :
  isDigit c = true ->
  digitValue 10 c = Some (Z.of_N (N_of_ascii c) - 48)
  /\ 0 <= Z.of_N (N_of_ascii c) - 48.
Proof.
  unfold isDigit, digitValue. intros H. apply andb_prop in H as [H1 H2].
  apply N.leb_le in H1, H2. cbv zeta.
  destruct (Z.leb_spec 48 (Z.of_N (N_of_ascii c))); [|lia].
  destruct (Z.leb_spec (Z.of_N (N_of_ascii c)) 57); [|lia].
  cbn [andb]. destruct (Z.ltb_spec (Z.of_N (N_of_ascii c) - 48) 10); [|lia].
  split; [reflexivity|lia].
Qed.

Lemma spanDigits_digits (s : string) :
  allDigits s = true ->
  exists ds, JSNumber.spanDigits 10 s = (ds, EmptyString)
             /\ Forall (fun d => 0 <= d) ds /\ (s <> EmptyString -> ds <> []).
Proof.
  induction s as [|c s IH]; intros H.
  - exists []. split; [reflexivity|]. split; [constructor|]. intros Hne. congruence.
  - cbn [allDigits] in H. apply andb_prop in H as [Hc Hs].
    destruct (IH Hs) as (ds & Hds & Hpos & _).
    destruct (digitValue_digit c Hc) as [Hd Hd0].
    exists ((Z.of_N (N_of_ascii c) - 48) :: ds).
    cbn [JSNumber.spanDigits]. rewrite Hd, Hds.
    split; [reflexivity|]. split; [constructor; assumption|discriminate].
Qed.

Lemma digitsValue_nonneg (ds : list Z) :
  Forall (fun d => 0 <= d) ds -> 0 <= digitsValue 10 ds.
Proof.
  unfold digitsValue.
  assert (H : forall acc, 0 <= acc -> Forall (fun d => 0 <= d) ds ->
                          0 <= fold_left (fun acc d => acc * 10 + d) ds acc).
  { induction ds as [|d ds IH]; intros acc Hacc Hds; [exact Hacc|].
    apply Forall_cons in Hds as [Hd Hds]. cbn [fold_left]. apply IH; [lia|exact Hds]. }
  apply H. lia.
Qed.

(** The number of a text of digits: a non-negative number, never NaN. *)
Lemma ofDecimal_nonneg (v : Z) :
  0 <= v ->
  valid (ofDecimal false v 0) = true
  /\ isNaN (ofDecimal false v 0) = false
  /\ signbit (ofDecimal false v 0) = false.
Proof.
  intros Hv. split; [apply ofDecimal_valid|].
  unfold ofDecimal. destruct v as [|p|p]; [split; reflexivity| |lia].
  change (0 <=? 0) with true. cbv iota.
  destruct (Zpos p * 10 ^ 0) as [|q|q] eqn:Hq; try lia.
  pose proof (binary_round_magnitude false q 0) as Hm.
  assert (Hd : 0 < Zdigits2 (Zpos q)) by (apply Zdigits2_bounds; lia).
  specialize (Hm ltac:(lia)).
  destruct (binary_round prec emax false q 0) as [s|s| |s m e]; try contradiction.
  - subst s. split; reflexivity.
  - destruct Hm as [-> _]. split; reflexivity.
Qed.

Lemma ofString_digits (n : string) :
  allDigits n = true -> n <> EmptyString ->
  valid (ofString n) = true /\ isNaN (ofString n) = false /\ signbit (ofString n) = false.
Proof.
  intros Hd Hne.
  destruct (spanDigits_digits n Hd) as (ds & Hds & Hpos & Hnil).
  specialize (Hnil Hne).
  assert (Hval : ofString n = ofDecimal false (digitsValue 10 ds) 0).
  { unfold ofString. rewrite (trim_digits n Hd).
    destruct n as [|c0 rest]; [contradiction|].
    pose proof Hd as Hd'. cbn [allDigits] in Hd'. apply andb_prop in Hd' as [Hc0 Hrest].
    assert (Hnd : parseNonDecimal (String c0 rest) = None).
    { destruct rest as [|c1 rest].
      - destruct c0 as [[] [] [] [] [] [] [] []]; reflexivity.
      - cbn [allDigits] in Hrest. apply andb_prop in Hrest as [Hc1 _].
        destruct c0 as [[] [] [] [] [] [] [] []]; try reflexivity.
        destruct c1 as [[] [] [] [] [] [] [] []]; try discriminate Hc1; reflexivity. }
    rewrite Hnd. unfold parseDecimal.
    assert (Hsign : match String c0 rest with
                    | String "+" r => (false, r)
                    | String "-" r => (true, r)
                    | _ => (false, String c0 rest)
                    end = (false, String c0 rest)).
    { destruct c0 as [[] [] [] [] [] [] [] []]; try discriminate Hc0; reflexivity. }
    rewrite Hsign.
    assert (Hinf : String.eqb (String c0 rest) "Infinity" = false).
    { cbn [String.eqb]. destruct (Ascii.eqb_spec c0 "I") as [->|_]; [discriminate Hc0|].
      reflexivity. }
    rewrite Hinf, Hds. cbn [app length parseExponent]. rewrite app_nil_r.
    destruct ds as [|d ds]; [contradiction|]. reflexivity. }
  rewrite Hval. apply ofDecimal_nonneg. apply digitsValue_nonneg. exact Hpos.
Qed.

Lemma iter_xO_value (m d : positive) : Zpos (Pos.iter xO m d) = Zpos m * 2 ^ Zpos d.
Proof.
  induction d as [|d IH] using Pos.peano_ind.
  - cbn [Pos.iter]. lia.
  - rewrite Pos.iter_succ, Pos2Z.inj_xO, IH, Pos2Z.inj_succ, Z.pow_succ_r by lia. lia.
Qed.

Lemma shl_align_value (m : positive) (e ez : Z) :
  ez <= e -> Zpos (fst (shl_align m e ez)) = Zpos m * 2 ^ (e - ez).
Proof.
  intros Hle. unfold shl_align. destruct (ez - e) as [|d|d] eqn:Hd; cbn [fst].
  - replace (e - ez) with 0 by lia. lia.
  - lia.
  - rewrite iter_xO_value. f_equal. f_equal. lia.
Qed.

(** The sign of the difference of two non-negative numbers: [x - y > 0]
    exactly when [y < x]. *)
Lemma sub_sign (x y : number) :
  valid x = true -> valid y = true ->
  isNaN x = false -> isNaN y = false ->
  signbit x = false -> signbit y = false ->
  gt (sub x y) (ofZ 0) = lt y x.
Proof.
  intros Hvx Hvy Hnx Hny Hsx Hsy.
  destruct x as [sx|sx| |sx mx ex]; try discriminate Hnx; cbn [signbit] in Hsx; subst sx;
    destruct y as [sy|sy| |sy my ey]; try discriminate Hny; cbn [signbit] in Hsy; subst sy;
    try reflexivity.
  unfold gt, lt, sub, SFltb.
  rewrite (compare_units _ _ _ _ Hvy Hvx eq_refl eq_refl).
  rewrite !Z.mul_1_l.
  pose proof (valid_finite _ _ _ Hvx) as (Hex & _ & _).
  pose proof (valid_finite _ _ _ Hvy) as (Hey & _ & _).
  cbn [SFsub cond_Zopp]. cbv zeta.
  set (ez := Z.min ex ey).
  rewrite (shl_align_value mx ex ez), (shl_align_value my ey ez) by (unfold ez; lia).
  set (D := Zpos mx * 2 ^ (ex - ez) - Zpos my * 2 ^ (ey - ez)).
  assert (Hp : 0 < 2 ^ (ez + 1074)) by (apply Z.pow_pos_nonneg; unfold ez; lia).
  assert (Hux : Zpos mx * 2 ^ (ex + 1074) = Zpos mx * 2 ^ (ex - ez) * 2 ^ (ez + 1074)).
  { rewrite <- Z.mul_assoc, <- Z.pow_add_r by (unfold ez; lia). do 2 f_equal. lia. }
  assert (Huy : Zpos my * 2 ^ (ey + 1074) = Zpos my * 2 ^ (ey - ez) * 2 ^ (ez + 1074)).
  { rewrite <- Z.mul_assoc, <- Z.pow_add_r by (unfold ez; lia). do 2 f_equal. lia. }
  assert (Hdiff : Zpos mx * 2 ^ (ex + 1074) - Zpos my * 2 ^ (ey + 1074)
                  = D * 2 ^ (ez + 1074)).
  { rewrite Hux, Huy. unfold D. ring. }
  destruct D as [|d|d] eqn:HD; cbn [binary_normalize].
  - assert (Heq : Zpos my * 2 ^ (ey + 1074) = Zpos mx * 2 ^ (ex + 1074)) by lia.
    rewrite Heq, Z.compare_refl. reflexivity.
  - assert (Hlt : Zpos my * 2 ^ (ey + 1074) < Zpos mx * 2 ^ (ex + 1074)) by nia.
    apply Z.compare_lt_iff in Hlt. rewrite Hlt.
    pose proof (binary_round_magnitude false d ez) as Hm.
    assert (Hd : 0 < Zdigits2 (Zpos d)) by (apply Zdigits2_bounds; lia).
    specialize (Hm ltac:(unfold ez; lia)).
    destruct (binary_round prec emax false d ez) as [s|s| |s m e]; try contradiction.
    + subst s. reflexivity.
    + destruct Hm as [-> _]. reflexivity.
  - assert (Hgt : Zpos mx * 2 ^ (ex + 1074) < Zpos my * 2 ^ (ey + 1074)) by nia.
    apply Z.compare_gt_iff in Hgt. rewrite Hgt.
    pose proof (binary_round_magnitude true d ez) as Hm.
    assert (Hd : 0 < Zdigits2 (Zpos d)) by (apply Zdigits2_bounds; lia).
    specialize (Hm ltac:(unfold ez; lia)).
    destruct (binary_round prec emax true d ez) as [s|s| |s m e]; try contradiction.
    + subst s. reflexivity.
    + destruct Hm as [-> _]. reflexivity.
Qed.

End SortFacts.

Section SortedConfigs.

Import JSString JSNumber Env BlockMonitor.

Lemma lt_le_value (x y : number) (vx vy : Value) :
  valid x = true -> valid y = true ->
  value x = Some vx -> value y = Some vy ->
  (lt y x = false <-> le x y = true)
  /\ (lt y x = true -> lt x y = false).
Proof.
  intros Hx Hy Hvx Hvy. unfold lt, le, SFltb.
  rewrite (compare_value _ _ _ _ Hy Hx Hvy Hvx), (compare_value _ _ _ _ Hx Hy Hvx Hvy).
  rewrite (compareValue_antisym vy vx).
  destruct (compareValue vy vx); cbn; repeat split; congruence.
Qed.

Lemma digits_value (n : string) :
  allDigits n = true -> n <> EmptyString ->
  valid (ofString n) = true /\ exists v, value (ofString n) = Some v.
Proof.
  intros Hd Hne. destruct (ofString_digits n Hd Hne) as (Hv & Hn & _).
  split; [exact Hv|]. apply value_is_Some. apply isNaN_false. exact Hn.
Qed.

Lemma StronglySorted_weaken {A : Type} (R R' : A -> A -> Prop) (P : A -> Prop) (l : list A) :
  (forall a b, P a -> P b -> R a b -> R' a b) ->
  Forall P l -> StronglySorted R l -> StronglySorted R' l.
Proof.
  intros Himpl. induction l as [|a l IH]; intros HP Hs; [constructor|].
  apply Forall_cons in HP as [Ha HP]. apply StronglySorted_inv in Hs as [Hs Hal].
  constructor; [apply IH; assumption|].
  rewrite Forall_forall in Hal, HP. apply Forall_forall. intros b Hb.
  apply Himpl; [exact Ha|apply HP; exact Hb|apply Hal; exact Hb].
Qed.

Lemma set_keys {V : Type} (key : string) (v : V) (obj : JSObject.Obj V) :
  map fst (JSObject.setProperty key v obj)
  = if bool_decide (key ∈ map fst obj) then map fst obj else map fst obj ++ [key].
Proof.
  induction obj as [|[k w] obj IH]; [reflexivity|].
  cbn [JSObject.setProperty map fst]. destruct (String.eqb_spec k key) as [->|Hne].
  - rewrite bool_decide_eq_true_2 by left. reflexivity.
  - cbn [map fst]. rewrite IH.
    destruct (bool_decide (key ∈ map fst obj)) eqn:Hin.
    + apply bool_decide_eq_true in Hin.
      rewrite bool_decide_eq_true_2 by (right; exact Hin). reflexivity.
    + apply bool_decide_eq_false in Hin.
      rewrite bool_decide_eq_false_2; [reflexivity|].
      intros H. apply elem_of_cons in H as [->|H]; [congruence|contradiction].
Qed.

Lemma collect_NoDup (env : Env) : NoDup (map fst (collectConfigs env)).
Proof.
  unfold collectConfigs. generalize (keys env) as l.
  induction l as [|k l IH] using rev_ind; [constructor|].
  rewrite fold_left_app. cbn [fold_left].
  destruct (matchLabel k) as [n|]; [|exact IH].
  destruct (configOf env n) as [cfg|]; [|exact IH].
  rewrite set_keys. destruct (bool_decide _) eqn:Hin; [exact IH|].
  apply bool_decide_eq_false in Hin.
  apply NoDup_app. split; [exact IH|]. split; [|apply NoDup_singleton].
  intros x Hx Hx'. apply list_elem_of_singleton in Hx'. subst x. contradiction.
Qed.

Lemma omap_Forall2 {A B : Type} (f : A -> option B) (l : list A) :
  Forall (fun x => is_Some (f x)) l ->
  Forall2 (fun x y => f x = Some y) l (omap f l).
Proof.
  induction l as [|x l IH]; intros H; [constructor|].
  apply Forall_cons in H as [[y Hy] H]. cbn [omap list_omap]. rewrite Hy.
  constructor; [exact Hy|apply IH; exact H].
Qed.

(** X18: the block monitor lists its wallets in ascending order of their
    number: the keys [n] behind the list are sorted by [Number(n)], each
    occurs once, and the entry at each position is the entry of the key at
    that position. *)
Theorem readCexConfigs_sorted (env : Env) :
  StronglySorted (fun a b => le (ofString a) (ofString b) = true) (sortedKeys env)
  /\ NoDup (sortedKeys env)
  /\ Forall (fun n => allDigits n = true /\ n <> EmptyString) (sortedKeys env)
  /\ Forall2 (fun n c => configOf env n = Some c) (sortedKeys env) (BlockMonitor.readCexConfigs env).
Proof.
  assert (Hkeys : Forall (fun n => allDigits n = true /\ n <> EmptyString) (sortedKeys env)).
  { apply Forall_forall. intros n Hn. apply sortedKeys_elem in Hn as [c Hc].
    unfold collectConfigs in Hc. apply collect_get in Hc as [(k & _ & Hm) _].
    apply matchLabel_spec in Hm as (_ & Hne & Hd). split; assumption. }
  assert (Hown : Forall (fun n => allDigits n = true /\ n <> EmptyString)
                   (JSObject.ownKeys (collectConfigs env))).
  { apply Forall_forall. intros n Hn. rewrite Forall_forall in Hkeys. apply Hkeys.
    unfold sortedKeys, JSObject.sort. rewrite sortBy_perm. exact Hn. }
  split; [|split; [|split; [exact Hkeys|]]].
  - apply (StronglySorted_weaken
             (fun a b => gt (sub (ofString a) (ofString b)) (ofZ 0) = false) _
             (fun n => allDigits n = true /\ n <> EmptyString)); [|exact Hkeys|].
    + intros a b [Ha Hane] [Hb Hbne] Hab.
      destruct (ofString_digits a Ha Hane) as (Hva & Hna & Hsa).
      destruct (ofString_digits b Hb Hbne) as (Hvb & Hnb & Hsb).
      rewrite (sub_sign _ _ Hva Hvb Hna Hnb Hsa Hsb) in Hab.
      destruct (digits_value a Ha Hane) as [_ [va Ea]].
      destruct (digits_value b Hb Hbne) as [_ [vb Eb]].
      apply (lt_le_value _ _ va vb Hva Hvb Ea Eb). exact Hab.
    + unfold sortedKeys, JSObject.sort.
      apply (sortBy_sorted _ (fun n => allDigits n = true /\ n <> EmptyString));
        [| |exact Hown].
      * intros a b c [Ha Hane] [Hb Hbne] [Hc Hcne].
        destruct (ofString_digits a Ha Hane) as (Hva & Hna & Hsa).
        destruct (ofString_digits b Hb Hbne) as (Hvb & Hnb & Hsb).
        destruct (ofString_digits c Hc Hcne) as (Hvc & Hnc & Hsc).
        rewrite (sub_sign _ _ Hva Hvb Hna Hnb Hsa Hsb).
        rewrite (sub_sign _ _ Hvb Hvc Hnb Hnc Hsb Hsc).
        rewrite (sub_sign _ _ Hva Hvc Hna Hnc Hsa Hsc).
        destruct (digits_value a Ha Hane) as [_ [va Ea]].
        destruct (digits_value b Hb Hbne) as [_ [vb Eb]].
        destruct (digits_value c Hc Hcne) as [_ [vc Ec]].
        intros Hab Hbc.
        apply (lt_le_value _ _ va vb Hva Hvb Ea Eb) in Hab.
        apply (lt_le_value _ _ vb vc Hvb Hvc Eb Ec) in Hbc.
        apply (lt_le_value _ _ va vc Hva Hvc Ea Ec).
        apply (le_value _ _ _ _ Hva Hvb Ea Eb) in Hab.
        apply (le_value _ _ _ _ Hvb Hvc Eb Ec) in Hbc.
        apply (le_value _ _ _ _ Hva Hvc Ea Ec).
        exact (leValue_trans _ _ _ Hab Hbc).
      * intros a b [Ha Hane] [Hb Hbne].
        destruct (ofString_digits a Ha Hane) as (Hva & Hna & Hsa).
        destruct (ofString_digits b Hb Hbne) as (Hvb & Hnb & Hsb).
        rewrite (sub_sign _ _ Hva Hvb Hna Hnb Hsa Hsb).
        rewrite (sub_sign _ _ Hvb Hva Hnb Hna Hsb Hsa).
        destruct (digits_value a Ha Hane) as [_ [va Ea]].
        destruct (digits_value b Hb Hbne) as [_ [vb Eb]].
        apply (lt_le_value _ _ va vb Hva Hvb Ea Eb).
  - unfold sortedKeys, JSObject.sort. rewrite sortBy_perm, ownKeys_perm.
    apply collect_NoDup.
  - assert (H2 : Forall2 (fun n c => JSObject.getProperty n (collectConfigs env) = Some c)
                   (sortedKeys env) (BlockMonitor.readCexConfigs env)).
    { apply omap_Forall2. apply Forall_forall. intros n Hn.
      apply sortedKeys_elem. exact Hn. }
    eapply Forall2_impl; [exact H2|].
    intros n c Hget. unfold collectConfigs in Hget.
    apply collect_get in Hget as [_ Hc]. exact Hc.
Qed.

(** The order is numeric, not alphabetical, whatever the order of the
    variables in the environment; white space around a label is cut, and a
    wallet without an address is left out. *)
Lemma readCexConfigs_example :
  BlockMonitor.readCexConfigs
    [("CEX_10_LABEL", "Kraken"); ("CEX_10_ADDRESS", "addr10");
     ("CEX_2_LABEL", " Binance "); ("CEX_2_ADDRESS", "addr2"); ("CEX_2_RANGE", "1-5");
     ("CEX_1_LABEL", "OKX"); ("HOME", "/root");
     ("CEX_02_LABEL", "Bybit"); ("CEX_02_ADDRESS", "addr02")]%string
  = [ {| label := "Binance"; address := "addr2"; ranges := "1-5" |};
      {| label := "Bybit"; address := "addr02"; ranges := "" |};
      {| label := "Kraken"; address := "addr10"; ranges := "" |} ]%string.
Proof. vm_compute. reflexivity. Qed.

End SortedConfigs.

(** ** Further properties: alerts *)

Section AlertFacts.

Import Js Env BlockParser ProcessBlock.

Variable decode : string -> Result (list byte).
Variable configs : list CexConfig.
Variable sendAlert : Alert -> Result unit.

Lemma forOutflows_sound cfg signature outflows alerts (P : Alert -> Prop) :
  Forall P alerts ->
  (forall o receiver_,
      o ∈ outflows -> receiver o = Some receiver_ ->
      Ranges.amountMatchesRanges (amount o) (Ranges.parseRanges (Some (ranges cfg))) = true ->
      P {| alertLabel := label cfg; alertAmount := amount o;
           alertReceiver := receiver_; alertSignature := signature |}) ->
  Forall P (fst (forOutflows sendAlert cfg signature
                   (Ranges.parseRanges (Some (ranges cfg))) outflows alerts)).
Proof.
  revert alerts. induction outflows as [|o outflows IH]; intros alerts Hacc HP; [exact Hacc|].
  cbn [forOutflows].
  destruct (receiver o) as [r|] eqn:Hr; [|exact Hacc].
  destruct (Ranges.amountMatchesRanges (amount o) (Ranges.parseRanges (Some (ranges cfg))))
    eqn:Hm; cbn [negb].
  - assert (Hnew : Forall P (alerts ++ [ {| alertLabel := label cfg; alertAmount := amount o;
                                            alertReceiver := r; alertSignature := signature |} ])).
    { apply Forall_app. split; [exact Hacc|]. constructor; [|constructor].
      apply (HP o r); [left|exact Hr|exact Hm]. }
    cbv zeta. destruct (sendAlert _); [|exact Hnew].
    apply IH; [exact Hnew|]. intros o' r' Ho'. apply HP. right. exact Ho'.
  - apply IH; [exact Hacc|]. intros o' r' Ho'. apply HP. right. exact Ho'.
Qed.

Lemma forConfigs_sound tx signature cfgs alerts (P : Alert -> Prop) :
  Forall P alerts ->
  (forall cfg outs o receiver_,
      cfg ∈ cfgs -> parseBlockTransactions decode tx (address cfg) = Ok outs ->
      o ∈ outs -> receiver o = Some receiver_ ->
      Ranges.amountMatchesRanges (amount o) (Ranges.parseRanges (Some (ranges cfg))) = true ->
      P {| alertLabel := label cfg; alertAmount := amount o;
           alertReceiver := receiver_; alertSignature := signature |}) ->
  Forall P (fst (forConfigs decode sendAlert tx signature cfgs alerts)).
Proof.
  revert alerts. induction cfgs as [|cfg cfgs IH]; intros alerts Hacc HP; [exact Hacc|].
  cbn [forConfigs]. cbv zeta.
  destruct (parseBlockTransactions decode tx (address cfg)) as [outs|e] eqn:Hparse;
    [|exact Hacc].
  pose proof (forOutflows_sound cfg signature outs alerts P Hacc) as Hout.
  destruct (forOutflows sendAlert cfg signature (Ranges.parseRanges (Some (ranges cfg)))
              outs alerts) as [alerts' [[]|e]]; cbn [fst] in Hout.
  - apply IH.
    + apply Hout. intros o r Ho. apply (HP cfg outs); [left|exact Hparse|exact Ho].
    + intros cfg' outs' o r Hcfg'. apply HP. right. exact Hcfg'.
  - apply Hout. intros o r Ho. apply (HP cfg outs); [left|exact Hparse|exact Ho].
Qed.

Lemma forTransactions_sound (blockData txs : list Transaction) alerts :
  (forall tx, tx ∈ txs -> tx ∈ blockData) ->
  Forall (justified decode configs blockData) alerts ->
  Forall (justified decode configs blockData) (fst (forTransactions decode configs sendAlert txs alerts)).
Proof.
  revert alerts. induction txs as [|tx txs IH]; intros alerts Hsub Hacc; [exact Hacc|].
  cbn [forTransactions].
  assert (Hsub' : forall tx', tx' ∈ txs -> tx' ∈ blockData)
    by (intros tx' H; apply Hsub; right; exact H).
  destruct (firstSignature tx) as [signature|] eqn:Hsig; [|apply IH; assumption].
  destruct (JSString.truthy signature) eqn:Ht; cbn [negb]; [|apply IH; assumption].
  pose proof (forConfigs_sound tx signature configs alerts (justified decode configs blockData) Hacc) as Hc.
  assert (Hjust : Forall (justified decode configs blockData)
                    (fst (forConfigs decode sendAlert tx signature configs alerts))).
  { apply Hc. intros cfg outs o r Hcfg Hparse Ho Hr Hm.
    exists tx, cfg, outs, o, r. cbn [alertSignature].
    split; [apply Hsub; left|]. split; [exact Hcfg|]. split; [exact Hsig|].
    split; [intros ->; discriminate|]. split; [exact Hparse|]. split; [exact Ho|].
    split; [exact Hr|]. split; [exact Hm|reflexivity]. }
  destruct (forConfigs decode sendAlert tx signature configs alerts) as [alerts' [[]|e]];
    cbn [fst] in *.
  - apply IH; assumption.
  - exact Hjust.
Qed.

(** X9: [processBlock] calls [sendAlert] only for an Outflow that the
    scan reports for a signed transaction of the block and a configured
    wallet, and whose amount matches the ranges of that wallet.  In
    particular every alert names a wallet whose ranges text is not empty:
    a wallet configured without ranges never raises an alert. *)
Theorem alerts_are_justified (blockData : list Transaction) :
  Forall (justified decode configs blockData)
    (fst (processTransactions decode configs sendAlert blockData))
  /\ Forall (fun a => exists cfg, cfg ∈ configs /\ alertLabel a = label cfg
                                  /\ ranges cfg <> EmptyString)
       (fst (processTransactions decode configs sendAlert blockData)).
Proof.
  assert (H : Forall (justified decode configs blockData)
                (fst (processTransactions decode configs sendAlert blockData))).
  { apply forTransactions_sound; [tauto|constructor]. }
  split; [exact H|]. eapply Forall_impl; [exact H|].
  intros a (tx & cfg & outs & o & r & _ & Hcfg & _ & _ & _ & _ & _ & Hm & ->).
  exists cfg. split; [exact Hcfg|]. split; [reflexivity|].
  intros Hempty. rewrite Hempty in Hm. discriminate Hm.
Qed.

Lemma forOutflows_ok cfg signature ranges_ outflows alerts :
  (forall a, sendAlert a = Ok tt) ->
  Forall (fun o => is_Some (receiver o)) outflows ->
  snd (forOutflows sendAlert cfg signature ranges_ outflows alerts) = Ok tt.
Proof.
  intros Hsend. revert alerts. induction outflows as [|o outflows IH]; intros alerts Hall;
    [reflexivity|].
  apply Forall_cons in Hall as [[r Hr] Hall]. cbn [forOutflows]. rewrite Hr.
  destruct (negb _); [apply IH; exact Hall|].
  cbv zeta. rewrite Hsend. apply IH. exact Hall.
Qed.

Lemma forConfigs_ok tx signature cfgs alerts :
  (forall a, sendAlert a = Ok tt) ->
  Forall (fun instr => parsed instr = None) (instructionsOfTx tx) ->
  snd (forConfigs decode sendAlert tx signature cfgs alerts) = Ok tt.
Proof.
  intros Hsend Hraw. revert alerts. induction cfgs as [|cfg cfgs IH]; intros alerts;
    [reflexivity|].
  cbn [forConfigs]. cbv zeta.
  destruct (raw_outflows_shape decode tx (address cfg) Hraw) as (outs & -> & Hall).
  pose proof (forOutflows_ok cfg signature (Ranges.parseRanges (Some (ranges cfg)))
                outs alerts Hsend) as Hok.
  destruct (forOutflows sendAlert cfg signature (Ranges.parseRanges (Some (ranges cfg)))
              outs alerts) as [alerts' outcome]. cbn [snd] in Hok.
  rewrite Hok; [apply IH|].
  eapply Forall_impl; [exact Hall|].
  intros o (big & r & _ & _ & ->). eexists. reflexivity.
Qed.

(** X10: the processing of a block of raw transactions, as [getBlock]
    returns them, fails only if sending an alert fails: when [sendAlert]
    succeeds the loop runs to its end, so the block is marked processed
    and is not queued again. *)
Theorem raw_block_is_processed (blockData : list Transaction) :
  (forall a, sendAlert a = Ok tt) ->
  Forall (fun tx => Forall (fun instr => parsed instr = None) (instructionsOfTx tx))
    blockData ->
  snd (processTransactions decode configs sendAlert blockData) = Ok tt.
Proof.
  intros Hsend. unfold processTransactions. generalize (@nil Alert) as alerts.
  induction blockData as [|tx txs IH]; intros alerts Hall; [reflexivity|].
  apply Forall_cons in Hall as [Hraw Hall]. cbn [forTransactions].
  destruct (firstSignature tx) as [signature|]; [|apply IH; exact Hall].
  destruct (negb (JSString.truthy signature)); [apply IH; exact Hall|].
  pose proof (forConfigs_ok tx signature configs alerts Hsend Hraw) as Hok.
  destruct (forConfigs decode sendAlert tx signature configs alerts) as [alerts' outcome].
  cbn [snd] in Hok. rewrite Hok. apply IH. exact Hall.
Qed.

End AlertFacts.

Section AlertExamples.

Import Js Env BlockParser ProcessBlock.

(** [raw_block_is_processed] at the block of the transaction with five raw
    instructions, for one wallet whose ranges are 1 to 5, when alerts are
    delivered: the transfer of 2.5 raises one alert. *)
Lemma raw_block_is_processed_witness :
  snd (processTransactions Base58.decode
         [ {| label := "Binance"; address := Examples.watched; ranges := "1-5" |} ]
         (fun _ => Ok tt) [Examples.mixedTx]) = Ok tt.
Proof.
  apply (raw_block_is_processed Base58.decode
           [ {| label := "Binance"; address := Examples.watched; ranges := "1-5" |} ]
           (fun _ => Ok tt) [Examples.mixedTx]).
  - reflexivity.
  - repeat constructor.
Defined.

Lemma processTransactions_example :
  processTransactions Base58.decode
    [ {| label := "Binance"; address := Examples.watched; ranges := "1-5" |};
      {| label := "Kraken"; address := Examples.watched; ranges := "" |} ]
    (fun _ => Ok tt) [Examples.mixedTx]
  = ([ {| alertLabel := "Binance"; alertAmount := JSNumber.ofString "2.5";
          alertReceiver := Examples.receiverAddress;
          alertSignature := "5VERv8NMvzbJMEkV8xnrLkEaWRtSz9CosKDYjCJjBRnb" |} ], Ok tt).
Proof. vm_compute. reflexivity. Qed.

End AlertExamples.

(** ** Further properties: a block that is processed again *)

Section RetriedBlock.

Import Js Env BlockParser ProcessBlock.

Variable decode : string -> Result (list byte).
Variable configs : list CexConfig.

(** [sendAlert] during the run that fails, and during the retry. *)
Variable sendAlert1 sendAlert2 : Alert -> Result unit.

Lemma forOutflows_extends sendAlert cfg signature ranges_ outflows :
  forall alerts, exists more,
    fst (forOutflows sendAlert cfg signature ranges_ outflows alerts) = alerts ++ more.
Proof.
  induction outflows as [|o outflows IH]; intros alerts; cbn [forOutflows].
  - exists []. rewrite app_nil_r. reflexivity.
  - destruct (receiver o); [|exists []; rewrite app_nil_r; reflexivity].
    destruct (negb _); [apply IH|]. cbv zeta.
    destruct (sendAlert _).
    + destruct (IH (alerts ++ [ {| alertLabel := label cfg; alertAmount := amount o;
                                   alertReceiver := s; alertSignature := signature |} ]))
        as [more ->].
      eexists. rewrite <- app_assoc. reflexivity.
    + eexists. reflexivity.
Qed.

Lemma forConfigs_extends sendAlert tx signature cfgs :
  forall alerts, exists more,
    fst (forConfigs decode sendAlert tx signature cfgs alerts) = alerts ++ more.
Proof.
  induction cfgs as [|cfg cfgs IH]; intros alerts; cbn [forConfigs]; cbv zeta.
  - exists []. rewrite app_nil_r. reflexivity.
  - destruct (parseBlockTransactions decode tx (address cfg)) as [outs|e];
      [|exists []; rewrite app_nil_r; reflexivity].
    destruct (forOutflows_extends sendAlert cfg signature
                (Ranges.parseRanges (Some (ranges cfg))) outs alerts) as [more Hm].
    destruct (forOutflows _ _ _ _ _ _) as [alerts' [[]|e]]; cbn [fst] in *; subst alerts'.
    + destruct (IH (alerts ++ more)) as [more' ->].
      eexists. rewrite <- app_assoc. reflexivity.
    + eexists. reflexivity.
Qed.

Lemma forTransactions_extends sendAlert txs :
  forall alerts, exists more,
    fst (forTransactions decode configs sendAlert txs alerts) = alerts ++ more.
Proof.
  induction txs as [|tx txs IH]; intros alerts; cbn [forTransactions].
  - exists []. rewrite app_nil_r. reflexivity.
  - destruct (firstSignature tx) as [signature|]; [|apply IH].
    destruct (negb _); [apply IH|].
    destruct (forConfigs_extends sendAlert tx signature configs alerts) as [more Hm].
    destruct (forConfigs _ _ _ _ _ _) as [alerts' [[]|e]]; cbn [fst] in *; subst alerts'.
    + destruct (IH (alerts ++ more)) as [more' ->].
      eexists. rewrite <- app_assoc. reflexivity.
    + eexists. reflexivity.
Qed.

Lemma forOutflows_repeated cfg signature ranges_ outflows :
  forall alerts alerts1 r1 alerts2,
    Forall (fun a => sendAlert1 a = Ok tt) alerts ->
    forOutflows sendAlert1 cfg signature ranges_ outflows alerts = (alerts1, r1) ->
    forOutflows sendAlert2 cfg signature ranges_ outflows alerts = (alerts2, Ok tt) ->
    repeated sendAlert1 alerts1 r1 alerts2.
Proof.
  induction outflows as [|o outflows IH]; intros alerts alerts1 r1 alerts2 Hacc H1 H2;
    cbn [forOutflows] in H1, H2.
  - injection H1 as <- <-. injection H2 as <-. split; [reflexivity|exact Hacc].
  - destruct (receiver o) as [r|]; [|discriminate H2].
    destruct (negb _); [exact (IH _ _ _ _ Hacc H1 H2)|].
    cbv zeta in H1, H2.
    destruct (sendAlert2 _) as [[]|e2]; [|discriminate H2].
    destruct (sendAlert1 _) as [[]|e1] eqn:Hs1.
    + refine (IH _ _ _ _ _ H1 H2).
      apply Forall_app. split; [exact Hacc|]. constructor; [exact Hs1|constructor].
    + injection H1 as <- <-.
      destruct (forOutflows_extends sendAlert2 cfg signature ranges_ outflows
                  (alerts ++ [ {| alertLabel := label cfg; alertAmount := amount o;
                                  alertReceiver := r; alertSignature := signature |} ]))
        as [more Hm].
      rewrite H2 in Hm. cbn [fst] in Hm.
      exists alerts, {| alertLabel := label cfg; alertAmount := amount o;
                        alertReceiver := r; alertSignature := signature |}, more.
      split; [reflexivity|]. split; [exact Hacc|]. split; [exact Hs1|exact Hm].
Qed.

Lemma repeated_extends alerts1 e alerts2 more :
  repeated sendAlert1 alerts1 (Throw e) alerts2 ->
  repeated sendAlert1 alerts1 (Throw e) (alerts2 ++ more).
Proof.
  intros (delivered & failed & more0 & H1 & Hd & Hf & H2).
  exists delivered, failed, (more0 ++ more).
  split; [exact H1|]. split; [exact Hd|]. split; [exact Hf|].
  rewrite H2, <- app_assoc. reflexivity.
Qed.

Lemma forConfigs_repeated tx signature cfgs :
  forall alerts alerts1 r1 alerts2,
    Forall (fun a => sendAlert1 a = Ok tt) alerts ->
    forConfigs decode sendAlert1 tx signature cfgs alerts = (alerts1, r1) ->
    forConfigs decode sendAlert2 tx signature cfgs alerts = (alerts2, Ok tt) ->
    repeated sendAlert1 alerts1 r1 alerts2.
Proof.
  induction cfgs as [|cfg cfgs IH]; intros alerts alerts1 r1 alerts2 Hacc H1 H2;
    cbn [forConfigs] in H1, H2; cbv zeta in H1, H2.
  - injection H1 as <- <-. injection H2 as <-. split; [reflexivity|exact Hacc].
  - destruct (parseBlockTransactions decode tx (address cfg)) as [outs|e];
      [|discriminate H2].
    pose proof (forOutflows_repeated cfg signature (Ranges.parseRanges (Some (ranges cfg)))
                  outs alerts) as Hin.
    destruct (forOutflows sendAlert2 _ _ _ _ _) as [mid2 [[]|e2]]; [|discriminate H2].
    destruct (forOutflows sendAlert1 _ _ _ _ _) as [mid1 [[]|e1]].
    + destruct (Hin _ _ _ Hacc eq_refl eq_refl) as [-> Hmid].
      exact (IH _ _ _ _ Hmid H1 H2).
    + injection H1 as <- <-.
      destruct (forConfigs_extends sendAlert2 tx signature cfgs mid2) as [more Hm].
      rewrite H2 in Hm. cbn [fst] in Hm. subst alerts2.
      apply repeated_extends. exact (Hin _ _ _ Hacc eq_refl eq_refl).
Qed.

Lemma forTransactions_repeated txs :
  forall alerts alerts1 r1 alerts2,
    Forall (fun a => sendAlert1 a = Ok tt) alerts ->
    forTransactions decode configs sendAlert1 txs alerts = (alerts1, r1) ->
    forTransactions decode configs sendAlert2 txs alerts = (alerts2, Ok tt) ->
    repeated sendAlert1 alerts1 r1 alerts2.
Proof.
  induction txs as [|tx txs IH]; intros alerts alerts1 r1 alerts2 Hacc H1 H2;
    cbn [forTransactions] in H1, H2.
  - injection H1 as <- <-. injection H2 as <-. split; [reflexivity|exact Hacc].
  - destruct (firstSignature tx) as [signature|]; [|exact (IH _ _ _ _ Hacc H1 H2)].
    destruct (negb _); [exact (IH _ _ _ _ Hacc H1 H2)|].
    pose proof (forConfigs_repeated tx signature configs alerts) as Hin.
    destruct (forConfigs decode sendAlert2 _ _ _ _) as [mid2 [[]|e2]]; [|discriminate H2].
    destruct (forConfigs decode sendAlert1 _ _ _ _) as [mid1 [[]|e1]].
    + destruct (Hin _ _ _ Hacc eq_refl eq_refl) as [-> Hmid].
      exact (IH _ _ _ _ Hmid H1 H2).
    + injection H1 as <- <-.
      destruct (forTransactions_extends sendAlert2 txs mid2) as [more Hm].
      rewrite H2 in Hm. cbn [fst] in Hm. subst alerts2.
      apply repeated_extends. exact (Hin _ _ _ Hacc eq_refl eq_refl).
Qed.

(** X27: a retried block repeats its alerts.  When the loop of
    [processBlock] fails, the block is queued again with the same data.
    If the retry then runs to its end, the failed run had stopped at a call
    of [sendAlert] that was rejected with the error it reports, every
    alert it had sent before was delivered, and the retry sends all of
    them again, in the same order, before any other: a delivered alert is
    delivered a second time. *)
Theorem retried_block_repeats_alerts (blockData : list Transaction) (e : Exn) :
  snd (processTransactions decode configs sendAlert1 blockData) = Throw e ->
  snd (processTransactions decode configs sendAlert2 blockData) = Ok tt ->
  exists delivered failed more,
    fst (processTransactions decode configs sendAlert1 blockData) = delivered ++ [failed]
    /\ Forall (fun a => sendAlert1 a = Ok tt) delivered
    /\ sendAlert1 failed = Throw e
    /\ fst (processTransactions decode configs sendAlert2 blockData)
       = delivered ++ [failed] ++ more.
Proof.
  unfold processTransactions. intros H1 H2.
  destruct (forTransactions decode configs sendAlert1 blockData []) as [alerts1 r1] eqn:E1.
  destruct (forTransactions decode configs sendAlert2 blockData []) as [alerts2 r2] eqn:E2.
  cbn [fst snd] in *. subst r1 r2.
  destruct (forTransactions_repeated blockData [] alerts1 (Throw e) alerts2
              (Forall_nil_2 _) E1 E2) as (delivered & failed & more & -> & Hd & Hf & ->).
  exists delivered, failed, more.
  split; [reflexivity|]. split; [exact Hd|]. split; [exact Hf|].
  rewrite <- app_assoc. reflexivity.
Qed.

End RetriedBlock.

Section RetriedBlockExamples.

Import Js Env BlockParser ProcessBlock.

(** [retried_block_repeats_alerts] at the block of the transaction with
    five raw instructions, for two wallets with the same address: the
    first run delivers the alert of the first wallet and fails at the
    alert of the second, the retry sends both. *)
Lemma retried_block_repeats_alerts_witness :
  exists delivered failed more,
    fst (processTransactions Base58.decode
           [ {| label := "Binance"; address := Examples.watched; ranges := "1-5" |};
             {| label := "Kraken"; address := Examples.watched; ranges := "2.5" |} ]
           (fun a => if String.eqb (alertLabel a) "Kraken"
                     then Throw (Error "ETIMEDOUT") else Ok tt)
           [Examples.mixedTx]) = delivered ++ [failed]
    /\ Forall (fun a => (fun a => if String.eqb (alertLabel a) "Kraken"
                                  then Throw (Error "ETIMEDOUT") else Ok tt) a = Ok tt)
         delivered
    /\ (fun a => if String.eqb (alertLabel a) "Kraken"
                 then Throw (Error "ETIMEDOUT") else Ok tt) failed
       = Throw (Error "ETIMEDOUT")
    /\ fst (processTransactions Base58.decode
              [ {| label := "Binance"; address := Examples.watched; ranges := "1-5" |};
                {| label := "Kraken"; address := Examples.watched; ranges := "2.5" |} ]
              (fun _ => Ok tt) [Examples.mixedTx])
       = delivered ++ [failed] ++ more.
Proof.
  apply (retried_block_repeats_alerts Base58.decode
           [ {| label := "Binance"; address := Examples.watched; ranges := "1-5" |};
             {| label := "Kraken"; address := Examples.watched; ranges := "2.5" |} ]
           (fun a => if String.eqb (alertLabel a) "Kraken"
                     then Throw (Error "ETIMEDOUT") else Ok tt)
           (fun _ => Ok tt) [Examples.mixedTx] (Error "ETIMEDOUT")).
  - vm_compute. reflexivity.
  - vm_compute. reflexivity.
Defined.

End RetriedBlockExamples.

(** ** Further properties: the callback of the transaction monitor *)

Section CallbackFacts.

Import Js Env BlockParser ProcessBlock LogHandler.



Lemma callback_skips bs58_decode sendAlert saveLastSlot cfg signature respond set ls :
  signature ∈ set ->
  callback bs58_decode sendAlert saveLastSlot cfg signature respond set ls
  = {| processedTxs := set; lastSlots := ls; alerts := [];
       getParsedTransactionCalls := 0; saved := false; outcome := Skipped |}.
Proof.
  intros Hin. apply has_true in Hin.
  unfold callback, TransactionMonitor.onLogs. rewrite Hin. reflexivity.
Qed.


Lemma logOutflows_receivers (outflows : list Outflow) (u : unit) :
  logOutflows outflows = Ok u -> Forall (fun o => is_Some (receiver o)) outflows.
Proof.
  induction outflows as [|o rest IH]; intros H; [constructor|].
  cbn [logOutflows] in H. destruct (receiver o) eqn:Hr; [|discriminate].
  constructor; [rewrite Hr; eexists; reflexivity | apply IH, H].
Qed.

(** The loop of alerts: every call of [sendAlert] is for an Outflow of the
    list whose amount matches; all calls but the last have resolved, and
    the last one too when the loop ends normally; and when every call
    resolves, no matching Outflow is left out. *)
Lemma sendAlerts_spec sendAlert cfg signature ranges_ outflows :
  forall alerts0 alerts_ res,
    sendAlerts sendAlert cfg signature ranges_ outflows alerts0 = (alerts_, res) ->
    exists sent,
      alerts_ = alerts0 ++ sent
      /\ Forall (fun a => exists o,
                   o ∈ outflows
                   /\ Ranges.amountMatchesRanges (amount o) ranges_ = true
                   /\ a = message cfg signature o) sent
      /\ match res with
         | Ok _ =>
             Forall (fun a => sendAlert a = Ok tt) sent
             /\ sent = message cfg signature
                       <$> filter (fun o => Is_true (Ranges.amountMatchesRanges (amount o) ranges_))
                                  outflows
         | Throw e =>
             exists delivered a,
               sent = delivered ++ [a]
               /\ Forall (fun a => sendAlert a = Ok tt) delivered
               /\ sendAlert a = Throw e
         end.
Proof.
  induction outflows as [|o rest IH]; intros alerts0 alerts_ res H; cbn [sendAlerts] in H.
  - injection H as <- <-. exists []. rewrite app_nil_r.
    split; [reflexivity|]. split; [constructor|]. split; [constructor|reflexivity].
  - destruct (Ranges.amountMatchesRanges (amount o) ranges_) eqn:Hm; cbn [negb] in H.
    + destruct (sendAlert _) as [[]|e] eqn:Hs.
      * destruct (IH _ _ _ H) as (sent & -> & Hall & Hres).
        exists (message cfg signature o :: sent). split; [rewrite <- app_assoc; reflexivity|].
        split.
        { constructor.
          - exists o. split; [left|]. split; [exact Hm|reflexivity].
          - eapply Forall_impl; [exact Hall|].
            intros a (o' & Hin & Hm' & ->). exists o'. split; [right; exact Hin|].
            split; [exact Hm'|reflexivity]. }
        destruct res as [u|e].
        { destruct Hres as [Hdel ->]. split.
          - constructor; [exact Hs|exact Hdel].
          - rewrite filter_cons_True by (rewrite Hm; exact I). reflexivity. }
        destruct Hres as (delivered & a & -> & Hdel & Hlast).
        exists (message cfg signature o :: delivered), a. split; [reflexivity|].
        split; [constructor; [exact Hs|exact Hdel]|exact Hlast].
      * injection H as <- <-. exists [message cfg signature o]. split; [reflexivity|].
        split.
        { constructor; [|constructor].
          exists o. split; [left|]. split; [exact Hm|reflexivity]. }
        exists [], (message cfg signature o). split; [reflexivity|]. split; [constructor|exact Hs].
    + destruct (IH _ _ _ H) as (sent & -> & Hall & Hres).
      exists sent. split; [reflexivity|]. split.
      { eapply Forall_impl; [exact Hall|].
        intros a (o' & Hin & Hm' & ->). exists o'. split; [right; exact Hin|].
        split; [exact Hm'|reflexivity]. }
      destruct res as [u|e]; [|exact Hres].
      destruct Hres as [Hdel ->]. split; [exact Hdel|].
      rewrite filter_cons_False by (rewrite Hm; intros []). reflexivity.
Qed.

Lemma fetched_found {T : Type} (respond : nat -> TransactionMonitor.Attempt T) (tx : T) :
  TransactionMonitor.fetched (TransactionMonitor.fetchWithRetry respond) = Some tx ->
  exists i, (i < 3)%nat /\ respond i = TransactionMonitor.Found tx.
Proof.
  unfold TransactionMonitor.fetchWithRetry. cbn [TransactionMonitor.retryLoop].
  destruct (respond 0%nat) eqn:H0.
  { cbn. intros [= <-]. exists 0%nat. split; [lia|exact H0]. }
  all: destruct (respond 1%nat) eqn:H1;
    try (cbn; intros [= <-]; exists 1%nat; split; [lia|exact H1]).
  all: destruct (respond 2%nat) eqn:H2;
    try (cbn; intros [= <-]; exists 2%nat; split; [lia|exact H2]).
  all: cbn; discriminate.
Qed.

(** X25: the alerts of the callback are justified, and none is sent for a
    transaction with an Outflow without receiver.  Every call of
    [sendAlert] made by a run of the callback is for a transaction that one
    of the at most three calls of [getParsedTransaction] has returned, and
    for an Outflow that the scan of this transaction for the address of the
    wallet reports and whose amount matches the ranges of the wallet; the
    alert carries the label of the wallet, this amount, the receiver of the
    Outflow and the signature of the log event.  Moreover every Outflow of
    that scan has a receiver: when one has none, the log line that precedes
    the alerts throws and the run sends no alert at all. *)
Theorem callback_alerts_justified
  (bs58_decode : string -> Result (list byte))
  (sendAlert : Alert -> Result unit) (saveLastSlot : gmap string Z -> Result unit)
  (cfg : CexConfig) (signature : string)
  (respond : nat -> TransactionMonitor.Attempt ParsedTransaction)
  (set : list string) (ls : gmap string Z) (a : Alert) :
  a ∈ alerts (callback bs58_decode sendAlert saveLastSlot cfg signature respond set ls) ->
  (signature ∉ set)
  /\ exists i tx outflows o receiver_,
       (i < 3)%nat /\ respond i = TransactionMonitor.Found tx
       /\ parseBlockTransactions bs58_decode (txWrapper tx) (address cfg) = Ok outflows
       /\ Forall (fun o' => is_Some (receiver o')) outflows
       /\ o ∈ outflows
       /\ receiver o = Some receiver_
       /\ Ranges.amountMatchesRanges (amount o) (Ranges.parseRanges (Some (ranges cfg))) = true
       /\ a = {| alertLabel := label cfg; alertAmount := amount o;
                 alertReceiver := receiver_; alertSignature := signature |}.
Proof.
  intros Ha.
  destruct (decide (signature ∈ set)) as [Hin|Hnin].
  { rewrite (callback_skips _ _ _ _ _ _ _ _ Hin) in Ha. cbn in Ha.
    apply elem_of_nil in Ha. destruct Ha. }
  split; [exact Hnin|].
  unfold callback in Ha.
  destruct (TransactionMonitor.onLogs signature set) as [go set1].
  destruct go; cbn [negb] in Ha; [|cbn in Ha; apply elem_of_nil in Ha; destruct Ha].
  destruct (TransactionMonitor.fetched _) as [tx|] eqn:Hf;
    [|cbn in Ha; apply elem_of_nil in Ha; destruct Ha].
  destruct (fetched_found _ _ Hf) as (i & Hi & Hfound).
  destruct (parseBlockTransactions _ _ _) as [outflows|e] eqn:Hp;
    [|cbn in Ha; apply elem_of_nil in Ha; destruct Ha].
  destruct (logOutflows outflows) as [u|e] eqn:Hl;
    [|cbn in Ha; apply elem_of_nil in Ha; destruct Ha].
  pose proof (logOutflows_receivers _ _ Hl) as Hrecv.
  destruct (sendAlerts _ _ _ _ _ _) as [al res] eqn:Hs.
  destruct (sendAlerts_spec _ _ _ _ _ _ _ _ Hs) as (sent & Hal & Hall & _).
  cbn [app] in Hal. subst al.
  assert (Ha' : a ∈ sent).
  { destruct res as [u'|e]; [|exact Ha].
    destruct (TransactionMonitor.updateLastSlot _ _ _) as [ls1 [|]]; [|exact Ha].
    destruct (saveLastSlot ls1); exact Ha. }
  rewrite Forall_forall in Hall.
  destruct (Hall _ Ha') as (o & Ho & Hm & ->).
  rewrite Forall_forall in Hrecv.
  destruct (Hrecv _ Ho) as [receiver_ Hr].
  exists i, tx, outflows, o, receiver_.
  split; [exact Hi|]. split; [exact Hfound|]. split; [exact Hp|].
  split; [rewrite Forall_forall; exact Hrecv|]. split; [exact Ho|].
  split; [exact Hr|]. split; [exact Hm|].
  unfold message. rewrite Hr. reflexivity.
Qed.

(** X26: the slot of a wallet is recorded only after the transaction has
    been fully handled.  When a run of the callback changes the map of last
    slots or calls [saveLastSlot], then the transaction was fetched, every
    Outflow of the wallet whose amount matches the ranges has been alerted
    in order and every [sendAlert] has resolved, the slot of the
    transaction is not 0 and is the new entry of the wallet, no other entry
    has changed, and the map is saved. *)
Theorem slot_recorded_after_alerts
  (bs58_decode : string -> Result (list byte))
  (sendAlert : Alert -> Result unit) (saveLastSlot : gmap string Z -> Result unit)
  (cfg : CexConfig) (signature : string)
  (respond : nat -> TransactionMonitor.Attempt ParsedTransaction)
  (set : list string) (ls : gmap string Z) :
  let h := callback bs58_decode sendAlert saveLastSlot cfg signature respond set ls in
  lastSlots h <> ls \/ saved h = true ->
  exists i tx outflows,
    (i < 3)%nat /\ respond i = TransactionMonitor.Found tx
    /\ parseBlockTransactions bs58_decode (txWrapper tx) (address cfg) = Ok outflows
    /\ alerts h =
       message cfg signature
       <$> filter (fun o => Is_true (Ranges.amountMatchesRanges (amount o)
                                       (Ranges.parseRanges (Some (ranges cfg)))))
                  outflows
    /\ Forall (fun a => sendAlert a = Ok tt) (alerts h)
    /\ slot tx <> 0
    /\ lastSlots h = <[label cfg := slot tx]> ls
    /\ saved h = true.
Proof.
  intros h Hch. unfold h in *. clear h.
  unfold callback in *.
  destruct (TransactionMonitor.onLogs signature set) as [go set1].
  destruct go; cbn [negb] in *;
    [|cbn in Hch; destruct Hch as [Hch|Hch]; [destruct Hch; reflexivity|discriminate]].
  destruct (TransactionMonitor.fetched _) as [tx|] eqn:Hf;
    [|cbn in Hch; destruct Hch as [Hch|Hch]; [destruct Hch; reflexivity|discriminate]].
  destruct (fetched_found _ _ Hf) as (i & Hi & Hfound).
  destruct (parseBlockTransactions _ _ _) as [outflows|e] eqn:Hp;
    [|cbn in Hch; destruct Hch as [Hch|Hch]; [destruct Hch; reflexivity|discriminate]].
  destruct (logOutflows outflows) as [u|e] eqn:Hl;
    [|cbn in Hch; destruct Hch as [Hch|Hch]; [destruct Hch; reflexivity|discriminate]].
  destruct (sendAlerts _ _ _ _ _ _) as [al res] eqn:Hs.
  destruct (sendAlerts_spec _ _ _ _ _ _ _ _ Hs) as (sent & Hal & _ & Hres).
  cbn [app] in Hal. subst al.
  destruct res as [u'|e];
    [|cbn in Hch; destruct Hch as [Hch|Hch]; [destruct Hch; reflexivity|discriminate]].
  destruct Hres as [Hdel Hsent].
  assert (Hno : forall (P : Prop), ls <> ls \/ false = true -> P).
  { intros P [H|H]; [destruct H; reflexivity|discriminate]. }
  unfold TransactionMonitor.updateLastSlot in *.
  destruct (Z.eqb_spec (slot tx) 0) as [Hz|Hnz]; [apply Hno; exact Hch|].
  assert (Hyes : forall h',
            lastSlots h' = <[label cfg := slot tx]> ls -> alerts h' = sent -> saved h' = true ->
            exists i tx0 outflows0,
              (i < 3)%nat /\ respond i = TransactionMonitor.Found tx0
              /\ parseBlockTransactions bs58_decode (txWrapper tx0) (address cfg) = Ok outflows0
              /\ alerts h' =
                 message cfg signature
                 <$> filter (fun o => Is_true (Ranges.amountMatchesRanges (amount o)
                                                 (Ranges.parseRanges (Some (ranges cfg)))))
                            outflows0
              /\ Forall (fun a => sendAlert a = Ok tt) (alerts h')
              /\ slot tx0 <> 0
              /\ lastSlots h' = <[label cfg := slot tx0]> ls
              /\ saved h' = true).
  { intros h' Hls Hals Hsv. exists i, tx, outflows.
    rewrite Hals. split; [exact Hi|]. split; [exact Hfound|]. split; [exact Hp|].
    split; [exact Hsent|]. split; [exact Hdel|]. split; [exact Hnz|].
    split; [exact Hls|exact Hsv]. }
  destruct (ls !! label cfg) as [old|].
  - destruct ((old =? 0) || (old <? slot tx)).
    + destruct (saveLastSlot _); apply Hyes; reflexivity.
    + apply Hno; exact Hch.
  - destruct (saveLastSlot _); apply Hyes; reflexivity.
Qed.


End CallbackFacts.

Section CallbackExamples.

Import Js Env BlockParser ProcessBlock LogHandler.

Lemma callback_example :
  callback Base58.decode (fun _ => Ok tt) (fun _ => Ok tt) Examples.binance Examples.transferSignature
    (Examples.secondCall Examples.confirmedAt42) [] ∅
  = {| processedTxs := [Examples.transferSignature]; lastSlots := {[ "Binance"%string := 42 ]};
       alerts := [Examples.transferAlert]; getParsedTransactionCalls := 2; saved := true;
       outcome := Completed |}.
Proof. vm_compute. reflexivity. Qed.

(** An Outflow without receiver stops the run at the log line: the
    transfer of 2.5 of the same transaction raises no alert. *)
Lemma callback_no_destination_example :
  callback Base58.decode (fun _ => Ok tt) (fun _ => Ok tt) Examples.binance Examples.transferSignature
    (Examples.secondCall {| txWrapper := Examples.noDestinationTx; slot := 42 |}) [] ∅
  = {| processedTxs := [Examples.transferSignature]; lastSlots := ∅;
       alerts := []; getParsedTransactionCalls := 2; saved := false;
       outcome := Caught (Error "Cannot read properties of undefined (reading 'slice')") |}.
Proof. vm_compute. reflexivity. Qed.

(** [callback_alerts_justified] at the alert of the transfer of 2.5. *)
Lemma callback_alerts_justified_witness :
  (Examples.transferSignature ∉ @nil string)
  /\ exists i tx outflows o receiver_,
       (i < 3)%nat /\ Examples.secondCall Examples.confirmedAt42 i = TransactionMonitor.Found tx
       /\ parseBlockTransactions Base58.decode (txWrapper tx) (address Examples.binance) = Ok outflows
       /\ Forall (fun o' => is_Some (receiver o')) outflows
       /\ o ∈ outflows
       /\ receiver o = Some receiver_
       /\ Ranges.amountMatchesRanges (amount o)
            (Ranges.parseRanges (Some (ranges Examples.binance))) = true
       /\ Examples.transferAlert = {| alertLabel := label Examples.binance; alertAmount := amount o;
                             alertReceiver := receiver_;
                             alertSignature := Examples.transferSignature |}.
Proof.
  apply (callback_alerts_justified Base58.decode (fun _ => Ok tt) (fun _ => Ok tt) Examples.binance
           Examples.transferSignature (Examples.secondCall Examples.confirmedAt42) [] ∅ Examples.transferAlert).
  vm_compute. left.
Defined.

(** [slot_recorded_after_alerts] at the same run, which saves slot 42. *)
Lemma slot_recorded_after_alerts_witness :
  exists i tx outflows,
    (i < 3)%nat /\ Examples.secondCall Examples.confirmedAt42 i = TransactionMonitor.Found tx
    /\ parseBlockTransactions Base58.decode (txWrapper tx) (address Examples.binance) = Ok outflows
    /\ alerts (callback Base58.decode (fun _ => Ok tt) (fun _ => Ok tt) Examples.binance
                 Examples.transferSignature (Examples.secondCall Examples.confirmedAt42) [] ∅) =
       message Examples.binance Examples.transferSignature
       <$> filter (fun o => Is_true (Ranges.amountMatchesRanges (amount o)
                                       (Ranges.parseRanges (Some (ranges Examples.binance)))))
                  outflows
    /\ Forall (fun a => (fun _ : Alert => Ok tt) a = Ok tt)
         (alerts (callback Base58.decode (fun _ => Ok tt) (fun _ => Ok tt) Examples.binance
                    Examples.transferSignature (Examples.secondCall Examples.confirmedAt42) [] ∅))
    /\ slot tx <> 0
    /\ lastSlots (callback Base58.decode (fun _ => Ok tt) (fun _ => Ok tt) Examples.binance
                    Examples.transferSignature (Examples.secondCall Examples.confirmedAt42) [] ∅)
       = <[label Examples.binance := slot tx]> ∅
    /\ saved (callback Base58.decode (fun _ => Ok tt) (fun _ => Ok tt) Examples.binance
                Examples.transferSignature (Examples.secondCall Examples.confirmedAt42) [] ∅) = true.
Proof.
  apply (slot_recorded_after_alerts Base58.decode (fun _ => Ok tt) (fun _ => Ok tt) Examples.binance
           Examples.transferSignature (Examples.secondCall Examples.confirmedAt42) [] ∅).
  right. vm_compute. reflexivity.
Defined.

End CallbackExamples.
